(** * ptk: regular-expression engine, progressive lexer and FIRST sets

    A shallow embedding of [ptk/regex.py], [ptk/lexer.py] and the FIRST
    computation of [ptk/grammar.py], with the properties of the
    specification stated and settled against it.

    Modelling conventions.
    - Python object identity is an allocation index: every object
      creation ([_State()], [list()], [RegularExpression()]) draws the
      next index of the heap, so two objects are the same object iff
      their indices are equal.
    - Mutable lists of transitions and [RegularExpression] objects live
      in the heap and are reached through references, so that aliasing
      and in-place mutation ([append], [extend], attribute assignment)
      are visible.
    - Characters are the text characters of a regex source or of the
      lexer input, as [ascii]; [isdigit] is '0'..'9'.
    - Python exceptions are values of [exn]; a computation returns the
      heap it reached together with [Ok v] or [Raise e], so that a
      mutation done before a [raise] is kept, as in Python.
    - The host regular expressions of [re] (used by
      [RegexCharacterClass]) are not part of the repository: they are
      taken as a parameter, the class [HostRegex]. *)

From Stdlib Require Import Ascii String List Arith Lia Bool.
From stdpp Require Import base option list gmap sets strings.

Set Default Proof Using "Type".
Set Warnings "-clear-no-such-hyp".
Open Scope nat_scope.

(** ** Exceptions and results *)

Definition Position : Type := nat * nat. (* _LexerPosition(column, line) *)

Inductive exn : Type :=
| DeadState
| TokenizeError
| BackslashAtEndOfInputError
| UnterminatedClassError
| InvalidClassError
| InvalidExponentError
| RegexParseError
| LexerError (char : ascii) (colno lineno : nat)
| TypeError
| ValueError
| IndexError
| KeyError
| AttributeError
| GrammarError.

Inductive Res (A : Type) : Type :=
| Ok (a : A)
| Raise (e : exn)
| OutOfFuel.
Arguments Ok {A} a.
Arguments Raise {A} e.
Arguments OutOfFuel {A}.

(** ** Computations over a mutable state *)

(* A computation over the state S: it returns the state it reached and
   a value or the exception raised. *)
Definition ST (S A : Type) : Type := S → S * Res A.

Definition ret {S A} (a : A) : ST S A := λ s, (s, Ok a).
Definition raise {S A} (e : exn) : ST S A := λ s, (s, Raise e).
Definition out_of_fuel {S A} : ST S A := λ s, (s, OutOfFuel).
Definition lift {S A} (r : Res A) : ST S A := λ s, (s, r).
Definition bind {S A B} (m : ST S A) (k : A → ST S B) : ST S B :=
  λ s, match m s with
       | (s1, Ok a) => k a s1
       | (s1, Raise e) => (s1, Raise e)
       | (s1, OutOfFuel) => (s1, OutOfFuel)
       end.

Declare Scope st_scope.
Delimit Scope st_scope with st.
Notation "'let!' x ':=' m 'in' k" := (bind m (λ x, k))
  (at level 10, x pattern, m at level 100, k at level 200) : st_scope.
Notation "m ';;' k" := (bind m (λ _, k))
  (at level 100, k at level 200, right associativity) : st_scope.
Open Scope st_scope.

Fixpoint for_each {S A} (l : list A) (body : A → ST S unit) : ST S unit :=
  match l with
  | [] => ret tt
  | x :: l' => body x ;; for_each l' body
  end.

Fixpoint map_each {S A B} (l : list A) (f : A → ST S B) : ST S (list B) :=
  match l with
  | [] => ret []
  | x :: l' => let! y := f x in let! ys := map_each l' f in ret (y :: ys)
  end.

(** * regex.py *)

Module Regex.

(** ** Character classes *)

Class HostRegex : Type := {
  (* [re.compile(pattern)] succeeds *)
  re_compile : list ascii → bool;
  (* [re.compile(pattern).match(char) is not None] *)
  re_match : list ascii → ascii → bool
}.

Inductive CharacterClass : Type :=
| AnyCharacterClass
| RegexCharacterClass (pattern : list ascii)
| LitteralCharacterClass (char : ascii).

Definition newline : ascii := "010"%char.
Definition tab : ascii := "009"%char.

(* CharacterClass.__contains__ *)
Definition contains `{HostRegex} (klass : CharacterClass) (char : ascii) : bool :=
  match klass with
  | AnyCharacterClass => negb (Ascii.eqb char newline)
  | RegexCharacterClass pattern => re_match pattern char
  | LitteralCharacterClass c => Ascii.eqb char c
  end.

(** ** The heap of regex objects *)

(* the identity of a _State object, and of a list or of an expression *)
Abbreviation State := nat.
Abbreviation Ref := nat.

Definition Transition : Type := State * option CharacterClass * State.

Record RegularExpression : Type := mkRegularExpression {
  _transitions : Ref;                 (* a list object of the heap *)
  _startState : State;
  _finalState : State;
  _currentState : option (gset State);
  _startStates : gset State
}.

Record Heap : Type := mkHeap {
  next_id : nat;
  lists : gmap nat (list Transition);
  objects : gmap nat RegularExpression
}.

Definition empty_heap : Heap := mkHeap 0 ∅ ∅.

Definition M (A : Type) : Type := ST Heap A.

(* object creation: a new identity *)
Definition alloc : M nat :=
  λ h, (mkHeap (S (next_id h)) (lists h) (objects h), Ok (next_id h)).

(* list(l): a new list object holding the items of l *)
Definition new_list (l : list Transition) : M Ref :=
  let! r := alloc in
  λ h, (mkHeap (next_id h) (<[r := l]> (lists h)) (objects h), Ok r).

Definition read_list (r : Ref) : M (list Transition) :=
  λ h, match lists h !! r with
       | Some l => (h, Ok l)
       | None => (h, Raise TypeError)
       end.

(* r.append(t) *)
Definition list_append (r : Ref) (t : Transition) : M unit :=
  let! l := read_list r in
  λ h, (mkHeap (next_id h) (<[r := l ++ [t]]> (lists h)) (objects h), Ok tt).

(* r.extend(ts) *)
Definition list_extend (r : Ref) (ts : list Transition) : M unit :=
  let! l := read_list r in
  λ h, (mkHeap (next_id h) (<[r := l ++ ts]> (lists h)) (objects h), Ok tt).

Definition get_object (r : Ref) : M RegularExpression :=
  λ h, match objects h !! r with
       | Some o => (h, Ok o)
       | None => (h, Raise TypeError)
       end.

Definition put_object (r : Ref) (o : RegularExpression) : M unit :=
  λ h, (mkHeap (next_id h) (lists h) (<[r := o]> (objects h)), Ok tt).

Definition set_transitions (r l : Ref) : M unit :=
  let! o := get_object r in
  put_object r (mkRegularExpression l (_startState o) (_finalState o)
                  (_currentState o) (_startStates o)).

Definition set_startState (r : Ref) (s : State) : M unit :=
  let! o := get_object r in
  put_object r (mkRegularExpression (_transitions o) s (_finalState o)
                  (_currentState o) (_startStates o)).

Definition set_finalState (r : Ref) (s : State) : M unit :=
  let! o := get_object r in
  put_object r (mkRegularExpression (_transitions o) (_startState o) s
                  (_currentState o) (_startStates o)).

Definition set_currentState (r : Ref) (c : option (gset State)) : M unit :=
  let! o := get_object r in
  put_object r (mkRegularExpression (_transitions o) (_startState o)
                  (_finalState o) c (_startStates o)).

Definition set_startStates (r : Ref) (c : gset State) : M unit :=
  let! o := get_object r in
  put_object r (mkRegularExpression (_transitions o) (_startState o)
                  (_finalState o) (_currentState o) c).

Definition transitions_of (r : Ref) : M (list Transition) :=
  let! o := get_object r in read_list (_transitions o).

(** ** RegularExpression: construction *)

(* RegularExpression(): the object, then __init__ *)
Definition RegularExpression__new : M Ref :=
  let! self := alloc in
  let! l := new_list [] in
  let! s := alloc in
  let! f := alloc in
  put_object self (mkRegularExpression l s f None ∅) ;;
  ret self.

(* result._startStates = set([state for state, _, _ in result._transitions]) *)
Definition update_startStates (result : Ref) : M unit :=
  let! ts := transitions_of result in
  set_startStates result (list_to_set (map (λ t : Transition, t.1.1) ts)).

Definition clone (self : Ref) : M Ref :=
  let! result := RegularExpression__new in
  let! me := get_object self in
  let! res := get_object result in
  let! ts := read_list (_transitions me) in
  for_each ts (λ '(startState, trans, endState),
    let startState :=
      if startState =? _startState me then _startState res else startState in
    let startState :=
      if startState =? _finalState me then _finalState res else startState in
    let endState :=
      if endState =? _startState me then _startState res else endState in
    let endState :=
      if endState =? _finalState me then _finalState res else endState in
    list_append (_transitions res) (startState, trans, endState)) ;;
  update_startStates result ;;
  ret result.

Definition fromClass (klass : CharacterClass) : M Ref :=
  let! result := RegularExpression__new in
  let! res := get_object result in
  let! l := new_list [(_startState res, Some klass, _finalState res)] in
  set_transitions result l ;;
  update_startStates result ;;
  ret result.

Definition concat (rxs : list Ref) : M Ref :=
  let! rxs := map_each rxs clone in
  let! result := RegularExpression__new in
  match rxs with
  | rx0 :: _ =>
      let! o0 := get_object rx0 in
      set_startState result (_startState o0) ;;
      let! ts0 := read_list (_transitions o0) in
      let! l := new_list ts0 in
      set_transitions result l ;;
      for_each (zip (removelast rxs) (tail rxs)) (λ '(rx1, rx2),
        let! o1 := get_object rx1 in
        let! o2 := get_object rx2 in
        let! ts := read_list (_transitions o2) in
        for_each ts (λ '(startState, trans, endState),
          let startState :=
            if startState =? _startState o2 then _finalState o1 else startState in
          let endState :=
            if endState =? _startState o2 then _finalState o1 else endState in
          list_append l (startState, trans, endState))) ;;
      let! olast := get_object (List.last rxs rx0) in
      set_finalState result (_finalState olast)
  | [] =>
      let! res := get_object result in
      let! l := new_list [(_startState res, None, _finalState res)] in
      set_transitions result l
  end ;;
  update_startStates result ;;
  ret result.

Definition union (rxs : list Ref) : M Ref :=
  let! result := RegularExpression__new in
  let! res := get_object result in
  let! rxs := map_each rxs clone in
  for_each rxs (λ rx,
    let! o := get_object rx in
    let! ts := read_list (_transitions o) in
    list_extend (_transitions res) ts ;;
    list_append (_transitions res) (_startState res, None, _startState o) ;;
    list_append (_transitions res) (_finalState o, None, _finalState res)) ;;
  update_startStates result ;;
  ret result.

Definition kleene (rx : Ref) : M Ref :=
  let! result := RegularExpression__new in
  let! res := get_object result in
  let! o := get_object rx in
  let! ts := read_list (_transitions o) in
  let! l := new_list ts in
  set_transitions result l ;;
  list_append l (_startState res, None, _finalState res) ;;
  list_append l (_finalState o, None, _startState o) ;;
  list_append l (_startState res, None, _startState o) ;;
  list_append l (_finalState o, None, _finalState res) ;;
  update_startStates result ;;
  ret result.

(* the branch of exponent with maxCount given: the union of the
   concatenations of count copies of rx, for count in
   range(minCount, maxCount+1) *)
Definition exponent_bounded (rx : Ref) (minCount maxCount : nat) : M Ref :=
  let! alts :=
    map_each (seq minCount (maxCount + 1 - minCount))
             (λ count, concat (replicate count rx)) in
  union alts.

Definition exponent (rx : Ref) (minCount : nat) (maxCount : option nat) : M Ref :=
  match maxCount with
  | None =>
      let! r1 := exponent_bounded rx minCount minCount in
      let! r2 := kleene rx in
      concat [r1; r2]
  | Some maxCount => exponent_bounded rx minCount maxCount
  end.

(** ** RegularExpression: matching *)

Definition is_None {A} (o : option A) : bool :=
  match o with None => true | Some _ => false end.

(* one run of the inner loop of _epsilonClose, for one state of the copy *)
Definition eps_inner (T : list Transition) (state : State)
    (acc : gset State * bool) : gset State * bool :=
  foldl (λ (acc : gset State * bool) (t : Transition),
           let '(newStates, added) := acc in
           let '(startState, trans, endState) := t in
           if (startState =? state) && is_None trans
              && negb (bool_decide (endState ∈ newStates))
           then (newStates ∪ {[endState]}, true)
           else (newStates, added))
        acc T.

(* one run of the body of the while loop: added = False, then the loop
   over a copy of newStates *)
Definition eps_pass (T : list Transition) (newStates : gset State)
    : gset State * bool :=
  foldl (λ acc state, eps_inner T state acc) (newStates, false)
        (elements newStates).

Fixpoint eps_loop (fuel : nat) (T : list Transition) (newStates : gset State)
    : option (gset State) :=
  match fuel with
  | 0 => None
  | S fuel =>
      let '(newStates, added) := eps_pass T newStates in
      if added then eps_loop fuel T newStates else Some newStates
  end.

Definition epsilonClose_of (T : list Transition) (states : gset State)
    : option (gset State) :=
  eps_loop (S (length T)) T states.

Definition _epsilonClose (self : Ref) (states : gset State) : M (gset State) :=
  let! T := transitions_of self in
  match epsilonClose_of T states with
  | Some newStates => ret newStates
  | None => out_of_fuel
  end.

(* _closure; [states] is None when the expression was never started, and
   then the membership test raises *)
Definition closure_of `{HostRegex} (T : list Transition)
    (states : option (gset State)) (char : ascii) : Res (gset State) :=
  foldl (λ (acc : Res (gset State)) (t : Transition),
           match acc with
           | Ok newStates =>
               let '(startState, trans, endState) := t in
               match trans with
               | None => Ok newStates
               | Some klass =>
                   match states with
                   | None => Raise TypeError
                   | Some states =>
                       if bool_decide (startState ∈ states) && contains klass char
                       then Ok (newStates ∪ {[endState]})
                       else Ok newStates
                   end
               end
           | _ => acc
           end)
        (Ok ∅) T.

Definition _closure `{HostRegex} (self : Ref) (states : option (gset State))
    (char : ascii) : M (gset State) :=
  let! T := transitions_of self in lift (closure_of T states char).

Definition start (self : Ref) : M Ref :=
  let! o := get_object self in
  let! c := _epsilonClose self {[ _startState o ]} in
  set_currentState self (Some c) ;;
  ret self.

Definition feed `{HostRegex} (self : Ref) (char : ascii) : M bool :=
  let! o := get_object self in
  let! moved := _closure self (_currentState o) char in
  let! c := _epsilonClose self moved in
  set_currentState self (Some c) ;;
  if bool_decide (c = ∅) then raise DeadState
  else ret (bool_decide (_finalState o ∈ c)).

Definition isDeadEnd (self : Ref) : M bool :=
  let! o := get_object self in
  match _currentState o with
  | None => ret false
  | Some c =>
      ret (negb (bool_decide (c = ∅))
           && forallb (λ state, negb (bool_decide (state ∈ _startStates o)))
                      (elements c))
  end.

Definition final_in_current (self : Ref) : M bool :=
  let! o := get_object self in
  match _currentState o with
  | None => raise TypeError
  | Some c => ret (bool_decide (_finalState o ∈ c))
  end.

(* RegularExpression.match *)
Definition match_ `{HostRegex} (self : Ref) (string : list ascii) : M bool :=
  start self ;;
  λ h, match (for_each string (λ char, feed self char ;; ret tt) ;;
              final_in_current self) h with
       | (h1, Raise DeadState) => (h1, Ok false)
       | r => r
       end.

(** ** Tokenization of regular expressions *)

Inductive Token : Type :=
| TOK_CLASS (value : CharacterClass)
| TOK_EXPONENT (minCount : nat) (maxCount : option nat)
| TOK_LPAREN
| TOK_RPAREN
| TOK_UNION.

Record RegexTokenizer : Type := mkRegexTokenizer {
  _stack : list ascii;               (* the characters still to pop, next first *)
  _state : nat;
  _currentClass : option (list ascii);
  _exponentValue : nat;
  _startExponent : option nat
}.

Definition RegexTokenizer__init__ (regex : list ascii) : RegexTokenizer :=
  mkRegexTokenizer regex 0 None 0 None.

Definition isdigit (char : ascii) : bool :=
  (48 <=? nat_of_ascii char) && (nat_of_ascii char <=? 57).

Definition int (char : ascii) : nat := nat_of_ascii char - 48.

Definition RegexCharacterClass__init__ `{HostRegex} (pattern : list ascii)
    : Res CharacterClass :=
  if re_compile pattern then Ok (RegexCharacterClass pattern)
  else Raise InvalidClassError.

Definition in_chars (char : ascii) (l : list ascii) : bool :=
  existsb (Ascii.eqb char) l.

Definition set_currentClass (self : RegexTokenizer) (c : option (list ascii)) :=
  mkRegexTokenizer (_stack self) (_state self) c
                   (_exponentValue self) (_startExponent self).
Definition set_exponentValue (self : RegexTokenizer) (v : nat) :=
  mkRegexTokenizer (_stack self) (_state self) (_currentClass self)
                   v (_startExponent self).
Definition set_startExponent (self : RegexTokenizer) (v : option nat) :=
  mkRegexTokenizer (_stack self) (_state self) (_currentClass self)
                   (_exponentValue self) v.
Definition set_state (self : RegexTokenizer) (s : nat) :=
  mkRegexTokenizer (_stack self) s (_currentClass self)
                   (_exponentValue self) (_startExponent self).
Definition set_stack (self : RegexTokenizer) (s : list ascii) :=
  mkRegexTokenizer s (_state self) (_currentClass self)
                   (_exponentValue self) (_startExponent self).

(* what a state method leaves: the tokenizer, the token list and the
   returned state (None: no return statement was reached) *)
Definition StateResult : Type := Res (RegexTokenizer * list Token * option nat).

Definition _state0 (self : RegexTokenizer) (char : ascii) (tokenList : list Token)
    : StateResult :=
  if Ascii.eqb char "*" then Ok (self, tokenList ++ [TOK_EXPONENT 0 None], None)
  else if Ascii.eqb char "+" then Ok (self, tokenList ++ [TOK_EXPONENT 1 None], None)
  else if Ascii.eqb char "." then Ok (self, tokenList ++ [TOK_CLASS AnyCharacterClass], None)
  else if Ascii.eqb char "(" then Ok (self, tokenList ++ [TOK_LPAREN], None)
  else if Ascii.eqb char ")" then Ok (self, tokenList ++ [TOK_RPAREN], None)
  else if Ascii.eqb char "|" then Ok (self, tokenList ++ [TOK_UNION], None)
  else if Ascii.eqb char "[" then
    Ok (set_currentClass self (Some [char]), tokenList, Some 2)
  else if Ascii.eqb char "{" then Ok (self, tokenList, Some 9)
  else if in_chars char ["]"; "}"]%char then Raise TokenizeError
  else if Ascii.eqb char "\" then Ok (self, tokenList, Some 1)
  else Ok (self, tokenList ++ [TOK_CLASS (LitteralCharacterClass char)], None).

Definition _state1 `{HostRegex} (self : RegexTokenizer) (char : ascii)
    (tokenList : list Token) : StateResult :=
  if in_chars char ["d"; "s"; "w"; "D"; "S"; "W"]%char then
    match RegexCharacterClass__init__ ["\"%char; char] with
    | Ok k => Ok (self, tokenList ++ [TOK_CLASS k], Some 0)
    | Raise e => Raise e
    | OutOfFuel => OutOfFuel
    end
  else if Ascii.eqb char "n" then
    Ok (self, tokenList ++ [TOK_CLASS (LitteralCharacterClass newline)], Some 0)
  else if Ascii.eqb char "t" then
    Ok (self, tokenList ++ [TOK_CLASS (LitteralCharacterClass tab)], Some 0)
  else Ok (self, tokenList ++ [TOK_CLASS (LitteralCharacterClass char)], Some 0).

(* self._currentClass.write(char) *)
Definition write_currentClass (self : RegexTokenizer) (chars : list ascii)
    : Res RegexTokenizer :=
  match _currentClass self with
  | Some buf => Ok (set_currentClass self (Some (buf ++ chars)))
  | None => Raise AttributeError
  end.

Definition _state2 `{HostRegex} (self : RegexTokenizer) (char : ascii)
    (tokenList : list Token) : StateResult :=
  if Ascii.eqb char "\" then Ok (self, tokenList, Some 3)
  else if Ascii.eqb char "]" then
    match write_currentClass self [char] with
    | Ok self =>
        match RegexCharacterClass__init__ (default [] (_currentClass self)) with
        | Ok k => Ok (set_currentClass self None, tokenList ++ [TOK_CLASS k], Some 0)
        | Raise e => Raise e
        | OutOfFuel => OutOfFuel
        end
    | Raise e => Raise e
    | OutOfFuel => OutOfFuel
    end
  else
    match write_currentClass self [char] with
    | Ok self => Ok (self, tokenList, None)
    | Raise e => Raise e
    | OutOfFuel => OutOfFuel
    end.

Definition _state3 (self : RegexTokenizer) (char : ascii) (tokenList : list Token)
    : StateResult :=
  match write_currentClass self ["\"%char; char] with
  | Ok self => Ok (self, tokenList, Some 2)
  | Raise e => Raise e
  | OutOfFuel => OutOfFuel
  end.

Definition _state9 (self : RegexTokenizer) (char : ascii) (tokenList : list Token)
    : StateResult :=
  if negb (isdigit char) then Raise InvalidExponentError
  else Ok (set_exponentValue self (int char), tokenList, Some 10).

Definition _state10 (self : RegexTokenizer) (char : ascii) (tokenList : list Token)
    : StateResult :=
  if Ascii.eqb char "-" then
    Ok (set_startExponent self (Some (_exponentValue self)), tokenList, Some 11)
  else if Ascii.eqb char "}" then
    Ok (self,
        tokenList ++ [TOK_EXPONENT (_exponentValue self) (Some (_exponentValue self))],
        Some 0)
  else if isdigit char then
    Ok (set_exponentValue self (_exponentValue self * 10 + int char), tokenList, None)
  else Raise InvalidExponentError.

Definition _state11 (self : RegexTokenizer) (char : ascii) (tokenList : list Token)
    : StateResult :=
  if Ascii.eqb char "}" then Raise InvalidExponentError
  else if negb (isdigit char) then Raise InvalidExponentError
  else Ok (set_exponentValue self (int char), tokenList, Some 12).

Definition _state12 (self : RegexTokenizer) (char : ascii) (tokenList : list Token)
    : StateResult :=
  if Ascii.eqb char "}" then
    match _startExponent self with
    | None => Raise TypeError
    | Some startExponent =>
        if _exponentValue self <? startExponent then Raise InvalidExponentError
        else Ok (self,
                 tokenList ++ [TOK_EXPONENT startExponent (Some (_exponentValue self))],
                 Some 0)
    end
  else if negb (isdigit char) then Raise InvalidExponentError
  else Ok (set_exponentValue self (_exponentValue self * 10 + int char), tokenList, None).

(* getattr(self, '_state%d' % self._state) *)
Definition state_method `{HostRegex} (n : nat)
    : option (RegexTokenizer → ascii → list Token → StateResult) :=
  match n with
  | 0 => Some _state0
  | 1 => Some _state1
  | 2 => Some _state2
  | 3 => Some _state3
  | 9 => Some _state9
  | 10 => Some _state10
  | 11 => Some _state11
  | 12 => Some _state12
  | _ => None
  end.

(* the while loop of tokens(), by recursion on the stack *)
Fixpoint tokens_loop `{HostRegex} (stack : list ascii) (self : RegexTokenizer)
    (tokenList : list Token) : Res (RegexTokenizer * list Token) :=
  match stack with
  | [] => Ok (set_stack self [], tokenList)
  | char :: stack =>
      match state_method (_state self) with
      | None => Raise AttributeError
      | Some state =>
          match state (set_stack self stack) char tokenList with
          | Ok (self, tokenList, st) =>
              tokens_loop stack
                (set_state self (default (_state self) st)) tokenList
          | Raise e => Raise e
          | OutOfFuel => OutOfFuel
          end
      end
  end.

Definition tokens `{HostRegex} (self : RegexTokenizer) : Res (list Token) :=
  match tokens_loop (_stack self) self [] with
  | Ok (self, tokenList) =>
      if _state self =? 1 then Raise BackslashAtEndOfInputError
      else if (2 <=? _state self) && (_state self <=? 8) then Raise UnterminatedClassError
      else if (9 <=? _state self) && (_state self <=? 12) then Raise InvalidExponentError
      else Ok tokenList
  | Raise e => Raise e
  | OutOfFuel => OutOfFuel
  end.

(** ** Parsing of regular expressions *)

Definition is_union (t : option Token) : bool :=
  match t with Some TOK_UNION => true | _ => false end.
Definition is_exponent (t : option Token) : bool :=
  match t with Some (TOK_EXPONENT _ _) => true | _ => false end.
Definition is_rparen (t : option Token) : bool :=
  match t with Some TOK_RPAREN => true | _ => false end.

(* The methods of RegexParser; [fuel] bounds the depth of the calls, a
   loop iteration counting as a call. *)
Fixpoint _parse_R3 (fuel : nat) (left : Ref) (tokens : list Token) (pos : nat)
    : M (Ref * nat) :=
  match fuel with
  | 0 => out_of_fuel
  | S fuel =>
      if negb (pos =? length tokens) && is_exponent (tokens !! pos) then
        match tokens !! pos with
        | Some (TOK_EXPONENT minCount maxCount) =>
            let! left := exponent left minCount maxCount in
            _parse_R3 fuel left tokens (pos + 1)
        | _ => raise AttributeError
        end
      else ret (left, pos)
  end.

Fixpoint _parse_E1 (fuel : nat) (tokens : list Token) (pos : nat) : M (Ref * nat) :=
  match fuel with
  | 0 => out_of_fuel
  | S fuel =>
      let! (expr, pos) := _parse_E2 fuel tokens pos in
      _parse_R1 fuel expr tokens pos
  end
with _parse_R1 (fuel : nat) (left : Ref) (tokens : list Token) (pos : nat)
    : M (Ref * nat) :=
  match fuel with
  | 0 => out_of_fuel
  | S fuel =>
      if negb (pos =? length tokens) && is_union (tokens !! pos) then
        let! (expr, pos) := _parse_E2 fuel tokens (pos + 1) in
        let! left := union [left; expr] in
        _parse_R1 fuel left tokens pos
      else ret (left, pos)
  end
with _parse_E2 (fuel : nat) (tokens : list Token) (pos : nat) : M (Ref * nat) :=
  match fuel with
  | 0 => out_of_fuel
  | S fuel =>
      let! (expr, pos) := _parse_E3 fuel tokens pos in
      _parse_R2 fuel expr tokens pos
  end
with _parse_R2 (fuel : nat) (left : Ref) (tokens : list Token) (pos : nat)
    : M (Ref * nat) :=
  match fuel with
  | 0 => out_of_fuel
  | S fuel =>
      λ h,
        match (let! (tempExpr, tempPos) := _parse_E3 fuel tokens pos in
               _parse_R2 fuel tempExpr tokens tempPos) h with
        | (h1, Raise RegexParseError) => (h1, Ok (left, pos))
        | (h1, Ok _) =>
            (let! (expr, pos) := _parse_E3 fuel tokens pos in
             let! left := concat [left; expr] in
             _parse_R2 fuel left tokens pos) h1
        | (h1, Raise e) => (h1, Raise e)
        | (h1, OutOfFuel) => (h1, OutOfFuel)
        end
  end
with _parse_E3 (fuel : nat) (tokens : list Token) (pos : nat) : M (Ref * nat) :=
  match fuel with
  | 0 => out_of_fuel
  | S fuel =>
      let! (expr, pos) := _parse_E fuel tokens pos in
      _parse_R3 fuel expr tokens pos
  end
with _parse_E (fuel : nat) (tokens : list Token) (pos : nat) : M (Ref * nat) :=
  match fuel with
  | 0 => out_of_fuel
  | S fuel =>
      if pos =? length tokens then raise RegexParseError
      else
        match tokens !! pos with
        | Some TOK_LPAREN =>
            let! (expr, pos) := _parse_E1 fuel tokens (pos + 1) in
            if (pos =? length tokens) || negb (is_rparen (tokens !! pos))
            then raise RegexParseError
            else ret (expr, pos + 1)
        | Some (TOK_CLASS value) =>
            let! expr := fromClass value in ret (expr, pos + 1)
        | Some _ => raise RegexParseError
        | None => raise IndexError
        end
  end.

(* the depth the parser is run with: enough for the call chain
   E1, E2, E3, E of every token *)
Definition parse_fuel (tokens : list Token) : nat := 4 * length tokens + 8.

(* RegexParser.parse *)
Definition parse (tokens : list Token) : M Ref :=
  let! (expr, pos) := _parse_E1 (parse_fuel tokens) tokens 0 in
  if negb (length tokens =? pos) then raise RegexParseError
  else ret expr.

Definition buildRegex `{HostRegex} (rx : list ascii) : M Ref :=
  let! toks := lift (tokens (RegexTokenizer__init__ rx)) in
  parse toks.

Definition chars (s : string) : list ascii := list_ascii_of_string s.

End Regex.

(** * lexer.py *)

Module Lexer.

(* what feed receives: a character of the input or the EOF singleton *)
Inductive Input : Type :=
| Char (c : ascii)
| EOF.

(* the values a token type takes: None, a type name, or EOF *)
Inductive TokType : Type :=
| TypeNone
| TypeName (name : string)
| TypeEOF.

(* LexerBase._MutableToken *)
Record _MutableToken : Type := mkMutableToken {
  type : TokType;
  value : list ascii
}.

(* what newToken receives: RegexTokenizer.Token(type, value), or EOF *)
Inductive Token : Type :=
| EOFToken
| MkToken (type : TokType) (value : list ascii).

(* _MutableToken.token *)
Definition token (self : _MutableToken) : Token :=
  match type self with
  | TypeEOF => EOFToken
  | _ => MkToken (type self) (value self)
  end.

(* A consumer is an object with a feed method and a state of its own.
   It is modelled by what feed returns as a function of the characters
   it has been fed so far, the last one included: None when the
   character is absorbed, or the pair (type, value). *)
Definition Consumer : Type := list Input → option (TokType * list ascii).

Definition consumer_feed (c : Consumer) (char : Input)
    : option (TokType * list ascii) * Consumer :=
  (c [char], λ rest, c (char :: rest)).

(* an item of __tokens__[1]: (regex, callback, defaultType); a callback
   is a function object, known by its identity *)
Definition Rule : Type := list ascii * nat * option string.

(* A lexer class: the rule lists of the class and of its bases in the
   order of inspect.getmro, and what each callback does when called with
   a mutable token: it leaves the token as it mutated it and the
   consumer it installed with setConsumer, if any. *)
Class LexerClass : Type := {
  mro_tokens : list (list Rule);
  call : nat → _MutableToken → _MutableToken * option Consumer
}.

(* LexerBase._allTokens()[1] *)
Definition _allTokens `{LexerClass} : list Rule := List.concat mro_tokens.

(* an item of ProgressiveLexer.__currentState:
   (regex, callback, defaultType, pos) with pos the one-item list *)
Definition Entry : Type := Regex.Ref * nat * option string * nat.

Record ProgressiveLexer : Type := mkProgressiveLexer {
  heap : Regex.Heap;
  pos : Position;                          (* LexerBase.__pos *)
  consumer : option Consumer;              (* LexerBase.__consumer *)
  currentState : list Entry;
  currentMatch : list (ascii * Position);
  matches : list (nat * nat);              (* (pos, callback) *)
  maxPos : nat;
  state : nat;
  emitted : list Token;                    (* the tokens given to newToken *)
  called : list (nat * _MutableToken)      (* the callbacks called, with the token given *)
}.

Definition L (A : Type) : Type := ST ProgressiveLexer A.

Definition get : L ProgressiveLexer := λ lx, (lx, Ok lx).
Definition modify (f : ProgressiveLexer → ProgressiveLexer) : L unit :=
  λ lx, (f lx, Ok tt).

Definition with_heap (h : Regex.Heap) (lx : ProgressiveLexer) :=
  mkProgressiveLexer h (pos lx) (consumer lx) (currentState lx) (currentMatch lx)
    (matches lx) (maxPos lx) (state lx) (emitted lx) (called lx).
Definition with_pos (p : Position) (lx : ProgressiveLexer) :=
  mkProgressiveLexer (heap lx) p (consumer lx) (currentState lx) (currentMatch lx)
    (matches lx) (maxPos lx) (state lx) (emitted lx) (called lx).
Definition with_consumer (c : option Consumer) (lx : ProgressiveLexer) :=
  mkProgressiveLexer (heap lx) (pos lx) c (currentState lx) (currentMatch lx)
    (matches lx) (maxPos lx) (state lx) (emitted lx) (called lx).
Definition with_currentState (cs : list Entry) (lx : ProgressiveLexer) :=
  mkProgressiveLexer (heap lx) (pos lx) (consumer lx) cs (currentMatch lx)
    (matches lx) (maxPos lx) (state lx) (emitted lx) (called lx).
Definition with_currentMatch (cm : list (ascii * Position)) (lx : ProgressiveLexer) :=
  mkProgressiveLexer (heap lx) (pos lx) (consumer lx) (currentState lx) cm
    (matches lx) (maxPos lx) (state lx) (emitted lx) (called lx).
Definition with_matches (ms : list (nat * nat)) (lx : ProgressiveLexer) :=
  mkProgressiveLexer (heap lx) (pos lx) (consumer lx) (currentState lx) (currentMatch lx)
    ms (maxPos lx) (state lx) (emitted lx) (called lx).
Definition with_maxPos (n : nat) (lx : ProgressiveLexer) :=
  mkProgressiveLexer (heap lx) (pos lx) (consumer lx) (currentState lx) (currentMatch lx)
    (matches lx) n (state lx) (emitted lx) (called lx).
Definition with_state (n : nat) (lx : ProgressiveLexer) :=
  mkProgressiveLexer (heap lx) (pos lx) (consumer lx) (currentState lx) (currentMatch lx)
    (matches lx) (maxPos lx) n (emitted lx) (called lx).
Definition with_emitted (e : list Token) (lx : ProgressiveLexer) :=
  mkProgressiveLexer (heap lx) (pos lx) (consumer lx) (currentState lx) (currentMatch lx)
    (matches lx) (maxPos lx) (state lx) e (called lx).
Definition with_called (c : list (nat * _MutableToken)) (lx : ProgressiveLexer) :=
  mkProgressiveLexer (heap lx) (pos lx) (consumer lx) (currentState lx) (currentMatch lx)
    (matches lx) (maxPos lx) (state lx) (emitted lx) c.

(* a computation on the regex objects, run on the heap of the lexer *)
Definition in_heap {A} (m : Regex.M A) : L A :=
  λ lx, let '(h, r) := m (heap lx) in (with_heap h lx, r).

(** ** LexerBase *)

Definition LexerBase_restartLexer (resetPos : bool) : L unit :=
  (if resetPos then modify (with_pos (0, 1)) else ret tt) ;;
  modify (with_consumer None).

Definition position : L Position := let! lx := get in ret (pos lx).

Definition advanceColumn (count : nat) : L unit :=
  modify (λ lx, let '(col, row) := pos lx in with_pos (col + count, row) lx).

Definition advanceLine (count : nat) : L unit :=
  modify (λ lx, let '(_, row) := pos lx in with_pos (0, row + count) lx).

Definition ignore (char : ascii) : bool :=
  Regex.in_chars char [" "%char; Regex.tab].

Definition setConsumer (c : option Consumer) : L unit := modify (with_consumer c).

(* newToken is what the user of the lexer overrides; the tokens it
   receives are recorded in order *)
Definition newToken (tok : Token) : L unit :=
  modify (λ lx, with_emitted (emitted lx ++ [tok]) lx).

Definition type_of_default (defaultType : option string) : TokType :=
  match defaultType with
  | None => TypeNone
  | Some name => TypeName name
  end.

(** ** ProgressiveLexer *)

Definition restartLexer `{Regex.HostRegex} `{LexerClass} (resetPos : bool) : L unit :=
  let! cs :=
    map_each _allTokens (λ '(rx, callback, defaultType),
      let! regex := in_heap (let! r := Regex.buildRegex rx in Regex.start r) in
      ret (regex, callback, defaultType, 0)) in
  modify (with_currentState cs) ;;
  modify (with_currentMatch []) ;;
  modify (with_matches []) ;;
  modify (with_maxPos 0) ;;
  modify (with_state 0) ;;
  LexerBase_restartLexer resetPos.

(* ProgressiveLexer(): LexerBase.__init__ calls restartLexer *)
Definition ProgressiveLexer__new `{Regex.HostRegex} `{LexerClass}
    : ProgressiveLexer * Res unit :=
  restartLexer true
    (mkProgressiveLexer Regex.empty_heap (0, 1) None [] [] [] 0 0 [] []).

Definition keep_maxPos (ms : list (nat * nat)) (maxPos : nat) : list (nat * nat) :=
  filter (λ m, m.1 = maxPos) ms.

(* the loop of feed over __currentState, which feeds the character to
   the expression of each rule; [newState] is the list built so far.
   The position of a rule is stored when the loop is over: an exception
   other than DeadState, which a started expression does not raise,
   leaves the loop with __currentState as it was. *)
Fixpoint feed_rules `{Regex.HostRegex} (char : ascii) (entries newState : list Entry)
    : L (list Entry) :=
  match entries with
  | [] => ret newState
  | (regex, callback, defaultType, p) :: entries =>
      λ lx,
        match in_heap (Regex.feed regex char) lx with
        | (lx1, Ok accepted) =>
            let p := if accepted then length (currentMatch lx1) + 1 else p in
            feed_rules char entries
              (newState ++ [(regex, callback, defaultType, p)]) lx1
        | (lx1, Raise DeadState) =>
            ((if negb (p =? 0) then
                modify (λ lx, with_matches (matches lx ++ [(p, callback)]) lx) ;;
                modify (λ lx, with_maxPos (max (maxPos lx) p) lx)
              else ret tt) ;;
             feed_rules char entries newState) lx1
        | (lx1, Raise e) => (lx1, Raise e)
        | (lx1, OutOfFuel) => (lx1, OutOfFuel)
        end
  end.

(* the statements of feed inside try, for char a character; the result
   is false when the function returns from there *)
Definition feed_char `{Regex.HostRegex} (char : ascii) (charPos : option Position)
    : L bool :=
  let! lx := get in
  if (state lx =? 0) && ignore char then ret false
  else
    modify (with_state 1) ;;
    let! newState := feed_rules char (currentState lx) [] in
    let! dead :=
      map_each newState (λ '(regex, _, _, _), in_heap (Regex.isDeadEnd regex)) in
    let! newState :=
      if forallb id dead then
        for_each newState (λ '(_, callback, _, _),
          modify (λ lx, with_matches
                          (matches lx ++ [(length (currentMatch lx) + 1, callback)]) lx) ;;
          modify (λ lx, with_maxPos
                          (max (maxPos lx) (length (currentMatch lx) + 1)) lx)) ;;
        ret []
      else ret newState in
    modify (λ lx, with_matches (keep_maxPos (matches lx) (maxPos lx)) lx) ;;
    modify (with_currentState newState) ;;
    let! p := position in
    modify (λ lx, with_currentMatch
                    (currentMatch lx ++ [(char, default p charPos)]) lx) ;;
    let! lx := get in
    match currentState lx with
    | _ :: _ => ret false
    | [] =>
        if maxPos lx =? 0 then
          let '(col, row) := pos lx in raise (LexerError char col row)
        else ret true
    end.

(* the statements of feed inside try, for char the EOF singleton *)
Definition feed_eof `{Regex.HostRegex} `{LexerClass} : L bool :=
  let! lx := get in
  if state lx =? 0 then
    restartLexer true ;; newToken EOFToken ;; ret false
  else
    match currentState lx with
    | [] => raise ValueError
    | _ :: _ =>
        modify (with_maxPos
                  (max (maxPos lx)
                       (list_max (map (λ e : Entry, e.2) (currentState lx))))) ;;
        let! lx := get in
        match currentMatch lx with
        | (c, (col, row)) :: _ =>
            if maxPos lx =? 0 then raise (LexerError c col row) else ret tt
        | [] => ret tt
        end ;;
        modify (λ lx, with_matches
                  (matches lx ++
                   map (λ e : Entry, (e.2, e.1.1.2))
                       (filter (λ e : Entry, e.2 = maxPos lx) (currentState lx))) lx) ;;
        modify (λ lx, with_matches (keep_maxPos (matches lx) (maxPos lx)) lx) ;;
        ret true
    end.

(* the loop of __finalizeMatch over the rules: the first rule whose
   callback is in [matches] is called, and the loop is left *)
Fixpoint dispatch `{LexerClass} (rules : list Rule) (matches : gset nat)
    (match_ : list ascii) : L unit :=
  match rules with
  | [] => ret tt
  | (_, callback, defaultType) :: rules =>
      if bool_decide (callback ∈ matches) then
        let tok := mkMutableToken (type_of_default defaultType) match_ in
        modify (λ lx, with_called (called lx ++ [(callback, tok)]) lx) ;;
        let '(tok, installed) := call callback tok in
        match installed with
        | Some c => setConsumer (Some c)
        | None => ret tt
        end ;;
        let! lx := get in
        match type tok, consumer lx with
        | TypeNone, _ => ret tt
        | _, Some _ => ret tt
        | _, None => newToken (token tok)
        end
      else dispatch rules matches match_
  end.

(* __finalizeMatch up to the loop over [remain], which it returns *)
Definition finalize_dispatch `{Regex.HostRegex} `{LexerClass}
    : L (list (ascii * Position)) :=
  let! lx := get in
  let matches : gset nat := list_to_set (map snd (matches lx)) in
  match currentMatch lx with
  | [] => raise IndexError
  | _ :: _ =>
      let match_ := map fst (take (maxPos lx) (currentMatch lx)) in
      let remain := drop (maxPos lx) (currentMatch lx) in
      restartLexer false ;;
      dispatch _allTokens matches match_ ;;
      ret remain
  end.

(* __finalizeMatch, given the feed it calls for the characters that remain *)
Definition __finalizeMatch `{Regex.HostRegex} `{LexerClass}
    (feed : Input → option Position → L unit) : L unit :=
  let! remain := finalize_dispatch in
  for_each remain (λ '(char, p), feed (Char char) (Some p)).

Definition is_newline (char : Input) : bool :=
  match char with
  | Char c => Ascii.eqb c Regex.newline
  | EOF => false
  end.

(* the first statement of feed *)
Definition advance (char : Input) : L unit :=
  if is_newline char then advanceLine 1 else advanceColumn 1.

(* feed after its first statement; [finalize] is __finalizeMatch *)
Definition feed_after_advance `{Regex.HostRegex} `{LexerClass}
    (finalize : L unit) (char : Input) (charPos : option Position) : L unit :=
  let! lx := get in
  match consumer lx with
  | Some c =>
      let '(tok, c) := consumer_feed c char in
      setConsumer (Some c) ;;
      match tok with
      | Some (ty, v) =>
          setConsumer None ;;
          match ty with
          | TypeNone => ret tt
          | _ => newToken (MkToken ty v)
          end
      | None => ret tt
      end
  | None =>
      let! continue :=
        (λ lx,
           match (match char with
                  | EOF => feed_eof
                  | Char c => feed_char c charPos
                  end) lx with
           | (lx1, Raise (LexerError c col row)) =>
               (restartLexer true ;; raise (LexerError c col row)) lx1
           | r => r
           end) in
      if continue : bool then
        finalize ;;
        match char with
        | EOF => restartLexer true ;; newToken EOFToken
        | Char _ => ret tt
        end
      else ret tt
  end.

(* __finalizeMatch with the feed it calls; [fuel] bounds the depth of
   the calls of feed from __finalizeMatch *)
Fixpoint finalizeMatch `{Regex.HostRegex} `{LexerClass} (fuel : nat) : L unit :=
  match fuel with
  | 0 => out_of_fuel
  | S fuel =>
      __finalizeMatch
        (λ char charPos,
           advance char ;;
           feed_after_advance (finalizeMatch fuel) char charPos)
  end.

(* ProgressiveLexer.feed *)
Definition feed `{Regex.HostRegex} `{LexerClass} (fuel : nat)
    (char : Input) (charPos : option Position) : L unit :=
  advance char ;;
  feed_after_advance (finalizeMatch fuel) char charPos.

(* ProgressiveLexer.parse *)
Definition parse `{Regex.HostRegex} `{LexerClass} (fuel : nat) (string : list ascii)
    : L unit :=
  for_each string (λ char, feed fuel (Char char) None) ;;
  feed fuel EOF None.

End Lexer.

(** * grammar.py *)

Module Grammar.

(* what the FIRST table holds: the name of a terminal or of a
   nonterminal, and the singletons EOF and Epsilon *)
Inductive Symbol : Type :=
| Name (name : string)
| EOF
| Epsilon.

#[global] Instance Symbol_eq_dec : EqDecision Symbol.
Proof. solve_decision. Defined.

#[global] Instance Symbol_countable : Countable Symbol :=
  inj_countable'
    (λ s, match s with
          | Name n => inl n
          | EOF => inr true
          | Epsilon => inr false
          end)
    (λ x, match x with
          | inl n => Name n
          | inr true => EOF
          | inr false => Epsilon
          end)
    (λ s, match s with Name _ | EOF | Epsilon => eq_refl end).

(* Production: its name and right side; equality is on this pair *)
Record Production : Type := mkProduction {
  name : string;
  right : list Symbol
}.

#[global] Instance Production_eq_dec : EqDecision Production.
Proof. solve_decision. Defined.

(* a grammar class: productions() and tokenTypes() *)
Record Grammar : Type := mkGrammar {
  productions : list Production;
  tokenTypes : gset string
}.

Definition is_token (G : Grammar) (symbol : Symbol) : bool :=
  match symbol with
  | Name n => bool_decide (n ∈ tokenTypes G)
  | _ => false
  end.

Definition nonterminals (G : Grammar) : gset Symbol :=
  foldl (λ (result : gset Symbol) prod,
           foldl (λ (result : gset Symbol) symbol,
                    if is_token G symbol then result else result ∪ {[symbol]})
                 (result ∪ {[Name (name prod)]}) (right prod))
        ∅ (productions G).

Definition FirstTable : Type := gmap Symbol (gset Symbol).

(* allFirsts.get(symbol, set()) *)
Definition get_first (allFirsts : FirstTable) (symbol : Symbol) : gset Symbol :=
  default ∅ (allFirsts !! symbol).

(* allFirsts.setdefault(nonterminal, set()).update(first) *)
Definition update_first (allFirsts : FirstTable) (nonterminal : Symbol)
    (first : gset Symbol) : FirstTable :=
  <[nonterminal := get_first allFirsts nonterminal ∪ first]> allFirsts.

(* the loop over prod.right with its else clause *)
Fixpoint first_of_right (right : list Symbol) (nonterminal : Symbol)
    (allFirsts : FirstTable) : FirstTable :=
  match right with
  | [] => update_first allFirsts nonterminal {[Epsilon]}
  | symbol :: right =>
      let first := get_first allFirsts symbol in
      let allFirsts := update_first allFirsts nonterminal first in
      if bool_decide (Epsilon ∈ first)
      then first_of_right right nonterminal allFirsts
      else allFirsts
  end.

Definition first_of_production (nonterminal : Symbol) (allFirsts : FirstTable)
    (prod : Production) : FirstTable :=
  if bool_decide (Name (name prod) = nonterminal) then
    match right prod with
    | _ :: _ => first_of_right (right prod) nonterminal allFirsts
    | [] => update_first allFirsts nonterminal {[Epsilon]}
    end
  else allFirsts.

(* one run of the body of the while loop of prepare, after the copy *)
Definition first_pass (G : Grammar) (allFirsts : FirstTable) : FirstTable :=
  foldl (λ allFirsts nonterminal,
           foldl (first_of_production nonterminal) allFirsts (productions G))
        allFirsts (elements (nonterminals G)).

Fixpoint first_loop (fuel : nat) (G : Grammar) (allFirsts : FirstTable)
    : Res FirstTable :=
  match fuel with
  | 0 => OutOfFuel
  | S fuel =>
      let prev := allFirsts in
      let allFirsts := first_pass G allFirsts in
      if bool_decide (prev = allFirsts) then Ok allFirsts
      else first_loop fuel G allFirsts
  end.

Definition initial_firsts (G : Grammar) : FirstTable :=
  set_to_map (λ symbol : Symbol, (symbol, {[symbol]}))
             (set_map Name (tokenTypes G) ∪ {[EOF]} : gset Symbol).

(* every run of the loop but the last adds a symbol to the set of a
   nonterminal, out of the token types, EOF and Epsilon *)
Definition first_fuel (G : Grammar) : nat :=
  S (size (nonterminals G) * (size (tokenTypes G) + 2)).

(* the duplicate check of prepare *)
Fixpoint check_duplicates (prods : list Production) (seen : list Production)
    : Res unit :=
  match prods with
  | [] => Ok tt
  | prod :: prods =>
      if bool_decide (prod ∈ seen) then Raise GrammarError
      else check_duplicates prods (prod :: seen)
  end.

(* Grammar.prepare, for what it leaves in __allFirsts__ *)
Definition prepare (G : Grammar) : Res FirstTable :=
  match check_duplicates (productions G) [] with
  | Ok _ => first_loop (first_fuel G) G (initial_firsts G)
  | Raise e => Raise e
  | OutOfFuel => OutOfFuel
  end.

(* Grammar.first, on the table prepare left *)
Fixpoint first (allFirsts : FirstTable) (symbols : list Symbol)
    : Res (gset Symbol) :=
  match symbols with
  | [] => Ok {[Epsilon]}
  | symbol :: symbols =>
      match allFirsts !! symbol with
      | None => Raise KeyError
      | Some rfirst =>
          if bool_decide (Epsilon ∈ rfirst) then
            match first allFirsts symbols with
            | Ok rest => Ok (rfirst ∖ {[Epsilon]} ∪ rest)
            | r => r
            end
          else Ok (rfirst ∖ {[Epsilon]})
      end
  end.

End Grammar.

(** * grammar.py: the Production objects, precedences and prepare *)

Module GrammarClass.

(* the exceptions of this part of grammar.py: GrammarParseError, which
   is a GrammarError, and the exceptions met so far *)
Inductive error : Type :=
| GrammarParseError
| Builtin (e : exn).

Inductive Outcome (A : Type) : Type :=
| Returns (a : A)
| Raises (e : error).
Arguments Returns {A} a.
Arguments Raises {A} e.

(* A Production object: name, right and the private attributes
   __priority and __ids. The dict __ids is kept as its items in
   insertion order. *)
Record Production : Type := mkProduction {
  name : string;
  right : list string;
  priority : option string;
  ids : list (nat * string)              (* position => id *)
}.

(* Production(name, callback, priority) *)
Definition Production__init__ (name : string) (priority : option string)
    : Production :=
  mkProduction name [] priority [].

(* d[key] = value on the items of a dict: the value of an existing key
   is replaced where it is, a new key is added at the end *)
Fixpoint dict_set {V} (d : list (nat * V)) (key : nat) (value : V)
    : list (nat * V) :=
  match d with
  | [] => [(key, value)]
  | (k, v) :: d => if k =? key then (k, value) :: d else (k, v) :: dict_set d key value
  end.

(* Production.addSymbol *)
Definition addSymbol (self : Production) (identifier : string)
    (name_ : option string) : Outcome Production :=
  match name_ with
  | Some n =>
      if bool_decide (n ∈ map snd (ids self)) then Raises GrammarParseError
      else
        Returns (mkProduction (name self) (right self ++ [identifier]) (priority self)
                   (dict_set (ids self) (length (right self)) n))
  | None =>
      Returns (mkProduction (name self) (right self ++ [identifier]) (priority self)
                 (ids self))
  end.

(* dict(items): a later item of a key replaces the value of an earlier one *)
Definition dict_of {V} (items : list (string * V)) : gmap string V :=
  foldl (λ (d : gmap string V) (item : string * V), <[item.1 := item.2]> d) ∅ items.

(* the keyword arguments that Production.apply builds for the callback,
   [(name, args[index]) for index, name in self.__ids.items()] *)
Fixpoint apply_items {V} (items : list (nat * string)) (args : list V)
    : Outcome (list (string * V)) :=
  match items with
  | [] => Returns []
  | (index, n) :: items =>
      match args !! index with
      | None => Raises (Builtin IndexError)
      | Some arg =>
          match apply_items items args with
          | Returns rest => Returns ((n, arg) :: rest)
          | Raises e => Raises e
          end
      end
  end.

(* Production.apply, up to the call of the callback: the keyword
   arguments it is called with *)
Definition apply {V} (self : Production) (args : list V) : Outcome (gmap string V) :=
  match apply_items (ids self) args with
  | Returns items => Returns (dict_of items)
  | Raises e => Raises e
  end.

(* Production.rightmostTerminal; None when the loop ends without return *)
Definition rightmostTerminal (self : Production) (tokenTypes : gset string)
    : option string :=
  List.find (λ symbol, bool_decide (symbol ∈ tokenTypes)) (rev (right self)).

(* an item of Grammar.precedences(): (associativity, terminals) *)
Definition Precedence : Type := string * list string.

(* Grammar.terminalPrecedence, on the list precedences() returns *)
Fixpoint terminalPrecedence_from (index : nat) (precedences : list Precedence)
    (symbol : string) : option (string * nat) :=
  match precedences with
  | [] => None
  | (associativity, terminals) :: precedences =>
      if bool_decide (symbol ∈ terminals) then Some (associativity, index)
      else terminalPrecedence_from (S index) precedences symbol
  end.

Definition terminalPrecedence (precedences : list Precedence) (symbol : string)
    : option (string * nat) :=
  terminalPrecedence_from 0 precedences symbol.

(* Production.precedence *)
Definition precedence (self : Production) (tokenTypes : gset string)
    (precedences : list Precedence) : option (string * nat) :=
  match priority self with
  | Some p => terminalPrecedence precedences p
  | None =>
      match rightmostTerminal self tokenTypes with
      | Some symbol => terminalPrecedence precedences symbol
      | None => None
      end
  end.

(* A grammar class, for prepare: its productions (name and right
   side), its token types and the attribute startSymbol. *)
Record Class_ : Type := mkClass {
  grammar : Grammar.Grammar;
  startSymbol : option string
}.

(* Grammar._defaultStartSymbol *)
Definition _defaultStartSymbol (G : Grammar.Grammar) : Res string :=
  match Grammar.productions G with
  | [] => Raise IndexError
  | prod :: _ => Ok (Grammar.name prod)
  end.

(* Grammar.prepare: the start symbol, the duplicate check and the
   FIRST table, then the log of the productions, whose width is the
   max() of the lengths of the names. It leaves startSymbol and
   __allFirsts__. *)
Definition prepare (cls : Class_) : Res (string * Grammar.FirstTable) :=
  let G := grammar cls in
  match (match startSymbol cls with
         | None => _defaultStartSymbol G
         | Some s => Ok s
         end) with
  | Ok start =>
      match Grammar.prepare G with
      | Ok allFirsts =>
          match Grammar.productions G with
          | [] => Raise ValueError
          | _ :: _ => Ok (start, allFirsts)
          end
      | Raise e => Raise e
      | OutOfFuel => OutOfFuel
      end
  | Raise e => Raise e
  | OutOfFuel => OutOfFuel
  end.

End GrammarClass.

(** * lexer.py: ReLexer *)

Module ReLexer.
Import Lexer.

(* The re module of the host, as ReLexer uses it: for the pattern
   '^' + rx compiled by __init__, what search(text) gives: None, or
   the text matched, group(0). *)
Class HostSearch : Type := {
  re_search : list ascii → list ascii → option (list ascii)
}.

(* an item of __regexes with the value it matched *)
Definition Match : Type := list ascii * nat * option string.

(* The loop of parse over self.__regexes, which __init__ builds from
   _allTokens()[1] in order; [match_] and [matchlen] are the variables
   of the same names. *)
Fixpoint best_match `{HostSearch} (regexes : list Rule) (text : list ascii)
    (match_ : option Match) (matchlen : nat) : option Match * nat :=
  match regexes with
  | [] => (match_, matchlen)
  | (rx, callback, defaultType) :: regexes =>
      match re_search rx text with
      | Some value =>
          if matchlen <? length value then
            best_match regexes text (Some (value, callback, defaultType)) (length value)
          else best_match regexes text match_ matchlen
      | None => best_match regexes text match_ matchlen
      end
  end.

(* how the body of the loop of parse ends: at the next position, or
   with LexerError(string[pos:pos+10], column, line) *)
Inductive Step : Type :=
| Next (pos : nat)
| Error (text : list ascii) (colno lineno : nat).

(* The body of the loop of parse, for char = string[pos]. The object
   of the lexer is the record of the lexer objects, of which a ReLexer
   has the attributes of LexerBase; the others stay as they are. *)
Definition parse_step `{HostSearch} `{LexerClass} (string : list ascii) (pos : nat)
    (char : ascii) : L Step :=
  (if Ascii.eqb char Regex.newline then advanceLine 1 else advanceColumn 1) ;;
  let! lx := get in
  match consumer lx with
  | None =>
      if ignore char then ret (Next (pos + 1))
      else
        match best_match _allTokens (drop pos string) None 0 with
        | (Some (value, callback, defaultType), matchlen) =>
            let tok := mkMutableToken (type_of_default defaultType) value in
            modify (λ lx, with_called (called lx ++ [(callback, tok)]) lx) ;;
            let '(tok, installed) := call callback tok in
            match installed with
            | Some c => setConsumer (Some c)
            | None => ret tt
            end ;;
            let pos := pos + matchlen in
            let! lx := get in
            match type tok, consumer lx with
            | TypeNone, _ => ret tt
            | _, Some _ => ret tt
            | _, None => newToken (token tok)
            end ;;
            ret (Next pos)
        | (None, _) =>
            let! p := position in
            ret (Error (take 10 (drop pos string)) p.1 p.2)
        end
  | Some c =>
      let '(tok, c) := consumer_feed c (Char char) in
      setConsumer (Some c) ;;
      match tok with
      | Some (ty, v) =>
          setConsumer None ;;
          match ty with
          | TypeNone => ret tt
          | _ => newToken (MkToken ty v)
          end
      | None => ret tt
      end ;;
      ret (Next (pos + 1))
  end.

(* ReLexer(): LexerBase.__init__ calls restartLexer, which for a
   ReLexer is that of LexerBase *)
Definition ReLexer__new : ProgressiveLexer :=
  (LexerBase_restartLexer true
     (mkProgressiveLexer Regex.empty_heap (0, 1) None [] [] [] 0 0 [] [])).1.

(* how parse ends *)
Inductive Outcome : Type :=
| Returns
| Raises_LexerError (text : list ascii) (colno lineno : nat)
| NoFuel.

(* the loop of parse; [fuel] bounds the number of its runs *)
Fixpoint parse_loop `{HostSearch} `{LexerClass} (fuel : nat) (string : list ascii)
    (pos : nat) (lx : ProgressiveLexer) : ProgressiveLexer * Outcome :=
  match fuel with
  | 0 => (lx, NoFuel)
  | S fuel =>
      match string !! pos with
      | None => (lx, Returns)
      | Some char =>
          match parse_step string pos char lx with
          | (lx, Ok (Next pos)) => parse_loop fuel string pos lx
          | (lx, Ok (Error text colno lineno)) => (lx, Raises_LexerError text colno lineno)
          | (lx, _) => (lx, NoFuel)            (* the body ends in no other way *)
          end
      end
  end.

(* ReLexer.parse *)
Definition parse `{HostSearch} `{LexerClass} (string : list ascii)
    (lx : ProgressiveLexer) : ProgressiveLexer * Outcome :=
  match parse_loop (S (length string)) string 0 lx with
  | (lx, Returns) => ((newToken EOFToken lx).1, Returns)
  | r => r
  end.

End ReLexer.

(** * Notions used to state the properties *)

Import Regex.

(** ** The specification of the simulation *)

(* The ε-closure of a set S0 of states: the states reachable from a
   state of S0 by zero or more ε-transitions of T. *)
Inductive eps_reach (T : list Transition) (S0 : State → Prop) : State → Prop :=
| eps_reach_base x : S0 x → eps_reach T S0 x
| eps_reach_step s e :
    eps_reach T S0 s → (s, None, e) ∈ T → eps_reach T S0 e.

(* The states reachable from a state of S0 by one transition of T whose
   class contains ch. *)
Definition move `{HostRegex} (T : list Transition) (S0 : gset State)
    (ch : ascii) (x : State) : Prop :=
  ∃ s klass, (s, Some klass, x) ∈ T ∧ s ∈ S0 ∧ contains klass ch = true.

(* the object [self] with its current set replaced *)
Definition with_current (o : RegularExpression) (c : gset State)
    : RegularExpression :=
  mkRegularExpression (_transitions o) (_startState o) (_finalState o)
                      (Some c) (_startStates o).

(* the heap with the object at [self] replaced *)
Definition store (h : Heap) (self : Ref) (o : RegularExpression) : Heap :=
  mkHeap (next_id h) (lists h) (<[self := o]> (objects h)).

(* the ends of the ε-transitions of T that leave [state] *)
Definition eps_targets (T : list Transition) (state : State) : gset State :=
  list_to_set
    (map (λ t : Transition, t.2)
         (filter (λ t : Transition, t.1.1 = state ∧ t.1.2 = None) T)).

(* the ends of the ε-transitions of T that leave a state of the list *)
Definition eps_succ (T : list Transition) (states : list State) : gset State :=
  ⋃ (map (eps_targets T) states).

(* the ends of all the transitions of T *)
Definition all_ends (T : list Transition) : gset State :=
  list_to_set (map (λ t : Transition, t.2) T).

(* The current set after the characters of [s] were fed one by one to an
   expression with transitions T and current set [cur], as feed
   computes it; None when a feed raises DeadState. *)
Fixpoint run_from `{HostRegex} (T : list Transition) (cur : gset State)
    (s : list ascii) : option (gset State) :=
  match s with
  | [] => Some cur
  | ch :: s =>
      match closure_of T (Some cur) ch with
      | Ok X =>
          match epsilonClose_of T X with
          | Some C => if bool_decide (C = ∅) then None else run_from T C s
          | None => None
          end
      | _ => None
      end
  end.

(* what match returns for an expression with transitions T *)
Definition accepts `{HostRegex} (T : list Transition) (startState finalState : State)
    (s : list ascii) : bool :=
  match epsilonClose_of T {[startState]} with
  | Some C0 =>
      match run_from T C0 s with
      | Some C => bool_decide (finalState ∈ C)
      | None => false
      end
  | None => false
  end.

(** ** The specification of the exponents *)

(* int() of the text of a number *)
Definition int_of (text : list ascii) : nat :=
  foldl (λ acc d, acc * 10 + int d) 0 text.

(* the digits of [text] read after the value [v] *)
Definition accumulate (v : nat) (text : list ascii) : nat :=
  foldl (λ acc d, acc * 10 + int d) v text.

(* a number: a string of digits that is not empty *)
Definition is_number (text : list ascii) : Prop :=
  text ≠ [] ∧ Forall (λ c, isdigit c = true) text.

(* The text between the braces asks for the exponent (n, m): it is a
   number n, with m = n, or two numbers n and m with n ≤ m and the
   separator between them. *)
Definition exponent_text (sep : ascii) (body : list ascii) (n m : nat) : Prop :=
  (is_number body ∧ n = int_of body ∧ m = n) ∨
  (∃ tn tm, is_number tn ∧ is_number tm ∧ body = tn ++ sep :: tm ∧
            n = int_of tn ∧ m = int_of tm ∧ n ≤ m).

(* the same, as a function: the text is cut at the first separator *)
Fixpoint split_at (sep : ascii) (body : list ascii)
    : list ascii * option (list ascii) :=
  match body with
  | [] => ([], None)
  | c :: body =>
      if Ascii.eqb c sep then ([], Some body)
      else let '(tn, tm) := split_at sep body in (c :: tn, tm)
  end.

Definition number_of (text : list ascii) : option nat :=
  match text with
  | [] => None
  | _ :: _ => if forallb isdigit text then Some (int_of text) else None
  end.

Definition exponent_of (sep : ascii) (body : list ascii) : option (nat * nat) :=
  match split_at sep body with
  | (tn, None) =>
      match number_of tn with
      | Some n => Some (n, n)
      | None => None
      end
  | (tn, Some tm) =>
      match number_of tn, number_of tm with
      | Some n, Some m => if n <=? m then Some (n, m) else None
      | _, _ => None
      end
  end.

(* the transitions of the expression built from a{2-3} in the empty heap *)
Definition a23_transitions : list Transition :=
  [(41, Some (LitteralCharacterClass "a"), 8);
   (8, Some (LitteralCharacterClass "a"), 42); (37, None, 41); (42, None, 38);
   (45, Some (LitteralCharacterClass "a"), 21);
   (21, Some (LitteralCharacterClass "a"), 25);
   (25, Some (LitteralCharacterClass "a"), 46); (37, None, 45); (46, None, 38)].

(** ** Examples *)

(* a host for the examples: every pattern compiles, and only the
   pattern of a digit matches a character *)
Definition example_host : HostRegex :=
  {| re_compile := λ _, true;
     re_match := λ pattern char,
       match pattern with
       | ["\"; "d"]%char => isdigit char
       | _ => false
       end |}.

(* the expression of ab, as the parser builds it *)
Definition ab : M Ref :=
  let! a := fromClass (LitteralCharacterClass "a") in
  let! b := fromClass (LitteralCharacterClass "b") in
  concat [a; b].

(* the states of the expression at [r]: its start and final states and
   the ends of its transitions *)
Definition states_of (h : Heap) (r : Ref) : gset State :=
  match objects h !! r with
  | Some o =>
      {[_startState o; _finalState o]} ∪
      list_to_set
        (flat_map (λ t : Transition, [t.1.1; t.2])
                  (default [] (lists h !! _transitions o)))
  | None => ∅
  end.

(* a heap with one started expression, that of the class of a *)
Definition example_heap : Heap :=
  mkHeap 4
    {[1 := [(2, Some (LitteralCharacterClass "a"), 3)]]}
    {[0 := mkRegularExpression 1 2 3 (Some {[2]}) {[2]}]}.

(** ** Well-formed heaps and what a call leaves unchanged *)

(* the states of a transition are objects that exist: their identities
   are below N *)
Definition bounded (N : nat) (t : Transition) : Prop := t.1.1 < N ∧ t.2 < N.

(* The heap holds what was created so far: an expression, its list of
   transitions and its states have identities below next_id. *)
Definition heap_ok (h : Heap) : Prop :=
  (∀ r o, objects h !! r = Some o →
     r < next_id h ∧ _transitions o < next_id h ∧
     is_Some (lists h !! _transitions o) ∧
     _startState o < next_id h ∧ _finalState o < next_id h) ∧
  (∀ r l, lists h !! r = Some l → Forall (bounded (next_id h)) l).

(* every object of h, list or expression, is in h' as it was in h *)
Definition unchanged (h h' : Heap) : Prop :=
  next_id h ≤ next_id h' ∧
  ∀ r, r < next_id h →
    lists h' !! r = lists h !! r ∧ objects h' !! r = objects h !! r.

(* [res] is an expression of h' created after h, and so are its list of
   transitions and its start and final states *)
Definition fresh_expression (h h' : Heap) (res : Ref) : Prop :=
  next_id h ≤ res ∧
  ∃ o, objects h' !! res = Some o ∧
       next_id h ≤ _startState o ∧ next_id h ≤ _finalState o ∧
       next_id h ≤ _transitions o.

(* from h to h', the list at l was appended transitions with states
   below N, and nothing else changed *)
Definition appended (l : Ref) (N : nat) (h h' : Heap) : Prop :=
  next_id h' = next_id h ∧ objects h' = objects h ∧
  (∀ r, r ≠ l → lists h' !! r = lists h !! r) ∧
  ∃ l0 l1, lists h !! l = Some l0 ∧ lists h' !! l = Some (l0 ++ l1) ∧
           Forall (bounded N) l1.

(* the expressions of [cs] are in h1, they and their states created after h *)
Definition created (h h1 : Heap) (cs : list Ref) : Prop :=
  ∀ c, c ∈ cs → ∃ o, objects h1 !! c = Some o ∧
                     next_id h ≤ _startState o ∧ next_id h ≤ _finalState o.

(* the renaming of clone: the start and final states of [me] become
   those of [res] *)
Definition clone_rename (me res : RegularExpression) (t : Transition) : Transition :=
  let '(startState, trans, endState) := t in
  let startState :=
    if startState =? _startState me then _startState res else startState in
  let startState :=
    if startState =? _finalState me then _finalState res else startState in
  let endState :=
    if endState =? _startState me then _startState res else endState in
  let endState :=
    if endState =? _finalState me then _finalState res else endState in
  (startState, trans, endState).

(* the renaming of concat: the start state of [o2] becomes the final
   state of [o1] *)
Definition concat_rename (o1 o2 : RegularExpression) (t : Transition) : Transition :=
  let '(startState, trans, endState) := t in
  let startState :=
    if startState =? _startState o2 then _finalState o1 else startState in
  let endState :=
    if endState =? _startState o2 then _finalState o1 else endState in
  (startState, trans, endState).

(* From the heap h, the call m returns a new expression: the objects of
   h are left as they were, and the expression returned, its list of
   transitions and its start and final states are objects created by
   the call: the list is the list of no expression of h, and the two
   states are states of no expression of h. *)
Definition builds_new_expression (h : Heap) (m : M Ref) : Prop :=
  ∃ h1 c o,
    m h = (h1, Ok c) ∧ heap_ok h1 ∧ unchanged h h1 ∧
    objects h !! c = None ∧ objects h1 !! c = Some o ∧
    (∀ r o1, objects h !! r = Some o1 → _transitions o1 ≠ _transitions o) ∧
    (∀ r, (_startState o ∉ states_of h r) ∧ (_finalState o ∉ states_of h r)).

(** ** Computations that do not raise LexerError *)

Definition not_LexerError (e : exn) : Prop :=
  match e with
  | LexerError _ _ _ => False
  | _ => True
  end.

Definition quiet_res {A} (r : Res A) : Prop :=
  ∀ e, r = Raise e → not_LexerError e.

Definition quiet {S A} (m : ST S A) : Prop :=
  ∀ s s1 e, m s = (s1, Raise e) → not_LexerError e.

(** ** The lexer *)

(* the state that a call of restartLexer() leaves *)
Definition restarted `{HostRegex} `{Lexer.LexerClass}
    (lx : Lexer.ProgressiveLexer) : Prop :=
  ∃ lx0, Lexer.restartLexer true lx0 = (lx, Ok tt).

(* what an entry of __currentState and a rule say of the callback, of
   the default type and of the position *)
Definition entry_summary (e : Lexer.Entry) : nat * option string * nat :=
  (e.1.1.2, e.1.2, e.2).
Definition rule_summary (r : Lexer.Rule) : nat * option string * nat :=
  (r.1.2, r.2, 0).

(* a lexer with one rule, A = a; its callback leaves the token as it is *)
Definition one_rule_lexer : Lexer.LexerClass :=
  {| Lexer.mro_tokens := [[(chars "a", 0, Some "A"%string)]];
     Lexer.call := λ _ tok, (tok, None) |}.

(* a lexer with three rules, A = a, B = b and C = b, where the rules A
   and B were given the same callback *)
Definition shared_callback_lexer : Lexer.LexerClass :=
  {| Lexer.mro_tokens :=
       [[(chars "a", 0, Some "A"%string);
         (chars "b", 0, Some "B"%string);
         (chars "b", 1, Some "C"%string)]];
     Lexer.call := λ _ tok, (tok, None) |}.

(* a lexer state at the time of __finalizeMatch: the characters i and f
   were read, and the callbacks 0 and 1 are recorded at length 2 *)
Definition finalize_example : Lexer.ProgressiveLexer :=
  Lexer.mkProgressiveLexer empty_heap (2, 1) None []
    [("i"%char, (1, 1)); ("f"%char, (2, 1))] [(2, 0); (2, 1)] 2 1 [] [].

Definition two_rule_lexer : Lexer.LexerClass :=
  {| Lexer.mro_tokens :=
       [[(chars "if", 0, Some "IF"%string);
         (chars "(i|f)+", 1, Some "ID"%string)]];
     Lexer.call := λ _ tok, (tok, None) |}.

(** ** FIRST sets *)

(* The standard recurrence of the FIRST sets, as the least relation
   closed under it: [first_of G X a] when a is in FIRST(X).
   - FIRST(t) = {t} for a terminal t, the end of input included;
   - for a production X -> X1 ... Xn, the members of FIRST(Xi) other
     than Epsilon are in FIRST(X) when X1 ... Xi-1 are nullable;
   - Epsilon is in FIRST(X) when X1 ... Xn are all nullable, and when
     the right side is empty. *)
#[warnings="-register-all"]
Inductive first_of (G : Grammar.Grammar)
    : Grammar.Symbol → Grammar.Symbol → Prop :=
| first_terminal t :
    Grammar.is_token G t = true ∨ t = Grammar.EOF →
    first_of G t t
| first_symbol prod pre X post a :
    prod ∈ Grammar.productions G →
    Grammar.right prod = pre ++ X :: post →
    Forall (λ Y, first_of G Y Grammar.Epsilon) pre →
    first_of G X a →
    a ≠ Grammar.Epsilon →
    first_of G (Grammar.Name (Grammar.name prod)) a
| first_epsilon prod :
    prod ∈ Grammar.productions G →
    Forall (λ Y, first_of G Y Grammar.Epsilon) (Grammar.right prod) →
    first_of G (Grammar.Name (Grammar.name prod)) Grammar.Epsilon.

(* the grammar A -> B c, B -> (nothing), with the token type c *)
Definition nullable_prefix_grammar : Grammar.Grammar :=
  Grammar.mkGrammar
    [Grammar.mkProduction "A" [Grammar.Name "B"; Grammar.Name "c"];
     Grammar.mkProduction "B" []]
    {["c"%string]}.

(** * Further notions *)

(** ** The language of an expression *)

(* A path of T from the state s to the state f that spells w: each
   step is an ε-transition, or a transition whose class contains the
   next character of w. *)
Inductive path `{HostRegex} (T : list Transition)
    : State → list ascii → State → Prop :=
| path_nil s : path T s [] s
| path_eps s e w f :
    (s, None, e) ∈ T → path T e w f → path T s w f
| path_char s klass e c w f :
    (s, Some klass, e) ∈ T → contains klass c = true → path T e w f →
    path T s (c :: w) f.

(* the source states of the transitions of T: what _startStates holds
   when it is up to date *)
Definition sources (T : list Transition) : gset State :=
  list_to_set (map (λ t : Transition, t.1.1) T).

(* a set of states that holds the ends of its ε-transitions *)
Definition eps_closed (T : list Transition) (cur : gset State) : Prop :=
  ∀ s e, s ∈ cur → (s, None, e) ∈ T → e ∈ cur.

(* the expression at r has its _startStates up to date *)
Definition startStates_ok (h : Heap) (r : Ref) : Prop :=
  ∃ o T, objects h !! r = Some o ∧ lists h !! _transitions o = Some T ∧
         _startStates o = sources T.

(* the heap of the example after its expression was fed a *)
Definition example_heap_fed : Heap :=
  mkHeap 4
    {[1 := [(2, Some (LitteralCharacterClass "a"), 3)]]}
    {[0 := mkRegularExpression 1 2 3 (Some {[3]}) {[2]}]}.

(** ** The tokenizer *)

(* What the rest of a tokenization depends on: the state, and the
   attributes the state methods read before they write them (the class
   text in the states 2 and 3, the value in 10 and 12, the start of
   the range in 11 and 12). *)
Definition view (self : RegexTokenizer)
    : nat * option (list ascii) * nat * option nat :=
  match _state self with
  | 2 | 3 => (_state self, _currentClass self, 0, None)
  | 10 => (10, None, _exponentValue self, None)
  | 11 => (11, None, 0, _startExponent self)
  | 12 => (12, None, _exponentValue self, _startExponent self)
  | st => (st, None, 0, None)
  end.

(* the characters with a meaning of their own in the normal state *)
Definition special : list ascii :=
  ["*"; "+"; "."; "("; ")"; "|"; "["; "{"; "]"; "}"; "\"]%char.

(* the class of the character c after a backslash, c not a letter of
   a host class *)
Definition escaped (c : ascii) : CharacterClass :=
  if Ascii.eqb c "n" then LitteralCharacterClass newline
  else if Ascii.eqb c "t" then LitteralCharacterClass tab
  else LitteralCharacterClass c.

(* two results of the loop of tokens() that agree: the same exception,
   or the same tokens added and the same view left *)
Definition same_run (toks toks' : list Token)
    (r r' : Res (RegexTokenizer * list Token)) : Prop :=
  match r, r' with
  | Ok (s1, t1), Ok (s1', t1') =>
      view s1 = view s1' ∧ ∃ d, t1 = toks ++ d ∧ t1' = toks' ++ d
  | Raise e, Raise e' => e = e'
  | OutOfFuel, OutOfFuel => True
  | _, _ => False
  end.

(* the text between the brackets of a character class: characters
   other than the closing bracket and the backslash, and pairs of a
   backslash and a character *)
Inductive class_text : list ascii → Prop :=
| class_text_nil : class_text []
| class_text_char c body :
    c ≠ "]"%char → c ≠ "\"%char → class_text body → class_text (c :: body)
| class_text_escape c body :
    class_text body → class_text ("\"%char :: c :: body).

(* the tokens of a text when each of its characters stands for itself *)
Definition litteral_tokens (r : list ascii) : list Token :=
  map (λ c, TOK_CLASS (LitteralCharacterClass c)) r.

(** ** The parser *)

(* What a method of the parser leaves when called at [pos] on the heap
   h: a well-formed heap in which the objects of h are as they were,
   and either RegexParseError, or an expression with identity at least
   [lo] and a position between [pos] and the number [len] of tokens
   (after [pos] when [strict]). *)
Definition parsed (h : Heap) (len pos lo : nat) (strict : bool)
    (res : Heap * Res (Ref * nat)) : Prop :=
  heap_ok res.1 ∧ unchanged h res.1 ∧
  match res.2 with
  | Ok (e, pos') =>
      startStates_ok res.1 e ∧ lo ≤ e ∧
      (if strict then pos < pos' else pos ≤ pos') ∧ pos' ≤ len
  | Raise e => e = RegexParseError
  | OutOfFuel => False
  end.

(* the exceptions of the tokenizer *)
Definition tokenize_error (e : exn) : Prop :=
  e = TokenizeError ∨ e = BackslashAtEndOfInputError ∨
  e = UnterminatedClassError ∨ e = InvalidClassError ∨
  e = InvalidExponentError.

(* the attributes a state of the tokenizer relies on *)
Definition tokenizer_ok (self : RegexTokenizer) : Prop :=
  _state self ∈ [0; 1; 2; 3; 9; 10; 11; 12] ∧
  (_state self = 2 ∨ _state self = 3 → is_Some (_currentClass self)) ∧
  (_state self = 11 ∨ _state self = 12 → is_Some (_startExponent self)).

(** ** The FIRST table *)

(* every set of the table t is a key of t' with a set that includes it *)
Definition table_le (t t' : gmap Grammar.Symbol (gset Grammar.Symbol)) : Prop :=
  ∀ k S, t !! k = Some S → ∃ S', t' !! k = Some S' ∧ S ⊆ S'.

(* the symbol is nullable for the table *)
Definition nullable (t : Grammar.FirstTable) (symbol : Grammar.Symbol) : Prop :=
  Grammar.Epsilon ∈ Grammar.get_first t symbol.

(* the symbol names a production of the grammar *)
Definition names_production (G : Grammar.Grammar) (symbol : Grammar.Symbol) : Prop :=
  ∃ prod, prod ∈ Grammar.productions G ∧ symbol = Grammar.Name (Grammar.name prod).

(* what the set of a symbol other than the end of input can hold: the
   token types and Epsilon *)
Definition first_universe (G : Grammar.Grammar) : gset Grammar.Symbol :=
  set_map Grammar.Name (Grammar.tokenTypes G) ∪ {[Grammar.Epsilon]}.

(* the size of the entry of a key: 0 when the key is missing *)
Definition entry_size (t : gmap Grammar.Symbol (gset Grammar.Symbol))
    (k : Grammar.Symbol) : nat :=
  match t !! k with
  | Some first => 1 + size first
  | None => 0
  end.

(* the size of the entries of the keys of a list *)
Definition entries_size (t : gmap Grammar.Symbol (gset Grammar.Symbol))
    (keys : list Grammar.Symbol) : nat :=
  foldr (λ k n, entry_size t k + n) 0 keys.

(* the sets of the table, but for that of the end of input, are in the
   universe *)
Definition table_bounded (G : Grammar.Grammar)
    (t : gmap Grammar.Symbol (gset Grammar.Symbol)) : Prop :=
  ∀ k S, t !! k = Some S → k ≠ Grammar.EOF → S ⊆ first_universe G.

(* the Production objects that the code can hold: a new one, then the
   calls of addSymbol that returned *)
Inductive built : GrammarClass.Production → Prop :=
| built_init name priority :
    built (GrammarClass.Production__init__ name priority)
| built_add self identifier name_ p :
    built self →
    GrammarClass.addSymbol self identifier name_ = GrammarClass.Returns p →
    built p.

(* the keys of __ids are positions of right, and no position and no
   name comes twice *)
Definition ids_ok (p : GrammarClass.Production) : Prop :=
  Forall (λ item, item.1 < length (GrammarClass.right p)) (GrammarClass.ids p) ∧
  NoDup (map fst (GrammarClass.ids p)) ∧
  NoDup (map snd (GrammarClass.ids p)).

(* an example: the production of "E -> E<left> plus E<right>" *)
Definition example_production : GrammarClass.Production :=
  GrammarClass.mkProduction "E" ["E"; "plus"; "E"]%string None
    [(0, "left"); (2, "right")]%string.

(* a host whose patterns are plain texts: search gives the pattern
   when the text starts with it *)
Definition literal_search : ReLexer.HostSearch :=
  {| ReLexer.re_search := λ rx text,
       if bool_decide (take (length rx) text = rx) then Some rx else None |}.

(* the position after the first statement of the loop of ReLexer.parse *)
Definition advanced (char : ascii) (p : Position) : Position :=
  if Ascii.eqb char Regex.newline then (0, p.2 + 1) else (p.1 + 1, p.2).

(* what the loop over the rules leaves in match and matchlen *)
Definition best_of `{ReLexer.HostSearch} (regexes : list Lexer.Rule)
    (text : list ascii) (r : option ReLexer.Match * nat) : Prop :=
  match r with
  | (Some (value, callback, defaultType), matchlen) =>
      matchlen = length value ∧ 0 < matchlen ∧
      ∃ i rx,
        regexes !! i = Some (rx, callback, defaultType) ∧
        ReLexer.re_search rx text = Some value ∧
        ∀ j rule v,
          regexes !! j = Some rule → ReLexer.re_search rule.1.1 text = Some v →
          length v ≤ matchlen ∧ (j < i → length v < matchlen)
  | (None, matchlen) =>
      matchlen = 0 ∧
      ∀ rule v, rule ∈ regexes → ReLexer.re_search rule.1.1 text = Some v → v = []
  end.

(* a lexer with one rule, ABC = abc; its callback leaves the token as
   it is *)
Definition abc_lexer : Lexer.LexerClass :=
  {| Lexer.mro_tokens := [[(Regex.chars "abc", 0, Some "ABC"%string)]];
     Lexer.call := λ _ tok, (tok, None) |}.

(** * The ε-closure computed by _epsilonClose *)

Section EpsilonClose.

Implicit Types (T : list Transition) (ns : gset State).

Lemma elem_of_eps_targets T state x :
  x ∈ eps_targets T state ↔ (state, None, x) ∈ T.
Proof.
  unfold eps_targets. rewrite elem_of_list_to_set, list_elem_of_fmap. split.
  - intros ([[s tr] e] & -> & Hin). apply list_elem_of_filter in Hin as [[Hs Ht] Hin].
    simpl in *. by subst.
  - intros Hin. exists (state, None, x). split; [done|].
    apply list_elem_of_filter. by split.
Qed.

Lemma eps_targets_cons T s tr e state :
  eps_targets ((s, tr, e) :: T) state =
    if (s =? state) && is_None tr then {[e]} ∪ eps_targets T state
    else eps_targets T state.
Proof.
  unfold eps_targets. rewrite filter_cons. simpl.
  destruct (Nat.eqb_spec s state) as [->|Hne]; simpl.
  - destruct tr; simpl.
    + rewrite decide_False; [done|]. intros [_ ?]; done.
    + rewrite decide_True by done. done.
  - rewrite decide_False; [done|]. by intros [? _].
Qed.

Lemma eps_inner_cons T s tr e state ns added :
  eps_inner ((s, tr, e) :: T) state (ns, added) =
    eps_inner T state
      (if (s =? state) && is_None tr && negb (bool_decide (e ∈ ns))
       then (ns ∪ {[e]}, true) else (ns, added)).
Proof. reflexivity. Qed.

Lemma eps_inner_spec T state ns added :
  eps_inner T state (ns, added) =
    (ns ∪ eps_targets T state,
     added || negb (bool_decide (eps_targets T state ⊆ ns))).
Proof.
  revert ns added. induction T as [|[[s tr] e] T IH]; intros ns added.
  - simpl. f_equal.
    + unfold eps_targets. simpl. set_solver.
    + rewrite bool_decide_eq_true_2; [by rewrite orb_false_r|].
      unfold eps_targets; simpl; set_solver.
  - rewrite eps_inner_cons, eps_targets_cons.
    destruct ((s =? state) && is_None tr) eqn:Hc; simpl.
    + destruct (bool_decide (e ∈ ns)) eqn:He; simpl.
      * apply bool_decide_eq_true in He. rewrite IH. f_equal; [set_solver|].
        f_equal. f_equal. apply bool_decide_ext. set_solver.
      * apply bool_decide_eq_false in He. rewrite IH. f_equal; [set_solver|].
        simpl. rewrite bool_decide_eq_false_2 by set_solver.
        by rewrite orb_true_r.
    + apply IH.
Qed.

Lemma elem_of_eps_succ T states x :
  x ∈ eps_succ T states ↔ ∃ s, s ∈ states ∧ (s, None, x) ∈ T.
Proof.
  unfold eps_succ. rewrite elem_of_union_list. split.
  - intros (X & HX & Hx). apply list_elem_of_fmap in HX as (s & -> & Hs).
    exists s. split; [done|]. by apply elem_of_eps_targets.
  - intros (s & Hs & Hin). exists (eps_targets T s). split.
    + apply list_elem_of_fmap. by exists s.
    + by apply elem_of_eps_targets.
Qed.

Lemma eps_fold_spec T states ns added :
  foldl (λ acc state, eps_inner T state acc) (ns, added) states =
    (ns ∪ eps_succ T states,
     added || negb (bool_decide (eps_succ T states ⊆ ns))).
Proof.
  revert ns added. induction states as [|state states IH]; intros ns added.
  - simpl. unfold eps_succ. simpl. f_equal; [set_solver|].
    rewrite bool_decide_eq_true_2 by set_solver. by rewrite orb_false_r.
  - simpl. rewrite eps_inner_spec, IH. unfold eps_succ. simpl.
    fold (eps_succ T states). f_equal; [set_solver|].
    destruct (decide (eps_targets T state ⊆ ns)) as [Hs|Hs].
    + rewrite (bool_decide_eq_true_2 _ Hs). simpl. rewrite orb_false_r.
      f_equal. f_equal. apply bool_decide_ext. set_solver.
    + rewrite (bool_decide_eq_false_2 _ Hs). simpl.
      rewrite (bool_decide_eq_false_2 (_ ∪ _ ⊆ ns)) by set_solver.
      by rewrite !orb_true_r.
Qed.

Lemma eps_pass_spec T ns :
  eps_pass T ns =
    (ns ∪ eps_succ T (elements ns),
     negb (bool_decide (eps_succ T (elements ns) ⊆ ns))).
Proof. unfold eps_pass. by rewrite eps_fold_spec. Qed.

Lemma eps_succ_ends T states : eps_succ T states ⊆ all_ends T.
Proof.
  intros x Hx. apply elem_of_eps_succ in Hx as (s & _ & Hin).
  unfold all_ends. apply elem_of_list_to_set, list_elem_of_fmap.
  by exists (s, None, x).
Qed.

Lemma size_list_to_set_le (l : list State) :
  size (list_to_set l : gset State) ≤ length l.
Proof.
  induction l as [|x l IH].
  - rewrite list_to_set_nil, size_empty. done.
  - rewrite list_to_set_cons, size_union_alt, size_singleton. simpl.
    apply le_n_S. etrans; [|apply IH]. apply subseteq_size. set_solver.
Qed.

Lemma size_all_ends T : size (all_ends T) ≤ length T.
Proof.
  unfold all_ends. etrans; [apply size_list_to_set_le|]. by rewrite length_map.
Qed.

(* the loop stops: each run that goes on adds an end of a transition
   that was not in the set *)
Lemma eps_loop_total T fuel ns :
  size (all_ends T ∖ ns) < fuel → is_Some (eps_loop fuel T ns).
Proof.
  revert ns. induction fuel as [|fuel IH]; intros ns Hlt; [lia|].
  simpl. rewrite eps_pass_spec.
  destruct (decide (eps_succ T (elements ns) ⊆ ns)) as [Hs|Hs].
  - rewrite (bool_decide_eq_true_2 _ Hs). simpl. eauto.
  - rewrite (bool_decide_eq_false_2 _ Hs). simpl. apply IH.
    assert (all_ends T ∖ (ns ∪ eps_succ T (elements ns)) ⊂ all_ends T ∖ ns)
      as Hsub.
    { pose proof (eps_succ_ends T (elements ns)). split; [set_solver|].
      intros Hback. apply Hs. intros x Hx.
      destruct (decide (x ∈ ns)) as [|Hn]; [done|].
      assert (x ∈ all_ends T ∖ ns) as Hd by set_solver.
      apply Hback in Hd. set_solver. }
    apply subset_size in Hsub. lia.
Qed.

Lemma eps_loop_sound T (S0 : State → Prop) fuel ns C :
  (∀ x, x ∈ ns → eps_reach T S0 x) →
  eps_loop fuel T ns = Some C → ∀ x, x ∈ C → eps_reach T S0 x.
Proof.
  revert ns. induction fuel as [|fuel IH]; intros ns Hns; [done|].
  simpl. rewrite eps_pass_spec.
  assert (∀ x, x ∈ ns ∪ eps_succ T (elements ns) → eps_reach T S0 x) as Hnext.
  { intros x [Hx|Hx]%elem_of_union; [by apply Hns|].
    apply elem_of_eps_succ in Hx as (s & Hs & Hin).
    apply elem_of_elements in Hs. eapply eps_reach_step; eauto. }
  destruct (bool_decide (eps_succ T (elements ns) ⊆ ns)); simpl.
  - intros [= <-]. done.
  - by apply IH.
Qed.

Lemma eps_loop_closed T fuel ns C :
  eps_loop fuel T ns = Some C →
  ns ⊆ C ∧ ∀ s e, s ∈ C → (s, None, e) ∈ T → e ∈ C.
Proof.
  revert ns. induction fuel as [|fuel IH]; intros ns; [done|].
  simpl. rewrite eps_pass_spec.
  destruct (decide (eps_succ T (elements ns) ⊆ ns)) as [Hs|Hs].
  - rewrite (bool_decide_eq_true_2 _ Hs). simpl. intros [= <-].
    split; [set_solver|]. intros s e Hin Ht.
    assert (e ∈ eps_succ T (elements ns)); [|set_solver].
    assert (s ∈ ns) by set_solver.
    apply elem_of_eps_succ. exists s. by rewrite elem_of_elements.
  - rewrite (bool_decide_eq_false_2 _ Hs). simpl. intros Hloop.
    apply IH in Hloop as [Hsub Hclosed]. split; [set_solver|done].
Qed.

(* _epsilonClose returns, and what it returns is the ε-closure *)
Lemma epsilonClose_of_spec T (S0 : gset State) :
  ∃ C, epsilonClose_of T S0 = Some C ∧ ∀ x, x ∈ C ↔ eps_reach T (.∈ S0) x.
Proof.
  unfold epsilonClose_of.
  destruct (eps_loop_total T (S (length T)) S0) as [C HC].
  { pose proof (size_all_ends T).
    assert (size (all_ends T ∖ S0) ≤ size (all_ends T))
      by (apply subseteq_size; set_solver).
    lia. }
  exists C. split; [done|]. intros x. split.
  - eapply eps_loop_sound; [|done]. intros y Hy. by constructor.
  - apply eps_loop_closed in HC as [Hsub Hclosed].
    induction 1 as [y Hy|s e _ IH Hin]; [by apply Hsub|]. eauto.
Qed.

Lemma epsilonClose_of_empty T : epsilonClose_of T ∅ = Some ∅.
Proof.
  unfold epsilonClose_of. simpl. rewrite eps_pass_spec, elements_empty.
  unfold eps_succ. simpl. rewrite bool_decide_eq_true_2 by set_solver.
  simpl. by rewrite ?union_empty_r_L.
Qed.

(* _closure on a started expression *)
Lemma closure_of_spec `{HostRegex} T (S0 : gset State) ch :
  ∃ X, closure_of T (Some S0) ch = Ok X ∧ ∀ x, x ∈ X ↔ move T S0 ch x.
Proof.
  unfold closure_of, move.
  assert (∀ (acc : gset State),
    ∃ X, foldl (λ (acc : Res (gset State)) (t : Transition),
                  match acc with
                  | Ok newStates =>
                      let '(startState, trans, endState) := t in
                      match trans with
                      | None => Ok newStates
                      | Some klass =>
                          if bool_decide (startState ∈ S0) && contains klass ch
                          then Ok (newStates ∪ {[endState]})
                          else Ok newStates
                      end
                  | _ => acc
                  end) (Ok acc) T = Ok X ∧
         ∀ x, x ∈ X ↔ x ∈ acc ∨
                ∃ s klass, (s, Some klass, x) ∈ T ∧ s ∈ S0 ∧ contains klass ch = true)
    as Hgen.
  { induction T as [|[[s tr] e] T IH]; intros acc; simpl.
    - exists acc. split; [done|]. intros x. split; [auto|].
      intros [?|(s & k & Hin & _)]; [done|]. by apply elem_of_nil in Hin.
    - destruct tr as [klass|].
      + destruct (bool_decide (s ∈ S0) && contains klass ch) eqn:Hc.
        * apply andb_true_iff in Hc as [Hs%bool_decide_eq_true Hk].
          destruct (IH (acc ∪ {[e]})) as (X & -> & HX). exists X.
          split; [done|]. intros x. rewrite HX, elem_of_union, elem_of_singleton.
          split.
          -- intros [ [? | ->] | (s' & k & Hin & ? & ?)]; [auto| |].
             ++ right. exists s, klass. split; [left|done].
             ++ right. exists s', k. split; [by right|done].
          -- intros [?|(s' & k & Hin & Hs' & Hk')]; [auto|].
             apply elem_of_cons in Hin as [ [= -> -> ->] | Hin]; [auto|].
             right. by exists s', k.
        * destruct (IH acc) as (X & -> & HX). exists X.
          split; [done|]. intros x. rewrite HX. split.
          -- intros [?|(s' & k & Hin & ? & ?)]; [auto|].
             right. exists s', k. split; [by right|done].
          -- intros [?|(s' & k & Hin & Hs' & Hk')]; [auto|].
             apply elem_of_cons in Hin as [ [= -> -> ->] | Hin].
             ++ apply andb_false_iff in Hc as [Hc|Hc]; [|congruence].
                by apply bool_decide_eq_false in Hc.
             ++ right. by exists s', k.
      + destruct (IH acc) as (X & -> & HX). exists X.
        split; [done|]. intros x. rewrite HX. split.
        * intros [?|(s' & k & Hin & ? & ?)]; [auto|].
          right. exists s', k. split; [by right|done].
        * intros [?|(s' & k & Hin & Hs' & Hk')]; [auto|].
          apply elem_of_cons in Hin as [ [=] | Hin].
          right. by exists s', k. }
  destruct (Hgen ∅) as (X & -> & HX). exists X. split; [done|].
  intros x. rewrite HX. set_solver.
Qed.

End EpsilonClose.

(** * The methods of RegularExpression on the heap *)

Section Methods.

Context `{HostRegex}.

Lemma get_object_ok h r o :
  objects h !! r = Some o → get_object r h = (h, Ok o).
Proof. unfold get_object. by intros ->. Qed.

Lemma read_list_ok h r l :
  lists h !! r = Some l → read_list r h = (h, Ok l).
Proof. unfold read_list. by intros ->. Qed.

Lemma transitions_of_ok h r o T :
  objects h !! r = Some o → lists h !! _transitions o = Some T →
  transitions_of r h = (h, Ok T).
Proof.
  intros Ho HT. unfold transitions_of, bind.
  by rewrite (get_object_ok _ _ _ Ho), (read_list_ok _ _ _ HT).
Qed.

Lemma set_currentState_ok h r o c :
  objects h !! r = Some o →
  set_currentState r (Some c) h = (store h r (with_current o c), Ok tt).
Proof.
  intros Ho. unfold set_currentState, bind. by rewrite (get_object_ok _ _ _ Ho).
Qed.

Lemma _epsilonClose_ok h self o T (S0 : gset State) :
  objects h !! self = Some o → lists h !! _transitions o = Some T →
  ∃ C, _epsilonClose self S0 h = (h, Ok C) ∧ epsilonClose_of T S0 = Some C.
Proof.
  intros Ho HT. destruct (epsilonClose_of_spec T S0) as (C & HC & _).
  exists C. split; [|done]. unfold _epsilonClose, bind.
  by rewrite (transitions_of_ok _ _ _ _ Ho HT), HC.
Qed.

(* feed, in terms of the functions on the list of transitions *)
Lemma feed_unfold h self o T S0 ch :
  objects h !! self = Some o → lists h !! _transitions o = Some T →
  _currentState o = Some S0 →
  ∃ X C, closure_of T (Some S0) ch = Ok X ∧ epsilonClose_of T X = Some C ∧
    feed self ch h =
      (store h self (with_current o C),
       if bool_decide (C = ∅) then Raise DeadState
       else Ok (bool_decide (_finalState o ∈ C))).
Proof.
  intros Ho HT Hcur.
  destruct (closure_of_spec T S0 ch) as (X & HX & _).
  destruct (_epsilonClose_ok h self o T X Ho HT) as (C & Hrun & HC).
  exists X, C. split; [done|]. split; [done|].
  unfold feed, bind. rewrite (get_object_ok _ _ _ Ho).
  unfold _closure, bind, lift. rewrite (transitions_of_ok _ _ _ _ Ho HT).
  rewrite Hcur, HX, Hrun, (set_currentState_ok _ _ _ _ Ho).
  by destruct (bool_decide (C = ∅)).
Qed.

End Methods.

Section Matching.

Context `{HostRegex}.

Lemma eps_reach_ext T (P Q : State → Prop) x :
  (∀ y, P y ↔ Q y) → eps_reach T P x ↔ eps_reach T Q x.
Proof.
  intros HPQ. split; induction 1 as [y Hy|s e _ IH Hin].
  - apply eps_reach_base. by apply HPQ.
  - by eapply eps_reach_step.
  - apply eps_reach_base. by apply HPQ.
  - by eapply eps_reach_step.
Qed.

Lemma store_store h self o1 o2 :
  store (store h self o1) self o2 = store h self o2.
Proof. unfold store. simpl. by rewrite insert_insert_eq. Qed.

Lemma objects_store h self o : objects (store h self o) !! self = Some o.
Proof. unfold store. simpl. apply lookup_insert_eq. Qed.

Lemma start_ok h self o T :
  objects h !! self = Some o → lists h !! _transitions o = Some T →
  ∃ C0, epsilonClose_of T {[_startState o]} = Some C0 ∧
        start self h = (store h self (with_current o C0), Ok self).
Proof.
  intros Ho HT.
  destruct (_epsilonClose_ok h self o T {[_startState o]} Ho HT) as (C0 & Hrun & HC0).
  exists C0. split; [done|]. unfold start, bind.
  by rewrite (get_object_ok _ _ _ Ho), Hrun, (set_currentState_ok _ _ _ _ Ho).
Qed.

Lemma final_in_current_ok h self o cur :
  objects h !! self = Some o → _currentState o = Some cur →
  final_in_current self h = (h, Ok (bool_decide (_finalState o ∈ cur))).
Proof.
  intros Ho Hc. unfold final_in_current, bind.
  by rewrite (get_object_ok _ _ _ Ho), Hc.
Qed.

(* the loop of match and its return statement *)
Lemma feed_all_ok s : ∀ h self o T cur,
  objects h !! self = Some o → lists h !! _transitions o = Some T →
  _currentState o = Some cur →
  ∃ h', (for_each s (λ char, feed self char ;; ret tt) ;;
         final_in_current self) h =
        (h', match run_from T cur s with
             | Some C => Ok (bool_decide (_finalState o ∈ C))
             | None => Raise DeadState
             end).
Proof.
  induction s as [|ch s IH]; intros h self o T cur Ho HT Hcur.
  - exists h. cbn [for_each run_from]. unfold bind, ret.
    by rewrite (final_in_current_ok _ _ _ _ Ho Hcur).
  - destruct (feed_unfold h self o T cur ch Ho HT Hcur) as (X & C & HX & HC & Hfeed).
    cbn [for_each run_from]. rewrite HX, HC. unfold bind. rewrite Hfeed.
    destruct (bool_decide (C = ∅)); [eauto|].
    unfold ret.
    destruct (IH (store h self (with_current o C)) self (with_current o C) T C)
      as (h' & Hrest); [apply objects_store|done|done|].
    exists h'. apply Hrest.
Qed.

(* match returns, and what it returns is a function of the
   transitions, of the start state and of the final state *)
Lemma match_ok h self o T s :
  objects h !! self = Some o → lists h !! _transitions o = Some T →
  ∃ h', match_ self s h =
          (h', Ok (accepts T (_startState o) (_finalState o) s)).
Proof.
  intros Ho HT. destruct (start_ok h self o T Ho HT) as (C0 & HC0 & Hstart).
  unfold match_, bind at 1. rewrite Hstart.
  destruct (feed_all_ok s (store h self (with_current o C0)) self
              (with_current o C0) T C0) as (h' & Hrun);
    [apply objects_store|done|done|].
  exists h'. rewrite Hrun. unfold accepts. rewrite HC0. simpl.
  by destruct (run_from T C0 s).
Qed.

(* a character acts on an expression through the classes that contain it *)
Lemma closure_of_ext T cur ch ch' :
  (∀ s klass e, (s, Some klass, e) ∈ T → contains klass ch = contains klass ch') →
  closure_of T cur ch = closure_of T cur ch'.
Proof.
  unfold closure_of. generalize (Ok ∅ : Res (gset State)).
  induction T as [|[[s tr] e] T IH]; intros acc Hext; [done|].
  simpl. rewrite IH.
  - f_equal. destruct acc; [|done..]. destruct tr as [klass|]; [|done].
    destruct cur; [|done]. rewrite (Hext s klass e); [done|left].
  - intros s' k e' Hin. apply (Hext s' k e'). by right.
Qed.

End Matching.

(** C6. For an expression with a current set S0 and every character
    ch, feed(ch) replaces the current set by the ε-closure of the set
    of the states reachable from S0 by one transition whose class
    contains ch (the rest of the heap is left as it was); it raises
    DeadState if and only if that closure is empty, and otherwise it
    returns true if and only if the final state is in the new current
    set. S0 need not be non-empty for this to hold. *)
Theorem feed_replaces_current_by_closure `{HostRegex} (h : Heap) (self : Ref)
    (o : RegularExpression) (T : list Transition) (S0 : gset State) (ch : ascii) :
  objects h !! self = Some o →
  lists h !! _transitions o = Some T →
  _currentState o = Some S0 →
  ∃ (C : gset State) (r : Res bool),
    feed self ch h = (store h self (with_current o C), r) ∧
    (∀ x, x ∈ C ↔ eps_reach T (move T S0 ch) x) ∧
    (r = Raise DeadState ↔ C = ∅) ∧
    (C ≠ ∅ → ∃ b, r = Ok b ∧ (b = true ↔ _finalState o ∈ C)).
Proof.
  intros Ho HT Hcur.
  destruct (feed_unfold h self o T S0 ch Ho HT Hcur) as (X & C & HX & HC & Hfeed).
  destruct (closure_of_spec T S0 ch) as (X' & HX' & Hmove).
  rewrite HX in HX'. injection HX' as <-.
  destruct (epsilonClose_of_spec T X) as (C' & HC' & Hclose).
  rewrite HC in HC'. injection HC' as <-.
  exists C. eexists. split; [exact Hfeed|]. split; [|split].
  - intros x. rewrite Hclose. by apply eps_reach_ext.
  - case_bool_decide; split; done.
  - intros Hne. rewrite bool_decide_eq_false_2 by done.
    eexists. split; [done|]. by rewrite bool_decide_eq_true.
Qed.

Lemma feed_replaces_current_by_closure_witness :
  ∃ (C : gset State) (r : Res bool),
    @feed example_host 0 "a" example_heap =
      (store example_heap 0
         (with_current (mkRegularExpression 1 2 3 (Some {[2]}) {[2]}) C), r) ∧
    (∀ x, x ∈ C ↔
          eps_reach [(2, Some (LitteralCharacterClass "a"), 3)]
            (@move example_host [(2, Some (LitteralCharacterClass "a"), 3)]
                   {[2]} "a") x) ∧
    (r = Raise DeadState ↔ C = ∅) ∧
    (C ≠ ∅ → ∃ b, r = Ok b ∧ (b = true ↔ 3 ∈ C)).
Proof.
  apply (@feed_replaces_current_by_closure example_host example_heap 0
           (mkRegularExpression 1 2 3 (Some {[2]}) {[2]})
           [(2, Some (LitteralCharacterClass "a"), 3)] {[2]} "a");
    reflexivity.
Defined.

(** C1 (the code departs from it). clone gives new objects to the start
    and final states only: a state in the middle of the expression is
    the same object in the clone and in the original. Here the
    expression of ab shares its middle state with its clone, and
    concat(ab, ab), whose two embedded clones share it too, accepts the
    string ab. *)
Theorem clone_keeps_intermediate_state `{HostRegex} :
  let '(h, res) :=
    (let! r := ab in
     let! c := clone r in
     let! rr := concat [r; r] in
     ret (r, c, rr)) empty_heap in
  match res with
  | Ok (r, c, rr) =>
      r ≠ c ∧
      (∃ s, s ∈ states_of h r ∧ s ∈ states_of h c) ∧
      (match_ rr (chars "ab") h).2 = Ok true ∧
      (match_ rr (chars "abab") h).2 = Ok true
  | _ => False
  end.
Proof.
  vm_compute. split; [discriminate|]. split; [|split; reflexivity].
  exists 13. split; apply (bool_decide_unpack _); vm_compute; exact I.
Qed.

(** C3, as stated: building the expression of a{2,3} does not succeed,
    the tokenizer raises InvalidExponentError at the comma. *)
Lemma a_2_comma_3_is_rejected :
  (@buildRegex example_host (chars "a{2,3}") empty_heap).2 =
    Raise InvalidExponentError.
Proof. vm_compute. reflexivity. Qed.

Section A23.

Context `{HostRegex}.

Lemma other_than_a T cur ch :
  Forall (λ t : Transition,
            t.1.2 = None ∨ t.1.2 = Some (LitteralCharacterClass "a")) T →
  ch ≠ "a"%char →
  closure_of T cur ch = closure_of T cur "b"%char.
Proof.
  intros HT Hne. apply closure_of_ext. intros s klass e Hin.
  rewrite Forall_forall in HT. destruct (HT _ Hin) as [[=]|[= ->]].
  simpl. by apply Ascii.eqb_neq.
Qed.

End A23.

Section A23Theorem.

Context `{HostRegex}.

Lemma run_from_cons T cur ch s :
  run_from T cur (ch :: s) =
    match closure_of T (Some cur) ch with
    | Ok X =>
        match epsilonClose_of T X with
        | Some C => if bool_decide (C = ∅) then None else run_from T C s
        | None => None
        end
    | _ => None
    end.
Proof. reflexivity. Qed.

Lemma a23_classes :
  Forall (λ t : Transition,
            t.1.2 = None ∨ t.1.2 = Some (LitteralCharacterClass "a"))
         a23_transitions.
Proof.
  unfold a23_transitions.
  repeat (apply List.Forall_cons; [simpl; auto|]). apply List.Forall_nil.
Qed.

Ltac eval_here t :=
  let v := eval vm_compute in t in
  replace t with v by (vm_compute; reflexivity);
  cbv beta iota.

Ltac eval_closure :=
  match goal with
  | |- context [@closure_of ?H ?T ?o ?c] => eval_here (@closure_of H T o c)
  end;
  match goal with
  | |- context [epsilonClose_of ?T ?Y] => eval_here (epsilonClose_of T Y)
  end;
  match goal with
  | |- context [@bool_decide (@eq ?A ?C ?E) ?D] =>
      eval_here (@bool_decide (@eq A C E) D)
  end.

Ltac not_aa_aaa :=
  let Heq := fresh "Heq" in
  intros [Heq|Heq]; cbv in Heq; congruence.

Ltac feed_one c s :=
  rewrite run_from_cons;
  destruct (decide (c = "a"%char)) as [->|?];
  [ eval_closure
  | rewrite (other_than_a a23_transitions _ c a23_classes) by done;
    eval_closure;
    rewrite bool_decide_eq_false_2 by not_aa_aaa;
    reflexivity ].

Lemma a23_accepts s :
  accepts a23_transitions 37 38 s =
    bool_decide (s = chars "aa" ∨ s = chars "aaa").
Proof.
  unfold accepts.
  match goal with
  | |- context [epsilonClose_of ?T ?Y] => eval_here (epsilonClose_of T Y)
  end.
  destruct s as [|c1 s].
  { vm_compute. reflexivity. }
  feed_one c1 s.
  destruct s as [|c2 s].
  { vm_compute. reflexivity. }
  feed_one c2 s.
  destruct s as [|c3 s].
  { vm_compute. reflexivity. }
  feed_one c3 s.
  destruct s as [|c4 s].
  { vm_compute. reflexivity. }
  feed_one c4 s.
  rewrite bool_decide_eq_false_2 by not_aa_aaa.
  reflexivity.
Qed.

End A23Theorem.

(** C3, amended: the range of an exponent is written with a hyphen. The
    expression built from a{2-3} matches exactly the strings aa and aaa:
    building it succeeds, and match returns true on aa and on aaa and
    false on every other string, a and aaaa among them. *)
Theorem a_2_hyphen_3_matches_aa_and_aaa `{HostRegex} :
  ∃ h r,
    buildRegex (chars "a{2-3}") empty_heap = (h, Ok r) ∧
    ∀ s, ∃ h',
      match_ r s h = (h', Ok (bool_decide (s = chars "aa" ∨ s = chars "aaa"))).
Proof.
  eexists _, _. split; [vm_compute; reflexivity|].
  intros s.
  match goal with
  | |- ∃ h', match_ ?r s ?h = _ =>
      edestruct (λ o T, match_ok h r o T s) as (h' & Hm);
        [vm_compute; reflexivity | vm_compute; reflexivity |]
  end.
  exists h'. rewrite Hm. f_equal. f_equal. apply a23_accepts.
Qed.

(** * The exponents of the tokenizer *)

Section Exponents.

Context `{HostRegex}.

Implicit Types (body text : list ascii) (toks : list Token).

Lemma isdigit_not_hyphen c : isdigit c = true → Ascii.eqb c "-" = false.
Proof.
  intros Hd. apply Ascii.eqb_neq. intros ->. by vm_compute in Hd.
Qed.

Lemma isdigit_not_brace c : isdigit c = true → Ascii.eqb c "}" = false.
Proof.
  intros Hd. apply Ascii.eqb_neq. intros ->. by vm_compute in Hd.
Qed.

Lemma not_brace c body : "}"%char ∉ c :: body → Ascii.eqb c "}" = false.
Proof. intros Hn. apply Ascii.eqb_neq. intros ->. apply Hn. left. Qed.

Lemma tokens_loop_cons c stack self toks :
  tokens_loop (c :: stack) self toks =
    match state_method (_state self) with
    | None => Raise AttributeError
    | Some state =>
        match state (set_stack self stack) c toks with
        | Ok (self, tokenList, st) =>
            tokens_loop stack (set_state self (default (_state self) st)) tokenList
        | Raise e => Raise e
        | OutOfFuel => OutOfFuel
        end
    end.
Proof. reflexivity. Qed.

(* state 12: the digits of the end of the range, up to the brace *)
Lemma loop12 body : ∀ stack cc v se toks,
  "}"%char ∉ body →
  tokens_loop (body ++ ["}"%char]) (mkRegexTokenizer stack 12 cc v (Some se)) toks =
    if forallb isdigit body then
      if accumulate v body <? se then Raise InvalidExponentError
      else Ok (mkRegexTokenizer [] 0 cc (accumulate v body) (Some se),
               toks ++ [TOK_EXPONENT se (Some (accumulate v body))])
    else Raise InvalidExponentError.
Proof.
  induction body as [|c body IH]; intros stack cc v se toks Hn.
  - simpl. unfold _state12. simpl. by destruct (v <? se).
  - rewrite <- app_comm_cons, tokens_loop_cons. simpl.
    unfold _state12. simpl. rewrite (not_brace _ _ Hn).
    destruct (isdigit c); simpl; [|done].
    unfold set_exponentValue, set_state, set_stack. simpl.
    apply IH. intros Hin. apply Hn. by right.
Qed.

(* state 11: after the hyphen *)
Lemma loop11 body stack cc v se toks :
  "}"%char ∉ body →
  tokens_loop (body ++ ["}"%char]) (mkRegexTokenizer stack 11 cc v (Some se)) toks =
    match number_of body with
    | Some m =>
        if m <? se then Raise InvalidExponentError
        else Ok (mkRegexTokenizer [] 0 cc m (Some se),
                 toks ++ [TOK_EXPONENT se (Some m)])
    | None => Raise InvalidExponentError
    end.
Proof.
  intros Hn. destruct body as [|c body]; [done|].
  rewrite <- app_comm_cons, tokens_loop_cons. simpl.
  unfold _state11. simpl. rewrite (not_brace _ _ Hn).
  destruct (isdigit c); simpl; [|done].
  unfold set_exponentValue, set_state, set_stack. simpl.
  rewrite loop12 by (intros Hin; apply Hn; by right).
  unfold number_of, int_of, accumulate. simpl.
  by destruct (forallb isdigit body).
Qed.

(* state 10: the digits of the start of the range, up to the hyphen or
   the brace *)
Lemma loop10 body : ∀ stack cc v se toks,
  "}"%char ∉ body →
  tokens_loop (body ++ ["}"%char]) (mkRegexTokenizer stack 10 cc v se) toks =
    match split_at "-" body with
    | (tn, None) =>
        if forallb isdigit tn then
          Ok (mkRegexTokenizer [] 0 cc (accumulate v tn) se,
              toks ++ [TOK_EXPONENT (accumulate v tn) (Some (accumulate v tn))])
        else Raise InvalidExponentError
    | (tn, Some tm) =>
        if forallb isdigit tn then
          match number_of tm with
          | Some m =>
              if m <? accumulate v tn then Raise InvalidExponentError
              else Ok (mkRegexTokenizer [] 0 cc m (Some (accumulate v tn)),
                       toks ++ [TOK_EXPONENT (accumulate v tn) (Some m)])
          | None => Raise InvalidExponentError
          end
        else Raise InvalidExponentError
    end.
Proof.
  induction body as [|c body IH]; intros stack cc v se toks Hn.
  - done.
  - rewrite <- app_comm_cons, tokens_loop_cons. simpl.
    unfold _state10. simpl.
    destruct (Ascii.eqb c "-") eqn:Hh.
    + unfold set_startExponent, set_state, set_stack. simpl.
      rewrite loop11 by (intros Hin; apply Hn; by right). done.
    + rewrite (not_brace _ _ Hn).
      destruct (isdigit c) eqn:Hd; simpl.
      * unfold set_exponentValue, set_state, set_stack. simpl.
        rewrite IH by (intros Hin; apply Hn; by right).
        destruct (split_at "-" body) as [tn [tm|]]; simpl; rewrite Hd; done.
      * destruct (split_at "-" body) as [tn [tm|]]; simpl; rewrite Hd; done.
Qed.

(* what the tokenizer makes of the text between braces *)
Lemma tokens_of_braces body :
  "}"%char ∉ body →
  tokens (RegexTokenizer__init__ ("{"%char :: body ++ ["}"%char])) =
    match exponent_of "-" body with
    | Some (n, m) => Ok [TOK_EXPONENT n (Some m)]
    | None => Raise InvalidExponentError
    end.
Proof.
  intros Hn. unfold tokens, RegexTokenizer__init__. simpl _stack.
  rewrite tokens_loop_cons. simpl.
  destruct body as [|c body]; [done|].
  rewrite <- app_comm_cons, tokens_loop_cons. simpl.
  unfold _state9. simpl. unfold exponent_of. simpl split_at.
  destruct (isdigit c) eqn:Hd; simpl.
  - rewrite (isdigit_not_hyphen _ Hd).
    unfold set_exponentValue, set_state, set_stack. simpl.
    rewrite loop10 by (intros Hin; apply Hn; by right).
    destruct (split_at "-" body) as [tn [tm|]]; simpl; rewrite Hd; simpl.
    + destruct (forallb isdigit tn); [|done].
      unfold int_of, accumulate. simpl.
      destruct (number_of tm) as [m|]; [|done].
      destruct (Nat.ltb_spec m (foldl (λ acc d, acc * 10 + int d) (int c) tn));
        destruct (Nat.leb_spec (foldl (λ acc d, acc * 10 + int d) (int c) tn) m);
        try lia; done.
    + destruct (forallb isdigit tn); [|done].
      unfold int_of, accumulate. simpl. done.
  - destruct (Ascii.eqb c "-"); [done|].
    destruct (split_at "-" body) as [tn [tm|]]; simpl; rewrite Hd; done.
Qed.

Lemma forallb_isdigit text :
  forallb isdigit text = true ↔ Forall (λ c, isdigit c = true) text.
Proof.
  induction text as [|c text IH]; simpl.
  - split; [constructor|done].
  - rewrite andb_true_iff, IH. split.
    + intros [? ?]. by constructor.
    + by inversion 1.
Qed.

Lemma number_of_spec text n :
  number_of text = Some n ↔ is_number text ∧ n = int_of text.
Proof.
  unfold number_of, is_number. destruct text as [|c text].
  - split; [done|]. by intros [[? _] _].
  - destruct (forallb isdigit (c :: text)) eqn:Hd.
    + apply forallb_isdigit in Hd. split.
      * intros [= <-]. done.
      * by intros [_ ->].
    + split; [done|]. intros [[_ Hall] _].
      apply forallb_isdigit in Hall. congruence.
Qed.

Lemma number_of_is_number text :
  is_number text → number_of text = Some (int_of text).
Proof. intros Hn. by apply number_of_spec. Qed.

Lemma split_at_digits tn rest :
  Forall (λ c, isdigit c = true) tn →
  split_at "-" (tn ++ rest) =
    let '(a, b) := split_at "-" rest in (tn ++ a, b).
Proof.
  induction 1 as [|c tn Hc _ IH]; simpl.
  - by destruct (split_at "-" rest).
  - rewrite (isdigit_not_hyphen _ Hc), IH. by destruct (split_at "-" rest).
Qed.

Lemma split_at_inv sep body tn :
  (∀ tm, split_at sep body = (tn, Some tm) → body = tn ++ sep :: tm) ∧
  (split_at sep body = (tn, None) → body = tn).
Proof.
  revert tn. induction body as [|c body IH]; intros tn; simpl.
  - split; [done|]. by intros [= <-].
  - destruct (Ascii.eqb_spec c sep) as [->|Hne].
    + split; [|done]. by intros tm [= <- <-].
    + destruct (split_at sep body) as [tn1 tm1] eqn:Hs.
      destruct (IH tn1) as [IH1 IH2]. split.
      * intros tm [= <- ->]. simpl. f_equal. by apply IH1.
      * intros [= <- ->]. f_equal. by apply IH2.
Qed.

Lemma exponent_of_number text :
  is_number text → exponent_of "-" text = Some (int_of text, int_of text).
Proof.
  intros Hn. unfold exponent_of.
  pose proof (split_at_digits text [] (proj2 Hn)) as Hs.
  rewrite app_nil_r in Hs. simpl in Hs. rewrite app_nil_r in Hs.
  by rewrite Hs, (number_of_is_number _ Hn).
Qed.

Lemma exponent_of_range tn tm :
  is_number tn →
  exponent_of "-" (tn ++ "-"%char :: tm) =
    match number_of tm with
    | Some m => if int_of tn <=? m then Some (int_of tn, m) else None
    | None => None
    end.
Proof.
  intros Hn. unfold exponent_of.
  rewrite (split_at_digits tn _ (proj2 Hn)). simpl. rewrite app_nil_r.
  by rewrite (number_of_is_number _ Hn).
Qed.

Lemma exponent_of_spec body n m :
  exponent_of "-" body = Some (n, m) ↔ exponent_text "-" body n m.
Proof.
  split.
  - unfold exponent_of. destruct (split_at "-" body) as [tn [tm|]] eqn:Hs.
    + apply (proj1 (split_at_inv _ _ _)) in Hs as ->.
      destruct (number_of tn) as [a|] eqn:Ha; [|done].
      destruct (number_of tm) as [b|] eqn:Hb; [|done].
      apply number_of_spec in Ha as [Ha ->]. apply number_of_spec in Hb as [Hb ->].
      destruct (Nat.leb_spec (int_of tn) (int_of tm)); [|done].
      intros [= <- <-]. right. by exists tn, tm.
    + apply (proj2 (split_at_inv _ _ _)) in Hs as ->.
      destruct (number_of tn) as [a|] eqn:Ha; [|done].
      apply number_of_spec in Ha as [Ha ->]. intros [= <- <-]. by left.
  - intros [(Hn & -> & ->)|(tn & tm & Hn & Hm & -> & -> & -> & Hle)].
    + by apply exponent_of_number.
    + rewrite (exponent_of_range _ _ Hn), (number_of_is_number _ Hm).
      by rewrite (proj2 (Nat.leb_le _ _) Hle).
Qed.

Lemma is_number_no_brace text : is_number text → "}"%char ∉ text.
Proof.
  intros [_ Hall] Hin. rewrite Forall_forall in Hall.
  apply Hall in Hin. by vm_compute in Hin.
Qed.

End Exponents.




(** * Expressions with ε-transitions only *)

Section EpsOnly.

Context `{HostRegex}.

Lemma closure_of_eps_only T cur ch :
  Forall (λ t : Transition, t.1.2 = None) T → closure_of T cur ch = Ok ∅.
Proof.
  intros HT. unfold closure_of. generalize (∅ : gset State).
  induction HT as [|[[s tr] e] T Htr _ IH]; intros acc; [done|].
  simpl in Htr. subst tr. simpl. apply IH.
Qed.

Lemma accepts_eps_only T startState finalState s :
  Forall (λ t : Transition, t.1.2 = None) T →
  eps_reach T (.∈ ({[startState]} : gset State)) finalState →
  accepts T startState finalState s = bool_decide (s = []).
Proof.
  intros Heps Hreach. unfold accepts.
  destruct (epsilonClose_of_spec T {[startState]}) as (C0 & -> & HC0).
  destruct s as [|ch s].
  - simpl. rewrite !bool_decide_eq_true_2; [done..|]. by apply HC0.
  - simpl. rewrite (closure_of_eps_only _ _ _ Heps), epsilonClose_of_empty.
    rewrite bool_decide_eq_true_2 by done. done.
Qed.

End EpsOnly.

Ltac run_rewrite :=
  first
    [ rewrite lookup_insert_eq
    | rewrite lookup_insert_ne by lia
    | rewrite Nat.eqb_refl
    | match goal with
      | |- context [?a =? ?b] => rewrite (proj2 (Nat.eqb_neq a b)) by lia
      end ].

Ltac run_heap :=
  repeat first
    [ progress unfold exponent, exponent_bounded, union, kleene, clone, concat,
        fromClass, RegularExpression__new, update_startStates, set_transitions,
        set_startState, set_finalState, set_startStates, transitions_of,
        new_list, list_append, list_extend, get_object, put_object, read_list,
        alloc, bind, ret
    | progress cbn -[Nat.eqb]
    | run_rewrite ].

Ltac in_list := first [left | right; in_list].

Ltac eps_path :=
  first
    [ apply eps_reach_base; apply elem_of_singleton; reflexivity
    | eapply eps_reach_step; cycle 1; [in_list | eps_path] ].

(** C10. concat applied to no operand gives an expression whose only
    transition is an ε-transition from its start state to its final
    state, and which accepts the empty string and no other; and for
    every template r, exponent(r, 0, 0), the union of that
    concatenation alone, accepts the empty string and no other. *)
Theorem concat_of_nothing_accepts_the_empty_string `{HostRegex} (h : Heap) :
  (∃ h1 e o,
     concat [] h = (h1, Ok e) ∧
     objects h1 !! e = Some o ∧
     lists h1 !! _transitions o = Some [(_startState o, None, _finalState o)] ∧
     ∀ s, ∃ h2, match_ e s h1 = (h2, Ok (bool_decide (s = [])))) ∧
  (∀ r, ∃ h1 e,
     exponent r 0 (Some 0) h = (h1, Ok e) ∧
     ∀ s, ∃ h2, match_ e s h1 = (h2, Ok (bool_decide (s = [])))).
Proof.
  split.
  - eexists _, _, _. split; [run_heap; reflexivity|].
    split; [cbn; rewrite lookup_insert_eq; reflexivity|].
    split; [cbn; rewrite lookup_insert_eq; reflexivity|].
    intros s.
    match goal with
    | |- ∃ h2, match_ ?e s ?h1 = _ =>
        edestruct (λ o T, match_ok h1 e o T s) as (h2 & Hm);
          [cbn; rewrite lookup_insert_eq; reflexivity
          |cbn; rewrite lookup_insert_eq; reflexivity|]
    end.
    exists h2. rewrite Hm. f_equal. f_equal. apply accepts_eps_only.
    + repeat constructor.
    + eps_path.
  - intros r. eexists _, _. split; [run_heap; reflexivity|].
    intros s.
    match goal with
    | |- ∃ h2, match_ ?e s ?h1 = _ =>
        edestruct (λ o T, match_ok h1 e o T s) as (h2 & Hm);
          [cbn; repeat run_rewrite; reflexivity
          |cbn; repeat run_rewrite; reflexivity|]
    end.
    exists h2. rewrite Hm. f_equal. f_equal. apply accepts_eps_only.
    + repeat constructor.
    + cbn. eps_path.
Qed.

(** * What the construction primitives change in the heap *)

Section Frame.

Implicit Types (h : Heap) (l : Ref) (o : RegularExpression).

Lemma unchanged_refl h : unchanged h h.
Proof. by split. Qed.

Lemma unchanged_trans h1 h2 h3 :
  unchanged h1 h2 → unchanged h2 h3 → unchanged h1 h3.
Proof.
  intros [Hle1 H1] [Hle2 H2]. split; [lia|]. intros r Hr.
  destruct (H2 r) as [-> ->]; [lia|]. by apply H1.
Qed.

Lemma bounded_mono N N' t : N ≤ N' → bounded N t → bounded N' t.
Proof. unfold bounded. lia. Qed.

Lemma Forall_bounded_mono N N' (ts : list Transition) :
  N ≤ N' → Forall (bounded N) ts → Forall (bounded N') ts.
Proof.
  intros Hle Hts. eapply Forall_impl; [exact Hts|].
  intros t. by apply bounded_mono.
Qed.

Lemma appended_refl l N h : is_Some (lists h !! l) → appended l N h h.
Proof.
  intros [ts0 Hl0]. split; [done|]. split; [done|]. split; [done|].
  exists ts0, []. by rewrite app_nil_r.
Qed.

Lemma appended_trans l N h1 h2 h3 :
  appended l N h1 h2 → appended l N h2 h3 → appended l N h1 h3.
Proof.
  intros (Hn1 & Ho1 & Hl1 & ts0 & ts1 & Ha & Hb & Hc)
         (Hn2 & Ho2 & Hl2 & ts0' & ts2 & Ha' & Hb' & Hc').
  split; [congruence|]. split; [congruence|]. split.
  - intros r Hr. by rewrite Hl2, Hl1.
  - rewrite Hb in Ha'. injection Ha' as <-.
    exists ts0, (ts1 ++ ts2). rewrite app_assoc. split; [done|]. split; [done|].
    by apply Forall_app.
Qed.

Lemma list_append_ok h l ts0 t :
  lists h !! l = Some ts0 →
  list_append l t h =
    (mkHeap (next_id h) (<[l := ts0 ++ [t]]> (lists h)) (objects h), Ok tt).
Proof. intros Hl. unfold list_append, bind. by rewrite (read_list_ok _ _ _ Hl). Qed.

Lemma list_extend_ok h l ts0 ts :
  lists h !! l = Some ts0 →
  list_extend l ts h =
    (mkHeap (next_id h) (<[l := ts0 ++ ts]> (lists h)) (objects h), Ok tt).
Proof. intros Hl. unfold list_extend, bind. by rewrite (read_list_ok _ _ _ Hl). Qed.

Lemma list_extend_appended h l ts0 ts N :
  lists h !! l = Some ts0 → Forall (bounded N) ts →
  ∃ h', list_extend l ts h = (h', Ok tt) ∧ appended l N h h'.
Proof.
  intros Hl Hts. eexists. split; [by apply list_extend_ok|].
  split; [done|]. split; [done|]. split.
  - intros r Hr. simpl. by rewrite lookup_insert_ne.
  - exists ts0, ts. simpl. by rewrite lookup_insert_eq.
Qed.

Lemma list_append_appended h l t N :
  is_Some (lists h !! l) → bounded N t →
  ∃ h', list_append l t h = (h', Ok tt) ∧ appended l N h h'.
Proof.
  intros [ts0 Hl] Ht. eexists. split; [by apply list_append_ok|].
  split; [done|]. split; [done|]. split.
  - intros r Hr. simpl. by rewrite lookup_insert_ne.
  - exists ts0, [t]. simpl. rewrite lookup_insert_eq. split; [done|].
    split; [done|]. by constructor.
Qed.

Lemma appended_is_Some l N h h' :
  appended l N h h' → is_Some (lists h' !! l).
Proof. intros (_ & _ & _ & ts0 & ts1 & _ & -> & _). eauto. Qed.

(* a loop whose body appends to the list at l *)
Lemma for_each_appended {A} l N (xs : list A) (body : A → M unit) h :
  is_Some (lists h !! l) →
  (∀ x h1, x ∈ xs → appended l N h h1 →
     ∃ h2, body x h1 = (h2, Ok tt) ∧ appended l N h1 h2) →
  ∃ h', for_each xs body h = (h', Ok tt) ∧ appended l N h h'.
Proof.
  intros Hl Hbody.
  assert (∀ h1, appended l N h h1 →
            ∃ h', for_each xs body h1 = (h', Ok tt) ∧ appended l N h1 h') as Hgen.
  { induction xs as [|x xs IH]; intros h1 H1.
    - exists h1. split; [done|]. apply appended_refl. by eapply appended_is_Some.
    - destruct (Hbody x h1) as (h2 & Hrun & H2); [left|done|].
      destruct IH with (h1 := h2) as (h3 & Hrest & H3).
      + intros y h4 Hy. apply Hbody. by right.
      + by eapply appended_trans.
      + exists h3. split; [|by eapply appended_trans].
        cbn [for_each]. unfold bind. by rewrite Hrun. }
  apply Hgen. by apply appended_refl.
Qed.

Lemma for_each_ext {S A} (xs : list A) (f g : A → ST S unit) s :
  (∀ x, f x = g x) → for_each xs f s = for_each xs g s.
Proof.
  intros Hfg. revert s. induction xs as [|x xs IH]; intros s; [done|].
  cbn [for_each]. unfold bind. rewrite Hfg. destruct (g x s) as [s1 [[]| |]]; auto.
Qed.

(* the loop of clone and the inner loop of concat *)
Lemma for_each_rename l N (f : Transition → Transition) body ts h :
  (∀ t, body t = list_append l (f t)) →
  is_Some (lists h !! l) → Forall (bounded N) (map f ts) →
  ∃ h', for_each ts body h = (h', Ok tt) ∧ appended l N h h'.
Proof.
  intros Hbody Hl Hts. apply for_each_appended; [done|].
  intros t h1 Ht H1. rewrite Hbody. apply list_append_appended.
  - by eapply appended_is_Some.
  - rewrite Forall_forall in Hts. apply Hts. apply list_elem_of_fmap. eauto.
Qed.

Lemma bind_ok {S A B} (m : ST S A) (k : A → ST S B) s s1 a :
  m s = (s1, Ok a) → bind m k s = k a s1.
Proof. unfold bind. by intros ->. Qed.

Lemma heap_ok_store h r o :
  heap_ok h → r < next_id h → _transitions o < next_id h →
  is_Some (lists h !! _transitions o) →
  _startState o < next_id h → _finalState o < next_id h →
  heap_ok (store h r o).
Proof.
  intros [Ha Hb] Hr Ht Hl Hs Hf. split; [|done].
  intros r1 o1. unfold store. simpl. rewrite lookup_insert.
  case_decide; [|by apply Ha]. intros [= <-]. by subst.
Qed.

Lemma heap_ok_new_list h ts N :
  heap_ok h → next_id h ≤ N → Forall (bounded N) ts →
  heap_ok (mkHeap N (<[next_id h := ts]> (lists h)) (objects h)).
Proof.
  intros [Ha Hb] Hle Hts. split; simpl.
  - intros r o Ho. destruct (Ha r o Ho) as (? & ? & ? & ? & ?).
    repeat split; try lia. rewrite lookup_insert. by case_decide.
  - intros r ts1. rewrite lookup_insert. case_decide.
    + by intros [= <-].
    + intros Hl. eapply Forall_bounded_mono; [exact Hle|]. by eapply Hb.
Qed.

Lemma heap_ok_appended l N h h1 :
  heap_ok h → N ≤ next_id h → appended l N h h1 → heap_ok h1.
Proof.
  intros [Ha Hb] Hle (Hn & Ho & Hl & ts0 & ts1 & H0 & H1 & Hts). split.
  - intros r o. rewrite Ho, Hn. intros Hro.
    destruct (Ha r o Hro) as (? & ? & ? & ? & ?). repeat split; try done.
    destruct (decide (_transitions o = l)) as [->|Hne]; [eauto|].
    by rewrite Hl.
  - intros r ts. rewrite Hn. destruct (decide (r = l)) as [->|Hne].
    + rewrite H1. intros [= <-]. apply Forall_app. split; [by eapply Hb|].
      by eapply Forall_bounded_mono.
    + rewrite Hl by done. apply Hb.
Qed.

Lemma unchanged_appended l N h0 h h1 :
  next_id h0 ≤ l → unchanged h0 h → appended l N h h1 → unchanged h0 h1.
Proof.
  intros Hl [Hle Hu] (Hn & Ho & Hls & _). split; [lia|].
  intros r Hr. rewrite Ho, Hls by lia. by apply Hu.
Qed.

Lemma unchanged_store h0 h r o :
  next_id h0 ≤ r → unchanged h0 h → unchanged h0 (store h r o).
Proof.
  intros Hr [Hle Hu]. split; [done|]. intros r1 Hr1. unfold store. simpl.
  rewrite lookup_insert_ne by lia. by apply Hu.
Qed.

Lemma unchanged_new_list h0 h ts N :
  next_id h0 ≤ next_id h → next_id h ≤ N → unchanged h0 h →
  unchanged h0 (mkHeap N (<[next_id h := ts]> (lists h)) (objects h)).
Proof.
  intros Hl HN [Hle Hu]. split; [simpl; lia|]. intros r Hr. simpl.
  rewrite lookup_insert_ne by lia. by apply Hu.
Qed.

Lemma new_ok h :
  RegularExpression__new h =
    (store (mkHeap (4 + next_id h) (<[S (next_id h) := []]> (lists h)) (objects h))
       (next_id h)
       (mkRegularExpression (S (next_id h)) (2 + next_id h) (3 + next_id h) None ∅),
     Ok (next_id h)).
Proof. reflexivity. Qed.

Lemma new_post h :
  heap_ok h →
  ∃ h1 o, RegularExpression__new h = (h1, Ok (next_id h)) ∧
    heap_ok h1 ∧ unchanged h h1 ∧ next_id h1 = 4 + next_id h ∧
    objects h1 !! next_id h = Some o ∧
    o = mkRegularExpression (S (next_id h)) (2 + next_id h) (3 + next_id h) None ∅ ∧
    lists h1 !! S (next_id h) = Some [].
Proof.
  intros Hok. eexists _, _. split; [apply new_ok|].
  assert (heap_ok (mkHeap (4 + next_id h) (<[S (next_id h) := []]> (lists h))
                    (objects h))) as Hok1.
  { destruct Hok as [Ha Hb]. split; simpl.
    - intros r o Ho. destruct (Ha r o Ho) as (? & ? & ? & ? & ?).
      repeat split; try lia. rewrite lookup_insert. by case_decide.
    - intros r ts. rewrite lookup_insert. case_decide.
      + intros [= <-]. constructor.
      + intros Hl. eapply Forall_bounded_mono; [|by eapply Hb]. lia. }
  split; [|split; [|split; [done|split; [|split; [done|]]]]].
  - apply heap_ok_store; simpl; try lia; [done|].
    rewrite lookup_insert_eq. eauto.
  - split; [simpl; lia|]. intros r Hr. simpl.
    by rewrite !lookup_insert_ne by lia.
  - simpl. by rewrite lookup_insert_eq.
  - simpl. by rewrite lookup_insert_eq.
Qed.

Lemma set_transitions_ok h r o l :
  objects h !! r = Some o →
  set_transitions r l h =
    (store h r (mkRegularExpression l (_startState o) (_finalState o)
                  (_currentState o) (_startStates o)), Ok tt).
Proof. intros Ho. unfold set_transitions. by rewrite (bind_ok _ _ _ _ _ (get_object_ok _ _ _ Ho)). Qed.

Lemma set_startState_ok h r o s :
  objects h !! r = Some o →
  set_startState r s h =
    (store h r (mkRegularExpression (_transitions o) s (_finalState o)
                  (_currentState o) (_startStates o)), Ok tt).
Proof. intros Ho. unfold set_startState. by rewrite (bind_ok _ _ _ _ _ (get_object_ok _ _ _ Ho)). Qed.

Lemma set_finalState_ok h r o s :
  objects h !! r = Some o →
  set_finalState r s h =
    (store h r (mkRegularExpression (_transitions o) (_startState o) s
                  (_currentState o) (_startStates o)), Ok tt).
Proof. intros Ho. unfold set_finalState. by rewrite (bind_ok _ _ _ _ _ (get_object_ok _ _ _ Ho)). Qed.

Lemma update_startStates_ok h r o ts :
  objects h !! r = Some o → lists h !! _transitions o = Some ts →
  update_startStates r h =
    (store h r (mkRegularExpression (_transitions o) (_startState o) (_finalState o)
                  (_currentState o)
                  (list_to_set (map (λ t : Transition, t.1.1) ts))), Ok tt).
Proof.
  intros Ho Hl. unfold update_startStates, set_startStates.
  rewrite (bind_ok _ _ _ _ _ (transitions_of_ok _ _ _ _ Ho Hl)).
  by rewrite (bind_ok _ _ _ _ _ (get_object_ok _ _ _ Ho)).
Qed.

(* the last statements of every primitive: the set of start states is
   stored and the expression returned *)
Lemma finish_post h0 h result o :
  heap_ok h → unchanged h0 h → next_id h0 ≤ result →
  objects h !! result = Some o →
  next_id h0 ≤ _startState o → next_id h0 ≤ _finalState o →
  next_id h0 ≤ _transitions o →
  ∃ h1 c, (update_startStates result ;; ret result) h = (h1, Ok c) ∧
          heap_ok h1 ∧ unchanged h0 h1 ∧ fresh_expression h0 h1 c.
Proof.
  intros Hok Hun Hr Ho Hs Hf Ht.
  destruct (proj1 Hok _ _ Ho) as (? & ? & [ts Hts] & ? & ?).
  eexists _, _. split.
  { by rewrite (bind_ok _ _ _ _ _ (update_startStates_ok _ _ _ _ Ho Hts)). }
  split; [|split].
  - apply heap_ok_store; simpl; eauto.
  - by apply unchanged_store.
  - split; [done|]. eexists. split; [apply objects_store|]. done.
Qed.

Lemma clone_rename_bounded me res N t :
  _startState res < N → _finalState res < N → bounded N t →
  bounded N (clone_rename me res t).
Proof.
  destruct t as [[s tr] e]. unfold bounded, clone_rename. simpl.
  intros ? ? [? ?].
  repeat match goal with |- context [if ?b then _ else _] => destruct b end;
    lia.
Qed.

Lemma clone_post h self :
  heap_ok h → is_Some (objects h !! self) →
  ∃ h1 c, clone self h = (h1, Ok c) ∧
          heap_ok h1 ∧ unchanged h h1 ∧ fresh_expression h h1 c.
Proof.
  intros Hok [me Hme].
  destruct (proj1 Hok _ _ Hme) as (Hself & Hlt & [ts Hts] & Hs & Hf).
  destruct (new_post h Hok) as (h1 & res & Hnew & Hok1 & Hun1 & Hn1 & Hres & -> & Hl1).
  unfold clone. rewrite (bind_ok _ _ _ _ _ Hnew).
  assert (objects h1 !! self = Some me) as Hme1.
  { destruct Hun1 as [_ Hu]. destruct (Hu self Hself) as [_ ->]. done. }
  assert (lists h1 !! _transitions me = Some ts) as Hts1.
  { destruct Hun1 as [_ Hu]. destruct (Hu _ Hlt) as [-> _]. done. }
  rewrite (bind_ok _ _ _ _ _ (get_object_ok _ _ _ Hme1)).
  rewrite (bind_ok _ _ _ _ _ (get_object_ok _ _ _ Hres)).
  rewrite (bind_ok _ _ _ _ _ (read_list_ok _ _ _ Hts1)).
  set (res := mkRegularExpression (S (next_id h)) (2 + next_id h)
                (3 + next_id h) None ∅) in *.
  match goal with
  | |- context [for_each ts ?body] =>
      destruct (for_each_rename (S (next_id h)) (next_id h1)
                  (clone_rename me res) body ts h1) as (h2 & Hloop & Happ)
  end.
  { by intros [[? ?] ?]. }
  { eauto. }
  { apply Forall_fmap. eapply Forall_impl; [by eapply (proj2 Hok)|].
    intros t Ht. apply clone_rename_bounded; simpl; [lia..|].
    eapply bounded_mono; [|exact Ht]. lia. }
  rewrite (bind_ok _ _ _ _ _ Hloop).
  apply finish_post with (o := res).
  - by eapply heap_ok_appended.
  - eapply unchanged_appended; [|done|done]. lia.
  - done.
  - destruct Happ as (_ & -> & _). done.
  - simpl. lia.
  - simpl. lia.
  - first [simpl; lia | rewrite Heq; simpl; lia].
Qed.

Lemma new_list_ok h ts :
  new_list ts h =
    (mkHeap (S (next_id h)) (<[next_id h := ts]> (lists h)) (objects h),
     Ok (next_id h)).
Proof. reflexivity. Qed.

Lemma new_list_post h0 h ts :
  heap_ok h → unchanged h0 h → Forall (bounded (S (next_id h))) ts →
  ∃ h1, new_list ts h = (h1, Ok (next_id h)) ∧
        heap_ok h1 ∧ unchanged h0 h1 ∧ next_id h1 = S (next_id h) ∧
        lists h1 !! next_id h = Some ts ∧ objects h1 = objects h.
Proof.
  intros Hok Hun Hts. eexists. split; [apply new_list_ok|].
  split; [|split; [|split; [done|split; [|done]]]].
  - apply heap_ok_new_list; [done|lia|done].
  - apply unchanged_new_list; [apply Hun|lia|done].
  - simpl. apply lookup_insert_eq.
Qed.

Lemma fresh_expression_stable h h1 h2 c :
  fresh_expression h h1 c → heap_ok h1 → unchanged h1 h2 →
  fresh_expression h h2 c.
Proof.
  intros (Hc & o & Ho & Hs & Hf & Ht) Hok [_ Hun]. split; [done|].
  exists o. split; [|done].
  destruct (proj1 Hok _ _ Ho) as (Hlt & _). by destruct (Hun c Hlt) as [_ ->].
Qed.

Lemma fresh_expression_base h0 h h1 c :
  next_id h0 ≤ next_id h → fresh_expression h h1 c → fresh_expression h0 h1 c.
Proof.
  intros Hle (Hc & o & Ho & Hs & Hf & Ht). split; [lia|]. exists o.
  split; [done|]. lia.
Qed.

Lemma is_Some_objects_stable h1 h2 r :
  is_Some (objects h1 !! r) → heap_ok h1 → unchanged h1 h2 →
  is_Some (objects h2 !! r).
Proof.
  intros [o Ho] Hok [_ Hun].
  destruct (proj1 Hok _ _ Ho) as (Hlt & _). destruct (Hun r Hlt) as [_ ->]. eauto.
Qed.

(* a list of expressions built one after the other *)
Lemma map_each_post {A} (f : A → M Ref) (P : A → Heap → Prop) xs h :
  (∀ x h1 h2, P x h1 → heap_ok h1 → unchanged h1 h2 → P x h2) →
  (∀ x h1, x ∈ xs → heap_ok h1 → P x h1 →
     ∃ h2 c, f x h1 = (h2, Ok c) ∧
             heap_ok h2 ∧ unchanged h1 h2 ∧ fresh_expression h1 h2 c) →
  heap_ok h → (∀ x, x ∈ xs → P x h) →
  ∃ h1 cs, map_each xs f h = (h1, Ok cs) ∧
           heap_ok h1 ∧ unchanged h h1 ∧ Forall (fresh_expression h h1) cs ∧
           length cs = length xs.
Proof.
  intros Hstable. revert h. induction xs as [|x xs IH]; intros h Hf Hok HP.
  - exists h, []. split; [done|]. split; [done|]. split; [apply unchanged_refl|].
    split; [constructor|done].
  - destruct (Hf x h) as (h2 & c & Hrun & Hok2 & Hun2 & Hc); [left|done|apply HP; left|].
    destruct (IH h2) as (h3 & cs & Hrest & Hok3 & Hun3 & Hcs & Hlen).
    + intros y h1 Hy. apply Hf. by right.
    + done.
    + intros y Hy. eapply Hstable; [apply HP; by right|done..].
    + exists h3, (c :: cs). split.
      { cbn [map_each]. rewrite (bind_ok _ _ _ _ _ Hrun), (bind_ok _ _ _ _ _ Hrest).
        done. }
      split; [done|]. split; [by eapply unchanged_trans|]. split.
      * constructor; [by eapply fresh_expression_stable|].
        eapply Forall_impl; [exact Hcs|]. intros y.
        apply fresh_expression_base. apply Hun2.
      * simpl. by rewrite Hlen.
Qed.

Lemma map_each_clone_post rxs h :
  heap_ok h → (∀ r, r ∈ rxs → is_Some (objects h !! r)) →
  ∃ h1 cs, map_each rxs clone h = (h1, Ok cs) ∧
           heap_ok h1 ∧ unchanged h h1 ∧ Forall (fresh_expression h h1) cs ∧
           length cs = length rxs.
Proof.
  intros Hok Hrxs.
  apply (map_each_post clone (λ r h1, is_Some (objects h1 !! r))); [| |done..].
  - intros r h1 h2. apply is_Some_objects_stable.
  - intros r h1 _ Hok1 Hr. by apply clone_post.
Qed.

Lemma fromClass_post klass h :
  heap_ok h →
  ∃ h1 c, fromClass klass h = (h1, Ok c) ∧
          heap_ok h1 ∧ unchanged h h1 ∧ fresh_expression h h1 c.
Proof.
  intros Hok.
  destruct (new_post h Hok) as (h1 & res & Hnew & Hok1 & Hun1 & Hn1 & Hres & Heq & Hl1).
  assert (_startState res = 2 + next_id h ∧ _finalState res = 3 + next_id h)
    as [Hs Hf] by (by rewrite Heq).
  unfold fromClass. rewrite (bind_ok _ _ _ _ _ Hnew).
  rewrite (bind_ok _ _ _ _ _ (get_object_ok _ _ _ Hres)).
  destruct (new_list_post h h1 [(_startState res, Some klass, _finalState res)])
    as (h2 & Hlist & Hok2 & Hun2 & Hn2 & Hl2 & Ho2); [done|done| |].
  { constructor; [|constructor]. split; simpl; lia. }
  rewrite (bind_ok _ _ _ _ _ Hlist).
  rewrite <- Ho2 in Hres.
  rewrite (bind_ok _ _ _ _ _ (set_transitions_ok _ _ _ _ Hres)).
  eapply finish_post.
  - apply heap_ok_store; simpl; [done|lia..| |lia|lia]. by rewrite Hl2.
  - apply unchanged_store; [lia|done].
  - done.
  - apply objects_store.
  - simpl. lia.
  - simpl. lia.
  - first [simpl; lia | rewrite Heq; simpl; lia].
Qed.

End Frame.

Section Frame2.

Implicit Types (h : Heap) (o : RegularExpression).

Lemma elem_of_removelast {A} (x : A) (xs : list A) :
  x ∈ removelast xs → x ∈ xs.
Proof.
  induction xs as [|y xs IH]; [done|]. simpl. destruct xs as [|z xs].
  - intros Hx. by apply elem_of_nil in Hx.
  - intros [->|Hx]%elem_of_cons; [left|right; by apply IH].
Qed.

Lemma elem_of_tail {A} (x : A) (xs : list A) : x ∈ tail xs → x ∈ xs.
Proof. destruct xs; [done|]. simpl. by right. Qed.

Lemma elem_of_last {A} (x : A) (xs : list A) : List.last (x :: xs) x ∈ x :: xs.
Proof.
  revert x. induction xs as [|y xs IH]; intros x; [left|].
  right. change (List.last (x :: y :: xs) x) with (List.last (y :: xs) x).
  assert (∀ d, List.last (y :: xs) d = List.last (y :: xs) y) as ->; [|apply IH].
  clear. revert y. induction xs as [|z xs IH]; intros y d; [done|].
  change (List.last (y :: z :: xs) d) with (List.last (z :: xs) d).
  change (List.last (y :: z :: xs) y) with (List.last (z :: xs) y).
  by rewrite (IH z d), (IH z y).
Qed.

Lemma concat_rename_bounded o1 o2 N t :
  _finalState o1 < N → bounded N t → bounded N (concat_rename o1 o2 t).
Proof.
  destruct t as [[s tr] e]. unfold bounded, concat_rename. simpl.
  intros ? [? ?].
  repeat match goal with |- context [if ?b then _ else _] => destruct b end;
    lia.
Qed.

Lemma bind_assoc {S A B C} (m : ST S A) (k1 : A → ST S B) (k2 : B → ST S C) s :
  bind (bind m k1) k2 s = bind m (λ a, bind (k1 a) k2) s.
Proof. unfold bind. by destruct (m s) as [s1 [a| |]]. Qed.

Tactic Notation "step" uconstr(H) :=
  rewrite ?bind_assoc; rewrite (bind_ok _ _ _ _ _ H).

Ltac append_step N Happ :=
  match goal with
  | |- context [bind (list_append ?l ?t) _ ?h] =>
      let h1 := fresh "h" in
      let Hrun := fresh "Hrun" in
      destruct (list_append_appended h l t N) as (h1 & Hrun & Happ);
        [ | | rewrite (bind_ok _ _ _ _ _ Hrun)]
  end.

Lemma kleene_post rx h :
  heap_ok h → is_Some (objects h !! rx) →
  ∃ h1 c, kleene rx h = (h1, Ok c) ∧
          heap_ok h1 ∧ unchanged h h1 ∧ fresh_expression h h1 c.
Proof.
  intros Hok [o Ho].
  destruct (proj1 Hok _ _ Ho) as (Hrx & Hlt & [ts Hts] & Hs & Hf).
  destruct (new_post h Hok) as (h1 & res & Hnew & Hok1 & Hun1 & Hn1 & Hres & Heq & Hl1).
  assert (_startState res = 2 + next_id h ∧ _finalState res = 3 + next_id h)
    as [Hrs Hrf] by (by rewrite Heq).
  assert (objects h1 !! rx = Some o) as Ho1.
  { destruct Hun1 as [_ Hu]. by destruct (Hu rx Hrx) as [_ ->]. }
  assert (lists h1 !! _transitions o = Some ts) as Hts1.
  { destruct Hun1 as [_ Hu]. by destruct (Hu _ Hlt) as [-> _]. }
  unfold kleene. rewrite (bind_ok _ _ _ _ _ Hnew).
  rewrite (bind_ok _ _ _ _ _ (get_object_ok _ _ _ Hres)).
  rewrite (bind_ok _ _ _ _ _ (get_object_ok _ _ _ Ho1)).
  rewrite (bind_ok _ _ _ _ _ (read_list_ok _ _ _ Hts1)).
  destruct (new_list_post h h1 ts) as (h2 & Hlist & Hok2 & Hun2 & Hn2 & Hl2 & Ho2);
    [done|done| |].
  { eapply Forall_bounded_mono; [|by eapply (proj2 Hok)]. lia. }
  rewrite (bind_ok _ _ _ _ _ Hlist).
  rewrite <- Ho2 in Hres.
  rewrite (bind_ok _ _ _ _ _ (set_transitions_ok _ _ _ _ Hres)).
  set (res1 := mkRegularExpression (next_id h1) (_startState res) (_finalState res)
                 (_currentState res) (_startStates res)).
  set (h3 := store h2 (next_id h) res1).
  assert (heap_ok h3) as Hok3.
  { apply heap_ok_store; simpl; [done|lia..| |lia|lia]. by rewrite Hl2. }
  assert (unchanged h h3) as Hun3 by (apply unchanged_store; [lia|done]).
  assert (is_Some (lists h3 !! next_id h1)) as Hl3 by (simpl; eauto).
  assert (next_id h3 = 5 + next_id h) as Hn3 by (simpl; lia).
  append_step (next_id h3) Happ1; [done|split; simpl; lia|].
  append_step (next_id h3) Happ2;
    [by eapply appended_is_Some|split; simpl; lia|].
  append_step (next_id h3) Happ3;
    [by eapply appended_is_Some|split; simpl; lia|].
  append_step (next_id h3) Happ4;
    [by eapply appended_is_Some|split; simpl; lia|].
  pose proof (appended_trans _ _ _ _ _
                (appended_trans _ _ _ _ _
                   (appended_trans _ _ _ _ _ Happ1 Happ2) Happ3) Happ4) as Happ.
  eapply finish_post.
  - exact (heap_ok_appended _ _ _ _ Hok3 (Nat.le_refl _) Happ).
  - eapply unchanged_appended; [|exact Hun3|exact Happ]. lia.
  - done.
  - destruct Happ as (_ & -> & _). apply objects_store.
  - simpl. lia.
  - simpl. lia.
  - first [simpl; lia | rewrite Heq; simpl; lia].
Qed.

Lemma created_of_fresh h h1 cs :
  Forall (fresh_expression h h1) cs → created h h1 cs.
Proof.
  intros Hcs c Hc. rewrite Forall_forall in Hcs.
  destruct (Hcs c Hc) as (_ & o & ? & ? & ? & ?). eauto.
Qed.

Lemma created_stable h h1 h2 cs :
  created h h1 cs → heap_ok h1 → unchanged h1 h2 → created h h2 cs.
Proof.
  intros Hcs Hok [_ Hun] c Hc. destruct (Hcs c Hc) as (o & Ho & ? & ?).
  exists o. split; [|done]. destruct (proj1 Hok _ _ Ho) as (Hlt & _).
  by destruct (Hun c Hlt) as [_ ->].
Qed.

Lemma concat_post rxs h :
  heap_ok h → (∀ r, r ∈ rxs → is_Some (objects h !! r)) →
  ∃ h1 c, concat rxs h = (h1, Ok c) ∧
          heap_ok h1 ∧ unchanged h h1 ∧ fresh_expression h h1 c.
Proof.
  intros Hok Hrxs.
  destruct (map_each_clone_post rxs h Hok Hrxs)
    as (h1 & cs & Hclones & Hok1 & Hun1 & Hcs%created_of_fresh & _).
  destruct (new_post h1 Hok1) as (h2 & res & Hnew & Hok2 & Hun2 & Hn2 & Hres & Heq & Hl2).
  assert (_startState res = 2 + next_id h1 ∧ _finalState res = 3 + next_id h1)
    as [Hrs Hrf] by (by rewrite Heq).
  assert (next_id h ≤ next_id h1) as Hle1 by apply Hun1.
  assert (unchanged h h2) as Hun02 by (by eapply unchanged_trans).
  unfold concat. step Hclones. step Hnew.
  destruct cs as [|c0 cs].
  - (* no operand: one ε-transition *)
    step (get_object_ok _ _ _ Hres).
    destruct (new_list_post h h2 [(_startState res, None, _finalState res)])
      as (h3 & Hlist & Hok3 & Hun3 & Hn3 & Hl3 & Ho3); [done|done| |].
    { constructor; [|constructor]. split; simpl; lia. }
    step (Hlist).
    rewrite <- Ho3 in Hres.
    step (set_transitions_ok _ _ _ _ Hres).
    eapply finish_post.
    + apply heap_ok_store; simpl; [done|lia..| |lia|lia]. by rewrite Hl3.
    + apply unchanged_store; [lia|done].
    + lia.
    + apply objects_store.
    + simpl. lia.
    + simpl. lia.
    + first [simpl; lia | rewrite Heq; simpl; lia].
  - (* the first clone, then the others renamed *)
    pose proof (created_stable _ _ _ _ Hcs Hok1 Hun2) as Hcs2.
    destruct (Hcs2 c0) as (o0 & Ho0 & Hs0 & Hf0); [left|].
    destruct (proj1 Hok2 _ _ Ho0) as (Hc0 & Hlt0 & [ts0 Hts0] & Hs0' & Hf0').
    step (get_object_ok _ _ _ Ho0).
    step (set_startState_ok _ _ _ _ Hres).
    set (res1 := mkRegularExpression (_transitions res) (_startState o0)
                   (_finalState res) (_currentState res) (_startStates res)).
    assert (heap_ok (store h2 (next_id h1) res1)) as Hok3.
    { apply heap_ok_store; simpl; [done|lia| | |lia|lia].
      - rewrite Heq. simpl. lia.
      - rewrite Heq. simpl. rewrite Hl2. eauto. }
    assert (unchanged h1 (store h2 (next_id h1) res1)) as Hun13
      by (apply unchanged_store; [lia|done]).
    assert (lists (store h2 (next_id h1) res1) !! _transitions o0 = Some ts0)
      as Hts03 by done.
    assert (next_id (store h2 (next_id h1) res1) = 4 + next_id h1) as Hn3 by done.
    pose proof (objects_store h2 (next_id h1) res1) as Hres3.
    revert Hok3 Hun13 Hts03 Hn3 Hres3.
    generalize (store h2 (next_id h1) res1). intros h3 Hok3 Hun13 Hts03 Hn3 Hres3.
    step (read_list_ok _ _ _ Hts03).
    destruct (new_list_post h1 h3 ts0)
      as (h4 & Hlist & Hok4 & Hun14 & Hn4 & Hl4 & Ho4); [done|done| |].
    { eapply Forall_bounded_mono; [|by eapply (proj2 Hok3)]. lia. }
    step Hlist.
    rewrite <- Ho4 in Hres3.
    step (set_transitions_ok _ _ _ _ Hres3).
    set (res2 := mkRegularExpression (next_id h3) (_startState res1) (_finalState res1)
                   (_currentState res1) (_startStates res1)).
    assert (heap_ok (store h4 (next_id h1) res2)) as Hok5.
    { apply heap_ok_store; simpl; [done|lia..| |lia|lia]. rewrite Hl4. eauto. }
    assert (unchanged h1 (store h4 (next_id h1) res2)) as Hun15
      by (apply unchanged_store; [lia|done]).
    assert (is_Some (lists (store h4 (next_id h1) res2) !! next_id h3)) as Hl5.
    { simpl. rewrite Hl4. eauto. }
    assert (next_id (store h4 (next_id h1) res2) = 5 + next_id h1) as Hn5
      by (simpl; lia).
    pose proof (objects_store h4 (next_id h1) res2) as Hres5.
    revert Hok5 Hun15 Hl5 Hn5 Hres5.
    generalize (store h4 (next_id h1) res2). intros h5 Hok5 Hun15 Hl5 Hn5 Hres5.
    pose proof (created_stable _ _ _ _ Hcs Hok1 Hun15) as Hcs5.
    rewrite ?bind_assoc.
    match goal with
    | |- context [bind (for_each ?pairs ?body) _ h5] =>
        destruct (for_each_appended (next_id h3) (next_id h5) pairs body h5)
          as (h6 & Hloop & Happ)
    end.
    { done. }
    { intros [rx1 rx2] h' Hin Happ'.
      assert (rx1 ∈ c0 :: cs) as Hrx1.
      { by eapply elem_of_removelast, elem_of_zip_l. }
      assert (rx2 ∈ c0 :: cs) as Hrx2.
      { by eapply elem_of_tail, elem_of_zip_r. }
      pose proof (heap_ok_appended _ _ _ _ Hok5 (Nat.le_refl _) Happ') as Hok'.
      destruct Happ' as (Hn' & Ho' & Hl' & Hex').
      cbv beta iota.
      destruct (Hcs5 rx1 Hrx1) as (o1 & Ho1 & _).
      destruct (Hcs5 rx2 Hrx2) as (o2 & Ho2 & _).
      rewrite <- Ho' in Ho1, Ho2.
      destruct (proj1 Hok' _ _ Ho1) as (_ & _ & _ & _ & Hf1).
      destruct (proj1 Hok' _ _ Ho2) as (_ & _ & [ts Hts] & _).
      step (get_object_ok _ _ _ Ho1).
      step (get_object_ok _ _ _ Ho2).
      step (read_list_ok _ _ _ Hts).
      apply (for_each_rename (next_id h3) (next_id h5) (concat_rename o1 o2)).
      - by intros [[? ?] ?].
      - destruct Hex' as (? & ? & _ & -> & _). eauto.
      - apply Forall_fmap. eapply Forall_impl; [by eapply (proj2 Hok')|].
        intros t Ht. rewrite <- Hn'. apply concat_rename_bounded; [lia|done]. }
    step Hloop.
    pose proof (heap_ok_appended _ _ _ _ Hok5 (Nat.le_refl _) Happ) as Hok6.
    assert (objects h6 = objects h5) as Ho6 by apply Happ.
    assert (next_id h6 = next_id h5) as Hn6 by apply Happ.
    destruct (Hcs5 (List.last (c0 :: cs) c0)) as (olast & Holast & _ & Hflast);
      [apply elem_of_last|].
    rewrite <- Ho6 in Holast.
    step (get_object_ok _ _ _ Holast).
    rewrite <- Ho6 in Hres5.
    step (set_finalState_ok _ _ _ _ Hres5).
    destruct (proj1 Hok6 _ _ Holast) as (_ & _ & _ & _ & Hflast').
    eapply finish_post.
    + apply heap_ok_store; simpl; [done|lia..| |lia|lia].
      by eapply appended_is_Some.
    + apply unchanged_store; [lia|].
      eapply unchanged_trans; [exact Hun1|].
      eapply unchanged_appended; [|exact Hun15|exact Happ]. lia.
    + lia.
    + apply objects_store.
    + simpl. lia.
    + simpl. lia.
    + first [simpl; lia | rewrite Heq; simpl; lia].
Qed.

Lemma union_post rxs h :
  heap_ok h → (∀ r, r ∈ rxs → is_Some (objects h !! r)) →
  ∃ h1 c, union rxs h = (h1, Ok c) ∧
          heap_ok h1 ∧ unchanged h h1 ∧ fresh_expression h h1 c.
Proof.
  intros Hok Hrxs.
  destruct (new_post h Hok) as (h1 & res & Hnew & Hok1 & Hun1 & Hn1 & Hres & Heq & Hl1).
  assert (_startState res = 2 + next_id h ∧ _finalState res = 3 + next_id h ∧
          _transitions res = S (next_id h))
    as (Hrs & Hrf & Hrt) by (by rewrite Heq).
  unfold union. step (Hnew).
  step (get_object_ok _ _ _ Hres).
  destruct (map_each_clone_post rxs h1 Hok1)
    as (h2 & cs & Hclones & Hok2 & Hun2 & Hcs%created_of_fresh & _).
  { intros r Hr. eapply is_Some_objects_stable; eauto. }
  step (Hclones).
  assert (objects h2 !! next_id h = Some res) as Hres2.
  { destruct Hun2 as [_ Hu]. destruct (Hu (next_id h)) as [_ ->]; [lia|done]. }
  assert (is_Some (lists h2 !! _transitions res)) as Hl2.
  { destruct Hun2 as [_ Hu]. rewrite Hrt.
    destruct (Hu (S (next_id h))) as [-> _]; [lia|eauto]. }
  assert (next_id h1 ≤ next_id h2) as Hle2 by apply Hun2.
  rewrite ?bind_assoc.
  match goal with
  | |- context [bind (for_each cs ?body) _ h2] =>
      destruct (for_each_appended (_transitions res) (next_id h2) cs body h2)
        as (h3 & Hloop & Happ)
  end.
  { done. }
  { intros c h' Hc Happ'.
    pose proof (heap_ok_appended _ _ _ _ Hok2 (Nat.le_refl _) Happ') as Hok'.
    pose proof (appended_is_Some _ _ _ _ Happ') as Hl'.
    destruct Happ' as (Hn' & Ho' & _).
    destruct (Hcs c Hc) as (o & Ho & _). rewrite <- Ho' in Ho.
    destruct (proj1 Hok' _ _ Ho) as (_ & _ & [ts Hts] & Hso & Hfo).
    step (get_object_ok _ _ _ Ho).
    step (read_list_ok _ _ _ Hts).
    destruct Hl' as [ts' Hts'].
    destruct (list_extend_appended h' (_transitions res) ts' ts (next_id h2))
      as (h4 & Hrun4 & Happ4); [done| |].
    { rewrite <- Hn'. by eapply (proj2 Hok'). }
    step (Hrun4).
    destruct (list_append_appended h4 (_transitions res)
                (_startState res, None, _startState o) (next_id h2))
      as (h5 & Hrun5 & Happ5); [by eapply appended_is_Some|split; simpl; lia|].
    step (Hrun5).
    destruct (list_append_appended h5 (_transitions res)
                (_finalState o, None, _finalState res) (next_id h2))
      as (h6 & Hrun6 & Happ6); [by eapply appended_is_Some|split; simpl; lia|].
    exists h6. split; [exact Hrun6|].
    eapply appended_trans; [|exact Happ6]. by eapply appended_trans. }
  step (Hloop).
  eapply finish_post.
  - exact (heap_ok_appended _ _ _ _ Hok2 (Nat.le_refl _) Happ).
  - apply (unchanged_appended (_transitions res) (next_id h2) h h2 h3);
      [lia|by eapply unchanged_trans|exact Happ].
  - done.
  - destruct Happ as (_ & -> & _). exact Hres2.
  - lia.
  - lia.
  - first [simpl; lia | rewrite Heq; simpl; lia].
Qed.

Lemma exponent_bounded_post rx minCount maxCount h :
  heap_ok h → is_Some (objects h !! rx) →
  ∃ h1 c, exponent_bounded rx minCount maxCount h = (h1, Ok c) ∧
          heap_ok h1 ∧ unchanged h h1 ∧ fresh_expression h h1 c.
Proof.
  intros Hok Hrx. unfold exponent_bounded.
  destruct (map_each_post (λ count, concat (replicate count rx))
              (λ _ h1, is_Some (objects h1 !! rx))
              (seq minCount (maxCount + 1 - minCount)) h)
    as (h1 & alts & Hrun & Hok1 & Hun1 & Halts%created_of_fresh & _).
  { intros _ h1 h2. apply is_Some_objects_stable. }
  { intros count h1 _ Hok1 Hrx1. apply concat_post; [done|].
    intros r Hr. apply elem_of_replicate in Hr as [-> _]. done. }
  { done. }
  { done. }
  step (Hrun).
  destruct (union_post alts h1 Hok1) as (h2 & c & Hunion & Hok2 & Hun2 & Hc).
  { intros r Hr. destruct (Halts r Hr) as (o & -> & _). eauto. }
  exists h2, c. split; [done|]. split; [done|].
  split; [by eapply unchanged_trans|].
  eapply fresh_expression_base; [|exact Hc]. apply Hun1.
Qed.

Lemma exponent_post rx minCount maxCount h :
  heap_ok h → is_Some (objects h !! rx) →
  ∃ h1 c, exponent rx minCount maxCount h = (h1, Ok c) ∧
          heap_ok h1 ∧ unchanged h h1 ∧ fresh_expression h h1 c.
Proof.
  intros Hok Hrx. destruct maxCount as [maxCount|]; simpl.
  { by apply exponent_bounded_post. }
  destruct (exponent_bounded_post rx minCount minCount h Hok Hrx)
    as (h1 & r1 & Hrun1 & Hok1 & Hun1 & Hr1).
  step (Hrun1).
  destruct (kleene_post rx h1 Hok1) as (h2 & r2 & Hrun2 & Hok2 & Hun2 & Hr2).
  { by eapply is_Some_objects_stable. }
  step (Hrun2).
  destruct (concat_post [r1; r2] h2 Hok2) as (h3 & c & Hrun3 & Hok3 & Hun3 & Hc).
  { intros r [->|[->|Hr]%elem_of_cons]%elem_of_cons.
    - destruct (fresh_expression_stable _ _ _ _ Hr1 Hok1 Hun2) as (_ & o & -> & _).
      eauto.
    - destruct Hr2 as (_ & o & -> & _). eauto.
    - by apply elem_of_nil in Hr. }
  exists h3, c. split; [done|]. split; [done|].
  split; [eapply unchanged_trans; [|exact Hun3]; by eapply unchanged_trans|].
  eapply fresh_expression_base; [|exact Hc].
  destruct Hun1, Hun2. lia.
Qed.

End Frame2.

Section NewExpressions.

Lemma states_of_bounded h r s :
  heap_ok h → s ∈ states_of h r → s < next_id h.
Proof.
  intros [Ha Hb]. unfold states_of. destruct (objects h !! r) as [o|] eqn:Ho.
  - destruct (Ha r o Ho) as (_ & _ & [ts Hts] & Hs & Hf). rewrite Hts. simpl.
    rewrite elem_of_union, elem_of_union, !elem_of_singleton, elem_of_list_to_set.
    intros [[->| ->]|Hin]; [done..|].
    apply list_elem_of_In, in_flat_map in Hin as ([[s1 tr] e] & Hin & Hs1).
    apply list_elem_of_In in Hin.
    pose proof (proj1 (Forall_forall _ _) (Hb _ _ Hts) _ Hin) as [? ?].
    simpl in *. destruct Hs1 as [<-|[<-|[]]]; done.
  - intros Hin. by apply not_elem_of_empty in Hin.
Qed.

Lemma builds_of_post h (m : M Ref) :
  heap_ok h →
  (∃ h1 c, m h = (h1, Ok c) ∧
           heap_ok h1 ∧ unchanged h h1 ∧ fresh_expression h h1 c) →
  builds_new_expression h m.
Proof.
  intros Hok (h1 & c & Hrun & Hok1 & Hun & Hc & o & Ho & Hs & Hf & Ht).
  exists h1, c, o. split; [done|]. split; [done|]. split; [done|].
  split; [|split; [done|split]].
  - destruct (objects h !! c) as [o1|] eqn:Ho1; [|done].
    destruct (proj1 Hok _ _ Ho1) as (? & _). lia.
  - intros r o1 Ho1. destruct (proj1 Hok _ _ Ho1) as (_ & ? & _). lia.
  - intros r. split; intros Hin%(states_of_bounded _ _ _ Hok); lia.
Qed.

End NewExpressions.

Lemma heap_ok_example : heap_ok example_heap.
Proof.
  split; unfold example_heap; simpl.
  - intros r o Ho. apply lookup_singleton_Some in Ho as [<- <-].
    cbn. repeat split; try lia. rewrite lookup_singleton_eq. eauto.
  - intros r l Hl. apply lookup_singleton_Some in Hl as [<- <-].
    repeat constructor.
Qed.




(** * The regex engine raises no LexerError *)

Section Quiet.

Lemma quiet_ret {S A} (a : A) : quiet (ret a : ST S A).
Proof. by intros s s1 e [= _ ?]. Qed.

Lemma quiet_out_of_fuel {S A} : quiet (out_of_fuel : ST S A).
Proof. by intros s s1 e [= _ ?]. Qed.

Lemma quiet_raise {S A} (e : exn) : not_LexerError e → quiet (raise e : ST S A).
Proof. by intros He s s1 e1 [= _ <-]. Qed.

Lemma quiet_lift {S A} (r : Res A) : quiet_res r → quiet (lift r : ST S A).
Proof. intros Hr s s1 e [= _ ->]. by apply Hr. Qed.

Lemma quiet_bind {S A B} (m : ST S A) (k : A → ST S B) :
  quiet m → (∀ a, quiet (k a)) → quiet (bind m k).
Proof.
  intros Hm Hk s s1 e. unfold bind.
  destruct (m s) as [s2 [a|e2|]] eqn:Hms.
  - apply Hk.
  - intros [= _ <-]. by eapply Hm.
  - done.
Qed.

Lemma quiet_for_each {S A} (l : list A) (body : A → ST S unit) :
  (∀ x, quiet (body x)) → quiet (for_each l body).
Proof.
  intros Hb. induction l as [|x l IH]; [apply quiet_ret|].
  apply quiet_bind; [apply Hb|done].
Qed.

Lemma quiet_map_each {S A B} (l : list A) (f : A → ST S B) :
  (∀ x, quiet (f x)) → quiet (map_each l f).
Proof.
  intros Hf. induction l as [|x l IH]; [apply quiet_ret|].
  apply quiet_bind; [apply Hf|]. intros y.
  apply quiet_bind; [done|]. intros ys. apply quiet_ret.
Qed.

End Quiet.

Create HintDb quiet.

#[local] Hint Resolve quiet_ret quiet_out_of_fuel : quiet.

Ltac quiet_step :=
  first
    [ progress intros
    | solve [eauto with quiet]
    | apply quiet_ret
    | apply quiet_out_of_fuel
    | apply quiet_raise; exact I
    | apply quiet_for_each
    | apply quiet_map_each
    | apply quiet_bind
    | solve [by intros ? ? ? [= _ ?]]
    | match goal with
      | |- quiet (match ?x with _ => _ end) => destruct x
      | |- quiet (if ?b then _ else _) => destruct b
      | |- quiet (let '(_, _) := ?x in _) => destruct x
      | |- quiet ((λ '(_, _), _) ?x) => destruct x
      end ].

Ltac quiet_tac := repeat quiet_step.

Section QuietRegex.

Context `{HostRegex}.

Lemma quiet_alloc : quiet alloc.
Proof. by intros s s1 e [= _ ?]. Qed.

Lemma quiet_read_list r : quiet (read_list r).
Proof.
  intros s s1 e. unfold read_list. destruct (lists s !! r); [done|].
  by intros [= _ <-].
Qed.

Lemma quiet_get_object r : quiet (get_object r).
Proof.
  intros s s1 e. unfold get_object. destruct (objects s !! r); [done|].
  by intros [= _ <-].
Qed.

Lemma quiet_put_object r o : quiet (put_object r o).
Proof. by intros s s1 e [= _ ?]. Qed.

Hint Resolve quiet_alloc quiet_read_list quiet_get_object quiet_put_object : quiet.

Lemma quiet_new_list l : quiet (new_list l).
Proof. unfold new_list. quiet_tac. Qed.

Lemma quiet_list_append r t : quiet (list_append r t).
Proof. unfold list_append. quiet_tac. Qed.

Lemma quiet_list_extend r ts : quiet (list_extend r ts).
Proof. unfold list_extend. quiet_tac. Qed.

Lemma quiet_set_transitions r l : quiet (set_transitions r l).
Proof. unfold set_transitions. quiet_tac. Qed.

Lemma quiet_set_startState r s : quiet (set_startState r s).
Proof. unfold set_startState. quiet_tac. Qed.

Lemma quiet_set_finalState r s : quiet (set_finalState r s).
Proof. unfold set_finalState. quiet_tac. Qed.

Lemma quiet_set_currentState r c : quiet (set_currentState r c).
Proof. unfold set_currentState. quiet_tac. Qed.

Lemma quiet_set_startStates r c : quiet (set_startStates r c).
Proof. unfold set_startStates. quiet_tac. Qed.

Hint Resolve quiet_new_list quiet_list_append quiet_list_extend
  quiet_set_transitions quiet_set_startState quiet_set_finalState
  quiet_set_currentState quiet_set_startStates : quiet.

Lemma quiet_transitions_of r : quiet (transitions_of r).
Proof. unfold transitions_of. quiet_tac. Qed.

Hint Resolve quiet_transitions_of : quiet.

Lemma quiet_new : quiet RegularExpression__new.
Proof. unfold RegularExpression__new. quiet_tac. Qed.

Lemma quiet_update_startStates r : quiet (update_startStates r).
Proof. unfold update_startStates. quiet_tac. Qed.

Hint Resolve quiet_new quiet_update_startStates : quiet.

Lemma quiet_clone self : quiet (clone self).
Proof. unfold clone. quiet_tac. Qed.

Lemma quiet_fromClass klass : quiet (fromClass klass).
Proof. unfold fromClass. quiet_tac. Qed.

Hint Resolve quiet_clone quiet_fromClass : quiet.

Lemma quiet_concat rxs : quiet (concat rxs).
Proof. unfold concat. quiet_tac. Qed.

Lemma quiet_union rxs : quiet (union rxs).
Proof. unfold union. quiet_tac. Qed.

Lemma quiet_kleene rx : quiet (kleene rx).
Proof. unfold kleene. quiet_tac. Qed.

Hint Resolve quiet_concat quiet_union quiet_kleene : quiet.

Lemma quiet_exponent rx minCount maxCount : quiet (exponent rx minCount maxCount).
Proof. unfold exponent, exponent_bounded. quiet_tac. Qed.

Lemma quiet_epsilonClose self states : quiet (_epsilonClose self states).
Proof. unfold _epsilonClose. quiet_tac. Qed.

Hint Resolve quiet_exponent quiet_epsilonClose : quiet.

Lemma quiet_start self : quiet (start self).
Proof. unfold start. quiet_tac. Qed.

Ltac quiet_res_tac :=
  let e := fresh "e" in
  let He := fresh "He" in
  intros e He; repeat (case_match; simplify_eq); try exact I; try done.

Lemma quiet_state_method n state self char toks :
  state_method n = Some state → quiet_res (state self char toks).
Proof.
  do 13 (destruct n as [|n];
         [try discriminate; intros [= <-];
          unfold _state0, _state1, _state2, _state3, _state9, _state10,
            _state11, _state12, write_currentClass, RegexCharacterClass__init__;
          quiet_res_tac|]).
  discriminate.
Qed.

Lemma quiet_tokens_loop stack : ∀ self toks,
  quiet_res (tokens_loop stack self toks).
Proof.
  induction stack as [|char stack IH]; intros self toks e; [done|].
  simpl. destruct (state_method (_state self)) as [state|] eqn:Hm.
  - destruct (state (set_stack self stack) char toks) as [[[self1 toks1] st]|e1|] eqn:Hs.
    + apply IH.
    + intros [= <-]. by eapply quiet_state_method.
    + done.
  - by intros [= <-].
Qed.

Lemma quiet_tokens self : quiet_res (tokens self).
Proof.
  unfold tokens. intros e.
  destruct (tokens_loop (_stack self) self []) as [[self1 toks]|e1|] eqn:Hl.
  - repeat case_match; intros; simplify_eq; exact I.
  - intros [= <-]. by eapply quiet_tokens_loop.
  - done.
Qed.

Lemma quiet_parse_R3 fuel : ∀ left toks pos,
  quiet (_parse_R3 fuel left toks pos).
Proof. induction fuel as [|fuel IH]; intros left toks pos; simpl; quiet_tac. Qed.

Hint Resolve quiet_parse_R3 : quiet.

Lemma quiet_parse_methods fuel :
  (∀ toks pos, quiet (_parse_E1 fuel toks pos)) ∧
  (∀ left toks pos, quiet (_parse_R1 fuel left toks pos)) ∧
  (∀ toks pos, quiet (_parse_E2 fuel toks pos)) ∧
  (∀ left toks pos, quiet (_parse_R2 fuel left toks pos)) ∧
  (∀ toks pos, quiet (_parse_E3 fuel toks pos)) ∧
  (∀ toks pos, quiet (_parse_E fuel toks pos)).
Proof.
  induction fuel as [|fuel (IHE1 & IHR1 & IHE2 & IHR2 & IHE3 & IHE)].
  { repeat split; intros; apply quiet_out_of_fuel. }
  repeat split; intros; simpl.
  - quiet_tac.
  - quiet_tac.
  - quiet_tac.
  - intros h h1 e.
    destruct ((let! (tempExpr, tempPos) := _parse_E3 fuel toks pos in
               _parse_R2 fuel tempExpr toks tempPos) h)
      as [h2 [[tempExpr tempPos]|e2|]] eqn:Htry.
    + assert (quiet (let! (expr, pos0) := _parse_E3 fuel toks pos in
                     let! left0 := concat [left; expr] in
                     _parse_R2 fuel left0 toks pos0)) as Hq by quiet_tac.
      apply Hq.
    + assert (quiet (let! (tempExpr, tempPos) := _parse_E3 fuel toks pos in
                     _parse_R2 fuel tempExpr toks tempPos)) as Hq by quiet_tac.
      apply Hq in Htry. destruct e2; intros [= _ <-]; done.
    + done.
  - quiet_tac.
  - quiet_tac.
Qed.

Lemma quiet_parse toks : quiet (parse toks).
Proof.
  unfold parse. pose proof (quiet_parse_methods (parse_fuel toks)) as (? & _).
  quiet_tac.
Qed.

Lemma quiet_buildRegex rx : quiet (buildRegex rx).
Proof.
  unfold buildRegex. apply quiet_bind.
  - apply quiet_lift, quiet_tokens.
  - intros toks. apply quiet_parse.
Qed.

End QuietRegex.

(** * The progressive lexer *)

Section LexerFacts.

Import Lexer.

Context `{HostRegex} `{LexerClass}.

Implicit Types (lx : ProgressiveLexer).

Lemma quiet_modify f : quiet (modify f).
Proof. by intros s s1 e [= _ ?]. Qed.

Lemma quiet_get : quiet get.
Proof. by intros s s1 e [= _ ?]. Qed.

Lemma quiet_in_heap {A} (m : M A) : quiet m → quiet (in_heap m).
Proof.
  intros Hm lx lx1 e. unfold in_heap.
  destruct (m (heap lx)) as [h r] eqn:Hrun. intros [= _ ->]. by eapply Hm.
Qed.

Hint Resolve quiet_modify quiet_get quiet_buildRegex quiet_start : quiet.

Lemma quiet_restartLexer resetPos : quiet (restartLexer resetPos).
Proof.
  unfold restartLexer, LexerBase_restartLexer. quiet_tac.
  apply quiet_in_heap. quiet_tac.
Qed.

Lemma quiet_newToken tok : quiet (newToken tok).
Proof. apply quiet_modify. Qed.

Lemma quiet_setConsumer c : quiet (setConsumer c).
Proof. apply quiet_modify. Qed.

Hint Resolve quiet_restartLexer quiet_newToken quiet_setConsumer : quiet.

Lemma quiet_dispatch rules ms match_ : quiet (dispatch rules ms match_).
Proof.
  induction rules as [|[[rx callback] defaultType] rules IH]; simpl; quiet_tac.
Qed.

Hint Resolve quiet_dispatch : quiet.

Lemma quiet_finalize_dispatch : quiet finalize_dispatch.
Proof. unfold finalize_dispatch. quiet_tac. Qed.

(* the rules are built one after the other on the heap of the lexer;
   nothing else of the lexer changes *)
Lemma build_rules rules : ∀ lx lx1 cs,
  map_each rules (λ '(rx, callback, defaultType),
    let! regex := in_heap (let! r := buildRegex rx in start r) in
    ret (regex, callback, defaultType, 0)) lx = (lx1, Ok cs) →
  lx1 = with_heap (heap lx1) lx ∧
  map entry_summary cs = map rule_summary rules.
Proof.
  induction rules as [|[[rx callback] defaultType] rules IH]; intros lx lx1 cs.
  - intros [= <- <-]. by destruct lx.
  - cbn [map_each]. unfold bind at 1. unfold bind at 1. unfold in_heap at 1.
    destruct ((let! r := buildRegex rx in start r) (heap lx)) as [h [regex|e|]];
      [|done..].
    unfold ret at 1.
    unfold bind at 1.
    match goal with
    | |- context [map_each rules ?f ?s] =>
        destruct (map_each rules f s) as [lx2 [cs2|e|]] eqn:Hrest; [|done..]
    end.
    intros [= <- <-]. apply IH in Hrest as [Heq Hcs]. split.
    + rewrite Heq at 1. by destruct lx.
    + simpl. by rewrite Hcs.
Qed.

(* what restartLexer leaves *)
Lemma restartLexer_fields resetPos lx lx1 :
  restartLexer resetPos lx = (lx1, Ok tt) →
  pos lx1 = (if resetPos then (0, 1) else pos lx) ∧
  consumer lx1 = None ∧ currentMatch lx1 = [] ∧ matches lx1 = [] ∧
  maxPos lx1 = 0 ∧ state lx1 = 0 ∧
  emitted lx1 = emitted lx ∧ called lx1 = called lx ∧
  map entry_summary (currentState lx1) = map rule_summary _allTokens.
Proof.
  unfold restartLexer. unfold bind at 1.
  match goal with
  | |- context [map_each _allTokens ?f lx] =>
      destruct (map_each _allTokens f lx) as [lx2 [cs|e|]] eqn:Hbuild; [|done..]
  end.
  apply build_rules in Hbuild as [Heq Hcs].
  unfold LexerBase_restartLexer, bind, modify, ret. destruct resetPos; simpl.
  - intros [= <-]. simpl. rewrite Heq. by destruct lx.
  - intros [= <-]. simpl. rewrite Heq. by destruct lx.
Qed.

(** ** A LexerError leaves the lexer restarted *)

Lemma for_each_error {A} (P : ProgressiveLexer → Prop) (body : A → L unit) l :
  ∀ lx lx1 c col row,
  (∀ x lx lx1 c col row,
     body x lx = (lx1, Raise (LexerError c col row)) → P lx1) →
  for_each l body lx = (lx1, Raise (LexerError c col row)) → P lx1.
Proof.
  induction l as [|x l IH]; intros lx lx1 c col row Hbody; [done|].
  cbn [for_each]. unfold bind at 1.
  destruct (body x lx) as [lx2 [[]|e|]] eqn:Hx.
  - by apply IH.
  - intros [= <- ->]. by eapply Hbody.
  - done.
Qed.

Lemma advance_run char lx :
  advance char lx =
  (with_pos (if is_newline char then (0, (pos lx).2 + 1)
             else ((pos lx).1 + 1, (pos lx).2)) lx, Ok tt).
Proof.
  unfold advance, advanceLine, advanceColumn, modify.
  by destruct (is_newline char), (pos lx).
Qed.

Lemma feed_after_advance_error (finalize : L unit) char charPos lx lx1 c col row :
  (∀ lx lx1 c col row,
     finalize lx = (lx1, Raise (LexerError c col row)) → restarted lx1) →
  feed_after_advance finalize char charPos lx
    = (lx1, Raise (LexerError c col row)) →
  restarted lx1.
Proof.
  intros Hfin. unfold feed_after_advance. unfold bind at 1. unfold get at 1.
  destruct (consumer lx) as [cons|].
  - destruct (consumer_feed cons char) as [[[ty v]|] cons'];
      [destruct ty|]; done.
  - unfold bind at 1.
    destruct (match char with EOF => feed_eof | Char c0 => feed_char c0 charPos end lx)
      as [lx2 [continue|e|]] eqn:Hbody.
    + destruct continue; [|done]. unfold bind at 1.
      destruct (finalize lx2) as [lx3 [[]|e|]] eqn:Hrun.
      * destruct char; [done|]. intros Hrun'. exfalso.
        assert (Hquiet : quiet (restartLexer true ;; newToken EOFToken)).
        { apply quiet_bind; [apply quiet_restartLexer|].
          intros _. apply quiet_newToken. }
        by apply Hquiet in Hrun'.
      * intros [= <- ->]. by eapply Hfin.
      * done.
    + destruct e; try done. unfold bind at 1.
      destruct (restartLexer true lx2) as [lx3 [[]|e|]] eqn:Hrestart.
      * intros [= <- _ _ _]. by exists lx2.
      * intros [= <- ->]. exfalso.
        by eapply (quiet_restartLexer true) in Hrestart.
      * done.
    + done.
Qed.

Lemma finalizeMatch_error fuel : ∀ lx lx1 c col row,
  finalizeMatch fuel lx = (lx1, Raise (LexerError c col row)) → restarted lx1.
Proof.
  induction fuel as [|fuel IH]; intros lx lx1 c col row; [done|].
  cbn [finalizeMatch]. unfold __finalizeMatch. unfold bind at 1.
  destruct (finalize_dispatch lx) as [lx2 [remain|e|]] eqn:Hdispatch.
  - apply for_each_error. intros [char p] lx3 lx4 c' col' row'.
    unfold bind at 1. rewrite advance_run.
    by apply feed_after_advance_error.
  - intros [= <- ->]. exfalso. by eapply quiet_finalize_dispatch in Hdispatch.
  - done.
Qed.

Lemma feed_error fuel char charPos lx lx1 c col row :
  feed fuel char charPos lx = (lx1, Raise (LexerError c col row)) →
  restarted lx1.
Proof.
  unfold feed. unfold bind at 1. rewrite advance_run.
  apply feed_after_advance_error, finalizeMatch_error.
Qed.

(** ** The rule that __finalizeMatch uses *)

Lemma dispatch_skip (pre rest : list Rule) (ms : gset nat) match_ lx :
  (∀ rule, rule ∈ pre → rule.1.2 ∉ ms) →
  dispatch (pre ++ rest) ms match_ lx = dispatch rest ms match_ lx.
Proof.
  induction pre as [|[[rx callback] defaultType] pre IH]; intros Hpre; [done|].
  simpl. rewrite bool_decide_eq_false_2.
  - apply IH. intros rule Hin. apply Hpre. by right.
  - apply (Hpre (rx, callback, defaultType)). by left.
Qed.

Lemma dispatch_hit rx callback defaultType (post : list Rule) (ms : gset nat)
    match_ lx :
  callback ∈ ms →
  consumer lx = None →
  let tok := mkMutableToken (type_of_default defaultType) match_ in
  ∃ lx1,
    dispatch ((rx, callback, defaultType) :: post) ms match_ lx = (lx1, Ok tt) ∧
    called lx1 = called lx ++ [(callback, tok)] ∧
    emitted lx1 = emitted lx ++
      match call callback tok with
      | (tok', None) =>
          match type tok' with TypeNone => [] | _ => [token tok'] end
      | (_, Some _) => []
      end.
Proof.
  intros Hin Hcons tok. simpl. rewrite bool_decide_eq_true_2 by done.
  fold tok. unfold bind, modify, setConsumer, ret, get.
  destruct (call callback tok) as [tok' [cons|]]; simpl; rewrite ?Hcons;
    destruct (type tok'); simpl; rewrite ?app_nil_r;
    (eexists; split; [reflexivity|]; split; reflexivity).
Qed.

(** ** The first statements of feed *)

Lemma feed_char_ignored c charPos lx :
  state lx = 0 → ignore c = true → feed_char c charPos lx = (lx, Ok false).
Proof.
  intros Hstate Hignore. unfold feed_char. unfold bind at 1. unfold get at 1.
  by rewrite Hstate, Hignore.
Qed.

Lemma feed_eof_idle lx :
  state lx = 0 →
  feed_eof lx = (restartLexer true ;; newToken EOFToken ;; ret false) lx.
Proof.
  intros Hstate. unfold feed_eof. unfold bind at 1. unfold get at 1.
  by rewrite Hstate.
Qed.

End LexerFacts.

Section LexerTheorems.

Import Lexer.

(** C4, as stated: the position is not kept. A lexer with the one rule
    A = a is fed a and then b: the second feed raises LexerError at
    column 2 of line 1, and the position of the lexer is then column 0
    of line 1. *)
Lemma LexerError_resets_the_position :
  ∃ lx0 lx1 lx2,
    @ProgressiveLexer__new example_host one_rule_lexer = (lx0, Ok tt) ∧
    @feed example_host one_rule_lexer 1 (Char "a") None lx0 = (lx1, Ok tt) ∧
    pos lx1 = (1, 1) ∧
    @feed example_host one_rule_lexer 1 (Char "b") None lx1
      = (lx2, Raise (LexerError "b" 2 1)) ∧
    pos lx2 = (0, 1).
Proof.
  eexists _, _, _.
  split; [vm_compute; reflexivity|].
  split; [vm_compute; reflexivity|].
  split; [reflexivity|].
  split; [vm_compute; reflexivity|].
  reflexivity.
Qed.

(** C4, amended. When feed raises LexerError, the lexer is left as a
    call of restartLexer() leaves it: the expressions of all the rules
    are built anew and started, the match buffer and the recorded
    matches are empty, no consumer is installed, and the position is
    reset to column 0 of line 1. *)
Theorem LexerError_leaves_the_lexer_restarted `{HostRegex} `{LexerClass}
    (fuel : nat) (char : Input) (charPos : option Position)
    (lx lx1 : ProgressiveLexer) (c : ascii) (col row : nat) :
  feed fuel char charPos lx = (lx1, Raise (LexerError c col row)) →
  restarted lx1 ∧
  pos lx1 = (0, 1) ∧
  consumer lx1 = None ∧ currentMatch lx1 = [] ∧ matches lx1 = [] ∧
  maxPos lx1 = 0 ∧ state lx1 = 0 ∧
  map entry_summary (currentState lx1) = map rule_summary _allTokens.
Proof.
  intros Hfeed. apply feed_error in Hfeed as Hrestarted.
  split; [done|]. destruct Hrestarted as [lx0 Hrestart].
  apply restartLexer_fields in Hrestart. naive_solver.
Qed.

Lemma LexerError_leaves_the_lexer_restarted_witness :
  let lx := (@ProgressiveLexer__new example_host one_rule_lexer).1 in
  let lx1 := (@feed example_host one_rule_lexer 1 (Char "b") None lx).1 in
  @restarted example_host one_rule_lexer lx1 ∧
  pos lx1 = (0, 1) ∧
  consumer lx1 = None ∧ currentMatch lx1 = [] ∧ matches lx1 = [] ∧
  maxPos lx1 = 0 ∧ state lx1 = 0 ∧
  map entry_summary (currentState lx1)
    = map rule_summary (@_allTokens one_rule_lexer).
Proof.
  intros lx lx1.
  apply (@LexerError_leaves_the_lexer_restarted example_host one_rule_lexer
           1 (Char "b") None lx lx1 "b" 1 1).
  vm_compute. reflexivity.
Defined.






End LexerTheorems.

(** * The FIRST sets of a grammar *)

Section GrammarTheorems.

Import Grammar.

Ltac which_production :=
  match goal with
  | H : _ ∈ productions nullable_prefix_grammar |- _ =>
      simpl in H;
      apply elem_of_cons in H as [->|H];
      [|apply elem_of_cons in H as [->|H]; [|by apply elem_of_nil in H]]
  end.

Lemma c_is_not_nullable : ¬ first_of nullable_prefix_grammar (Name "c") Epsilon.
Proof.
  intros Hc. inversion Hc; subst; [done|]. which_production; done.
Qed.

Lemma A_is_not_nullable : ¬ first_of nullable_prefix_grammar (Name "A") Epsilon.
Proof.
  intros HA. inversion HA as [| |prod Hin Hright Hname]; subst; [done|].
  which_production; [|done].
  simpl in Hright. inversion Hright as [|? ? _ Hrest]; subst.
  inversion Hrest as [|? ? Hc _]; subst. by apply c_is_not_nullable.
Qed.

Lemma first_of_B a : ¬ (first_of nullable_prefix_grammar (Name "B") a ∧ a ≠ Epsilon).
Proof.
  intros [HB Hne]. inversion HB as [t [Ht|Ht]|prod pre X post b Hin Hright|];
    subst; [done|done| |done].
  which_production; [done|]. by destruct pre.
Qed.

Lemma first_of_c a : first_of nullable_prefix_grammar (Name "c") a → a = Name "c".
Proof.
  intros Hc. inversion Hc as [|prod pre X post b Hin|prod Hin]; subst; [done|..];
    which_production; done.
Qed.

(** C8 (the code departs from it). prepare adds to the set of a
    nonterminal all the members of the set of a symbol of the right
    side, Epsilon included. For the grammar A -> B c, B -> (nothing),
    where c is a token type, it leaves the set of A as Epsilon and c,
    and first(A) is then Epsilon and c, although A does not derive the
    empty string: in the least solution of the recurrence FIRST(A) is
    c alone. *)
Theorem prepare_adds_epsilon_of_a_nullable_prefix :
  ∃ allFirsts,
    prepare nullable_prefix_grammar = Ok allFirsts ∧
    allFirsts !! Name "A" = Some {[Epsilon; Name "c"]} ∧
    first allFirsts [Name "A"] = Ok {[Epsilon; Name "c"]} ∧
    ¬ first_of nullable_prefix_grammar (Name "A") Epsilon ∧
    (∀ a, first_of nullable_prefix_grammar (Name "A") a ↔ a = Name "c").
Proof.
  eexists. split; [vm_compute; reflexivity|].
  split; [vm_compute; reflexivity|].
  split; [vm_compute; reflexivity|].
  split; [exact A_is_not_nullable|].
  intros a. split.
  - intros HA.
    inversion HA as [t [Ht|Ht]|prod pre X post b Hin Hright Hpre HX Hne Hname|];
      subst; [done|done| |by apply A_is_not_nullable in HA].
    which_production; [|done].
    simpl in Hright. destruct pre as [|Y pre].
    + injection Hright as <- <-. by destruct (first_of_B a).
    + injection Hright as <- Hright. destruct pre as [|Z pre].
      * injection Hright as <- <-. by apply first_of_c.
      * injection Hright as <- Hright. by destruct pre.
  - intros ->.
    apply (first_symbol nullable_prefix_grammar
             (mkProduction "A" [Name "B"; Name "c"]) [Name "B"] (Name "c") []);
      [set_solver|done| |by apply first_terminal; left|done].
    constructor; [|constructor].
    apply (first_epsilon nullable_prefix_grammar (mkProduction "B" []));
      [set_solver|constructor].
Qed.

End GrammarTheorems.

(** * The language of an expression *)

Section Language.

Context `{HostRegex}.

Implicit Types (T : list Transition) (cur C : gset State) (w : list ascii).

Lemma eps_closed_reach T (S0 : gset State) cur :
  (∀ x, x ∈ cur ↔ eps_reach T (.∈ S0) x) → eps_closed T cur.
Proof.
  intros Hcur s e Hs Hin. apply Hcur. eapply eps_reach_step; [|done].
  by apply Hcur.
Qed.

Lemma path_app_eps T (P : State → Prop) s w f :
  eps_reach T P s → path T s w f → ∃ y, P y ∧ path T y w f.
Proof.
  induction 1 as [y Hy|s e _ IH Hin]; intros Hpath; [eauto|].
  apply IH. by eapply path_eps.
Qed.

Lemma run_from_complete T s w f :
  path T s w f → ∀ cur, eps_closed T cur → s ∈ cur →
  ∃ C, run_from T cur w = Some C ∧ f ∈ C.
Proof.
  induction 1 as [s|s e w f Hin _ IH|s klass e c w f Hin Hc _ IH];
    intros cur Hclosed Hs.
  - by exists cur.
  - apply IH; [done|]. by eapply Hclosed.
  - cbn [run_from].
    destruct (closure_of_spec T cur c) as (X & -> & HX).
    destruct (epsilonClose_of_spec T X) as (C & -> & HC).
    assert (e ∈ C) as He.
    { apply HC, eps_reach_base, HX. by exists s, klass. }
    rewrite bool_decide_eq_false_2 by set_solver.
    apply IH; [|done]. by eapply eps_closed_reach.
Qed.

Lemma run_from_sound T w : ∀ cur C f,
  run_from T cur w = Some C → f ∈ C → ∃ s, s ∈ cur ∧ path T s w f.
Proof.
  induction w as [|c w IH]; intros cur C f.
  - intros [= <-] Hf. exists f. split; [done|constructor].
  - cbn [run_from].
    destruct (closure_of_spec T cur c) as (X & -> & HX).
    destruct (epsilonClose_of_spec T X) as (C1 & -> & HC1).
    case_bool_decide; [done|]. intros Hrun Hf.
    destruct (IH _ _ _ Hrun Hf) as (s1 & Hs1 & Hpath).
    apply HC1 in Hs1.
    destruct (path_app_eps _ _ _ _ _ Hs1 Hpath) as (y & Hy & Hpath').
    apply HX in Hy as (s & klass & Hin & Hs & Hc).
    exists s. split; [done|]. by eapply path_char.
Qed.

(* what match returns: whether a path from the start state to the
   final state spells the string *)
Lemma accepts_path T startState finalState w :
  accepts T startState finalState w = true ↔ path T startState w finalState.
Proof.
  unfold accepts.
  destruct (epsilonClose_of_spec T {[startState]}) as (C0 & -> & HC0).
  split.
  - destruct (run_from T C0 w) as [C|] eqn:Hrun; [|done].
    intros Hf%bool_decide_eq_true.
    destruct (run_from_sound _ _ _ _ _ Hrun Hf) as (s & Hs & Hpath).
    apply HC0 in Hs.
    destruct (path_app_eps _ _ _ _ _ Hs Hpath) as (y & Hy & Hpath').
    by apply elem_of_singleton in Hy as ->.
  - intros Hpath.
    destruct (run_from_complete _ _ _ _ Hpath C0) as (C & -> & Hf).
    + by eapply eps_closed_reach.
    + apply HC0, eps_reach_base. by apply elem_of_singleton.
    + by apply bool_decide_eq_true.
Qed.

(* the loop of match leaves the heap as it was but for the current set *)
Lemma feed_all_run w : ∀ h self o T cur,
  objects h !! self = Some o → lists h !! _transitions o = Some T →
  _currentState o = Some cur →
  ∃ C, (for_each w (λ char, feed self char ;; ret tt) ;;
        final_in_current self) h =
       (store h self (with_current o C),
        match run_from T cur w with
        | Some C => Ok (bool_decide (_finalState o ∈ C))
        | None => Raise DeadState
        end).
Proof.
  induction w as [|ch w IH]; intros h self o T cur Ho HT Hcur.
  - exists cur. cbn [for_each run_from]. unfold bind, ret.
    rewrite (final_in_current_ok _ _ _ _ Ho Hcur). f_equal.
    unfold store. destruct h as [n ls os]. simpl in *. f_equal.
    symmetry. apply insert_id. rewrite Ho. f_equal.
    destruct o. simpl in *. by subst.
  - destruct (feed_unfold h self o T cur ch Ho HT Hcur) as (X & C & HX & HC & Hfeed).
    cbn [for_each run_from]. rewrite HX, HC. unfold bind. rewrite Hfeed.
    destruct (bool_decide (C = ∅)); [eauto|].
    unfold ret.
    destruct (IH (store h self (with_current o C)) self (with_current o C) T C)
      as (C' & Hrest); [apply objects_store|done|done|].
    exists C'. rewrite store_store in Hrest. apply Hrest.
Qed.

End Language.

(** X1. match on an expression of the heap returns, and never raises:
    it returns True exactly when a path of the transitions of the
    expression leads from its start state to its final state and
    spells the string. It changes nothing in the heap but the current
    set of the expression. *)
Theorem match_decides_the_paths `{HostRegex} (h : Heap) (self : Ref)
    (o : RegularExpression) (T : list Transition) (w : list ascii) :
  objects h !! self = Some o →
  lists h !! _transitions o = Some T →
  ∃ (C : gset State) (b : bool),
    match_ self w h = (store h self (with_current o C), Ok b) ∧
    (b = true ↔ path T (_startState o) w (_finalState o)).
Proof.
  intros Ho HT. destruct (start_ok h self o T Ho HT) as (C0 & HC0 & Hstart).
  destruct (feed_all_run w (store h self (with_current o C0)) self
              (with_current o C0) T C0) as (C & Hrun);
    [apply objects_store|done|done|].
  rewrite store_store in Hrun.
  exists C, (accepts T (_startState o) (_finalState o) w).
  split; [|apply accepts_path].
  unfold match_, bind at 1. rewrite Hstart, Hrun.
  unfold accepts. rewrite HC0. simpl. by destruct (run_from T C0 w).
Qed.

Lemma match_decides_the_paths_witness :
  ∃ (C : gset State) (b : bool),
    @match_ example_host 0 (chars "a") example_heap
      = (store example_heap 0
           (with_current (mkRegularExpression 1 2 3 (Some {[2]}) {[2]}) C), Ok b) ∧
    (b = true ↔
     @path example_host [(2, Some (LitteralCharacterClass "a"), 3)] 2 (chars "a") 3).
Proof.
  apply (@match_decides_the_paths example_host example_heap 0
           (mkRegularExpression 1 2 3 (Some {[2]}) {[2]})
           [(2, Some (LitteralCharacterClass "a"), 3)] (chars "a"));
    reflexivity.
Defined.

(** * Dead ends, and the set _startStates *)

Section Inversion.

Context {S A B : Type}.

(* a sequence returns when both of its parts return *)
Lemma bind_Ok_inv (m : ST S A) (k : A → ST S B) s s' b :
  bind m k s = (s', Ok b) → ∃ s1 a, m s = (s1, Ok a) ∧ k a s1 = (s', Ok b).
Proof.
  unfold bind. destruct (m s) as [s1 [a|e|]]; [eauto|done..].
Qed.

End Inversion.

Tactic Notation "bind_inv" hyp(H) "as" ident(s) ident(a) ident(H1) :=
  apply bind_Ok_inv in H as (s & a & H1 & H).

Section DeadEnd.

Context `{HostRegex}.

Lemma elem_of_sources T s :
  s ∈ sources T ↔ ∃ tr e, (s, tr, e) ∈ T.
Proof.
  unfold sources. rewrite elem_of_list_to_set, list_elem_of_fmap. split.
  - intros ([[s' tr] e] & -> & Hin). eauto.
  - intros (tr & e & Hin). by exists (s, tr, e).
Qed.

Lemma isDeadEnd_true h self o cur :
  objects h !! self = Some o → _currentState o = Some cur →
  (isDeadEnd self h).2 = Ok true →
  cur ≠ ∅ ∧ ∀ s, s ∈ cur → s ∉ _startStates o.
Proof.
  intros Ho Hcur. unfold isDeadEnd, bind.
  rewrite (get_object_ok _ _ _ Ho), Hcur. simpl. intros [= Hb].
  apply andb_true_iff in Hb as [Hne Hall]. split.
  - by apply negb_true_iff, bool_decide_eq_false in Hne.
  - intros s Hs. rewrite forallb_forall in Hall.
    specialize (Hall s). rewrite <- list_elem_of_In, elem_of_elements in Hall.
    by apply Hall, negb_true_iff, bool_decide_eq_false in Hs.
Qed.

(* the last statements of every function that builds an expression *)
Lemma update_startStates_run result h h' c :
  (update_startStates result ;; ret result) h = (h', Ok c) →
  c = result ∧ startStates_ok h' c.
Proof.
  intros Hrun. bind_inv Hrun as h1 u Hupdate. injection Hrun as <- <-.
  split; [done|].
  unfold update_startStates in Hupdate. bind_inv Hupdate as h2 T HT.
  unfold transitions_of in HT. bind_inv HT as h3 o Ho.
  unfold get_object in Ho.
  destruct (objects h !! result) as [o'|] eqn:Hobj; [|done].
  injection Ho as <- <-.
  unfold read_list in HT.
  destruct (lists h !! _transitions o') as [T'|] eqn:Hlist; [|done].
  injection HT as <- <-.
  unfold set_startStates, bind in Hupdate.
  rewrite (get_object_ok _ _ _ Hobj) in Hupdate. injection Hupdate as <-.
  eexists _, T'. simpl. rewrite lookup_insert_eq. done.
Qed.

Ltac to_last_statements H :=
  lazymatch type of H with
  | bind (update_startStates ?r) _ _ = _ =>
      apply update_startStates_run in H as [-> H]; exact H
  | bind _ _ _ = _ =>
      let s := fresh in
      let a := fresh in
      let H1 := fresh in
      apply bind_Ok_inv in H as (s & a & H1 & H); clear H1;
      to_last_statements H
  end.

Lemma clone_startStates self h h' c :
  clone self h = (h', Ok c) → startStates_ok h' c.
Proof. unfold clone. intros Hrun. to_last_statements Hrun. Qed.

Lemma fromClass_startStates klass h h' c :
  fromClass klass h = (h', Ok c) → startStates_ok h' c.
Proof. unfold fromClass. intros Hrun. to_last_statements Hrun. Qed.

Lemma concat_startStates rxs h h' c :
  concat rxs h = (h', Ok c) → startStates_ok h' c.
Proof. unfold concat. intros Hrun. to_last_statements Hrun. Qed.

Lemma union_startStates rxs h h' c :
  union rxs h = (h', Ok c) → startStates_ok h' c.
Proof. unfold union. intros Hrun. to_last_statements Hrun. Qed.

Lemma kleene_startStates rx h h' c :
  kleene rx h = (h', Ok c) → startStates_ok h' c.
Proof. unfold kleene. intros Hrun. to_last_statements Hrun. Qed.

Lemma exponent_startStates rx minCount maxCount h h' c :
  exponent rx minCount maxCount h = (h', Ok c) → startStates_ok h' c.
Proof.
  unfold exponent, exponent_bounded. destruct maxCount as [maxCount|]; intros Hrun.
  - bind_inv Hrun as h1 alts Halts. by eapply union_startStates.
  - bind_inv Hrun as h1 r1 Hr1. bind_inv Hrun as h2 r2 Hr2.
    by eapply concat_startStates.
Qed.

End DeadEnd.

(** X2. When isDeadEnd returns True for an expression whose
    _startStates is up to date, the current set is not empty and none
    of its states is the source of a transition, and feed raises
    DeadState whatever the character. *)
Theorem feed_after_dead_end_raises_DeadState `{HostRegex} (h : Heap) (self : Ref)
    (o : RegularExpression) (T : list Transition) (cur : gset State) :
  objects h !! self = Some o →
  lists h !! _transitions o = Some T →
  _currentState o = Some cur →
  _startStates o = sources T →
  (isDeadEnd self h).2 = Ok true →
  cur ≠ ∅ ∧
  (∀ s tr e, s ∈ cur → (s, tr, e) ∉ T) ∧
  ∀ ch, feed self ch h = (store h self (with_current o ∅), Raise DeadState).
Proof.
  intros Ho HT Hcur Hsources Hdead.
  destruct (isDeadEnd_true h self o cur Ho Hcur Hdead) as [Hne Hout].
  assert (Hnone : ∀ s tr e, s ∈ cur → (s, tr, e) ∉ T).
  { intros s tr e Hs Hin. apply (Hout s Hs). rewrite Hsources.
    apply elem_of_sources. eauto. }
  split; [done|]. split; [done|]. intros ch.
  destruct (feed_unfold h self o T cur ch Ho HT Hcur) as (X & C & HX & HC & ->).
  destruct (closure_of_spec T cur ch) as (X' & HX' & Hmove).
  rewrite HX in HX'. injection HX' as <-.
  assert (X = ∅) as ->.
  { apply set_eq. intros x. rewrite Hmove. split; [|set_solver].
    intros (s & klass & Hin & Hs & _). by destruct (Hnone s (Some klass) x). }
  rewrite epsilonClose_of_empty in HC. injection HC as <-.
  by rewrite bool_decide_eq_true_2.
Qed.

Lemma feed_after_dead_end_raises_DeadState_witness :
  ({[3]} : gset State) ≠ ∅ ∧
  (∀ s tr e, s ∈ ({[3]} : gset State) →
     (s, tr, e) ∉ [(2, Some (LitteralCharacterClass "a"), 3)]) ∧
  ∀ ch, @feed example_host 0 ch example_heap_fed
        = (store example_heap_fed 0
             (with_current (mkRegularExpression 1 2 3 (Some {[3]}) {[2]}) ∅),
           Raise DeadState).
Proof.
  apply (@feed_after_dead_end_raises_DeadState example_host example_heap_fed 0
           (mkRegularExpression 1 2 3 (Some {[3]}) {[2]})
           [(2, Some (LitteralCharacterClass "a"), 3)] {[3]});
    reflexivity.
Defined.

(** X3. clone and the construction primitives fromClass, concat,
    union, kleene and exponent leave the expression they return with
    _startStates up to date: it is the set of the source states of the
    transitions of the expression. *)
Theorem primitives_set_startStates (h h' : Heap) (c : Ref) :
  (∀ self, clone self h = (h', Ok c) → startStates_ok h' c) ∧
  (∀ klass, fromClass klass h = (h', Ok c) → startStates_ok h' c) ∧
  (∀ rxs, concat rxs h = (h', Ok c) → startStates_ok h' c) ∧
  (∀ rxs, union rxs h = (h', Ok c) → startStates_ok h' c) ∧
  (∀ rx, kleene rx h = (h', Ok c) → startStates_ok h' c) ∧
  (∀ rx minCount maxCount,
     exponent rx minCount maxCount h = (h', Ok c) → startStates_ok h' c).
Proof.
  repeat split; intros.
  - by eapply clone_startStates.
  - by eapply fromClass_startStates.
  - by eapply concat_startStates.
  - by eapply union_startStates.
  - by eapply kleene_startStates.
  - by eapply exponent_startStates.
Qed.

Lemma primitives_set_startStates_witness :
  startStates_ok (kleene 0 example_heap).1 4.
Proof.
  apply (proj1 (proj2 (proj2 (proj2 (proj2
           (primitives_set_startStates example_heap (kleene 0 example_heap).1 4)))))
         0).
  vm_compute. reflexivity.
Defined.

(** * The tokenizer: composition, plain text, escapes and errors *)

Section Tokenizer.

Context `{HostRegex}.

Implicit Types (self : RegexTokenizer) (toks : list Token) (r : list ascii).

Lemma state_method_Some n m :
  state_method n = Some m →
  n = 0 ∨ n = 1 ∨ n = 2 ∨ n = 3 ∨ n = 9 ∨ n = 10 ∨ n = 11 ∨ n = 12.
Proof.
  do 13 (destruct n as [|n]; [naive_solver|]). done.
Qed.

Lemma view_state self : (view self).1.1.1 = _state self.
Proof.
  unfold view. destruct self as [st0 st cc v se]. simpl.
  do 13 (destruct st as [|st]; [done|]). done.
Qed.

(* one call of a state method on two tokenizers with the same view *)
Lemma state_method_view self self' stack stack' c toks toks' m :
  view self = view self' →
  state_method (_state self) = Some m →
  match m (set_stack self stack) c toks, m (set_stack self' stack') c toks' with
  | Ok (s1, t1, st1), Ok (s1', t1', st1') =>
      view (set_state s1 (default (_state s1) st1))
        = view (set_state s1' (default (_state s1') st1')) ∧
      ∃ d, t1 = toks ++ d ∧ t1' = toks' ++ d
  | Raise e, Raise e' => e = e'
  | OutOfFuel, OutOfFuel => True
  | _, _ => False
  end.
Proof.
  destruct self as [st0 st cc v se], self' as [st0' st' cc' v' se'].
  unfold view. simpl. intros Hview Hm.
  assert (st' = st) as ->.
  { pose proof (f_equal (λ x, x.1.1.1) Hview) as Hst. simpl in Hst.
    pose proof (view_state (mkRegexTokenizer st0 st cc v se)) as H1.
    pose proof (view_state (mkRegexTokenizer st0' st' cc' v' se')) as H2.
    unfold view in H1, H2. simpl in H1, H2. congruence. }
  pose proof (state_method_Some _ _ Hm) as Hst.
  destruct Hst as [->|[->|[->|[->|[->|[->|[->| ->]]]]]]];
    injection Hm as <-; simplify_eq;
    unfold _state0, _state1, _state2, _state3, _state9, _state10, _state11,
      _state12, write_currentClass, RegexCharacterClass__init__; simpl.
  all: repeat (match goal with
               | |- context [if ?b then _ else _] => destruct b eqn:?
               | |- context [match ?x with Some _ => _ | None => _ end] =>
                   destruct x eqn:?
               end; simpl).
  all: try done.
  all: try (split; [done|]; first [ by exists [] ; rewrite !app_nil_r | by eexists ]).
Qed.

(* the loop of tokens() on two tokenizers with the same view *)
Lemma tokens_loop_view stack : ∀ self self' toks toks',
  view self = view self' →
  same_run toks toks' (tokens_loop stack self toks) (tokens_loop stack self' toks').
Proof.
  induction stack as [|c stack IH]; intros self self' toks toks' Hview.
  - simpl. split; [|exists []; by rewrite !app_nil_r].
    revert Hview. unfold view. by destruct self, self'.
  - rewrite !tokens_loop_cons.
    assert (_state self' = _state self) as Hst.
    { by rewrite <- !view_state, Hview. }
    rewrite Hst.
    destruct (state_method (_state self)) as [m|] eqn:Hm; [|done].
    pose proof (state_method_view self self' stack stack c toks toks' m Hview Hm)
      as Hstep.
    destruct (m (set_stack self stack) c toks) as [[[s1 t1] st1]|e|],
      (m (set_stack self' stack) c toks') as [[[s1' t1'] st1']|e'|];
      try done.
    destruct Hstep as [Hview1 (d & -> & ->)].
    specialize (IH _ _ (toks ++ d) (toks' ++ d) Hview1).
    unfold same_run in *.
    destruct (tokens_loop stack (set_state s1 _) (toks ++ d)) as [[s2 t2]|e|],
      (tokens_loop stack (set_state s1' _) (toks' ++ d)) as [[s2' t2']|e'|];
      try done.
    destruct IH as [Hview2 (d' & -> & ->)]. split; [done|].
    exists (d ++ d'). by rewrite !app_assoc.
Qed.

(* the loop of tokens() on a text in two parts *)
Lemma tokens_loop_app r2 r1 : ∀ self self' toks,
  view self = view self' →
  match tokens_loop r1 self' toks with
  | Ok (self1, toks1) =>
      same_run [] [] (tokens_loop (r1 ++ r2) self toks) (tokens_loop r2 self1 toks1)
  | Raise e => tokens_loop (r1 ++ r2) self toks = Raise e
  | OutOfFuel => tokens_loop (r1 ++ r2) self toks = OutOfFuel
  end.
Proof.
  induction r1 as [|c r1 IH]; intros self self' toks Hview.
  - simpl.
    assert (view self = view (set_stack self' [])) as Hview'.
    { rewrite Hview. unfold view. by destruct self'. }
    pose proof (tokens_loop_view r2 _ _ toks toks Hview') as Hsame.
    unfold same_run in *. repeat case_match; try done.
    destruct Hsame as [? (d & -> & ->)]. split; [done|]. by eexists.
  - rewrite <- app_comm_cons, !tokens_loop_cons.
    assert (_state self' = _state self) as Hst.
    { by rewrite <- !view_state, Hview. }
    rewrite Hst.
    destruct (state_method (_state self)) as [m|] eqn:Hm; [|done].
    pose proof (state_method_view self self' (r1 ++ r2) r1 c toks toks m Hview Hm)
      as Hstep.
    destruct (m (set_stack self (r1 ++ r2)) c toks) as [[[s1 t1] st1]|e|],
      (m (set_stack self' r1) c toks) as [[[s1' t1'] st1']|e'|];
      try done; [|by subst].
    destruct Hstep as [Hview1 (d & -> & ->)].
    apply (IH _ _ (toks ++ d) Hview1).
Qed.

(* a state method leaves the tokenizer in a state that has a method *)
Lemma state_method_next self c toks m s1 t1 st1 :
  state_method (_state self) = Some m →
  m self c toks = Ok (s1, t1, st1) →
  _state s1 = _state self ∧
  is_Some (state_method (default (_state self) st1)).
Proof.
  destruct self as [st0 st cc v se]. simpl. intros Hm.
  pose proof (state_method_Some _ _ Hm) as Hst.
  destruct Hst as [->|[->|[->|[->|[->|[->|[->| ->]]]]]]];
    injection Hm as <-;
    unfold _state0, _state1, _state2, _state3, _state9, _state10, _state11,
      _state12, write_currentClass, RegexCharacterClass__init__; simpl.
  all: repeat (match goal with
               | |- context [if ?b then _ else _] => destruct b eqn:?
               | |- context [match ?x with Some _ => _ | None => _ end] =>
                   destruct x eqn:?
               end; simpl).
  all: try done.
  all: intros [= <- <- <-]; simpl; eauto.
Qed.

Lemma tokens_loop_state stack : ∀ self toks self1 toks1,
  is_Some (state_method (_state self)) →
  tokens_loop stack self toks = Ok (self1, toks1) →
  is_Some (state_method (_state self1)).
Proof.
  induction stack as [|c stack IH]; intros self toks self1 toks1 Hsome.
  - simpl. intros [= <- <-]. by destruct self.
  - rewrite tokens_loop_cons. destruct Hsome as [m Hm]. rewrite Hm.
    destruct (m (set_stack self stack) c toks) as [[[s1 t1] st1]|e|] eqn:Hstep;
      [|done..].
    apply (state_method_next (set_stack self stack)) in Hstep as [Hst Hnext];
      [|by destruct self].
    apply IH. destruct self as [st0 st cc v se], s1 as [st0' st' cc' v' se'].
    simpl in *. by subst.
Qed.

(* tokens() returns when the loop ends in the normal state *)
Lemma tokens_Ok r toks :
  tokens (RegexTokenizer__init__ r) = Ok toks →
  ∃ self1, tokens_loop r (RegexTokenizer__init__ r) [] = Ok (self1, toks) ∧
           _state self1 = 0.
Proof.
  unfold tokens. simpl.
  destruct (tokens_loop r (RegexTokenizer__init__ r) []) as [[self1 toks1]|e|] eqn:Hrun;
    [|done..].
  apply tokens_loop_state in Hrun as Hsome; [|by eexists].
  destruct Hsome as [m Hm]. apply state_method_Some in Hm.
  destruct Hm as [Hs|[Hs|[Hs|[Hs|[Hs|[Hs|[Hs|Hs]]]]]]]; rewrite Hs; simpl;
    try done.
  intros [= <-]. eauto.
Qed.

(* the tokens of a text in two parts, the first of which is the text
   of an expression *)
Lemma tokens_app r1 r2 toks1 :
  tokens (RegexTokenizer__init__ r1) = Ok toks1 →
  tokens (RegexTokenizer__init__ (r1 ++ r2)) =
    match tokens (RegexTokenizer__init__ r2) with
    | Ok toks2 => Ok (toks1 ++ toks2)
    | Raise e => Raise e
    | OutOfFuel => OutOfFuel
    end.
Proof.
  intros Hr1. apply tokens_Ok in Hr1 as (self1 & Hrun1 & Hst1).
  pose proof (tokens_loop_app r2 r1 (RegexTokenizer__init__ (r1 ++ r2))
                (RegexTokenizer__init__ r1) [] eq_refl) as Happ.
  rewrite Hrun1 in Happ.
  assert (view self1 = view (RegexTokenizer__init__ r2)) as Hview.
  { unfold view. rewrite Hst1. done. }
  pose proof (tokens_loop_view r2 _ _ toks1 [] Hview) as Hsame.
  unfold tokens. simpl. unfold same_run in *.
  destruct (tokens_loop (r1 ++ r2) (RegexTokenizer__init__ (r1 ++ r2)) [])
    as [[self3 toks3]|e|],
    (tokens_loop r2 self1 toks1) as [[self4 toks4]|e'|],
    (tokens_loop r2 (RegexTokenizer__init__ r2) []) as [[self5 toks5]|e''|];
    try done; [|congruence].
  destruct Happ as [Hv34 (d & -> & ->)].
  destruct Hsame as [Hv45 (d' & -> & ->)]. simpl.
  assert (_state self3 = _state self5) as ->.
  { by rewrite <- !view_state, Hv34, Hv45. }
  by repeat case_match.
Qed.

Lemma not_special c :
  c ∉ special →
  Ascii.eqb c "*" = false ∧ Ascii.eqb c "+" = false ∧ Ascii.eqb c "." = false ∧
  Ascii.eqb c "(" = false ∧ Ascii.eqb c ")" = false ∧ Ascii.eqb c "|" = false ∧
  Ascii.eqb c "[" = false ∧ Ascii.eqb c "{" = false ∧ Ascii.eqb c "]" = false ∧
  Ascii.eqb c "}" = false ∧ Ascii.eqb c "\" = false.
Proof.
  intros Hc. repeat split; apply Ascii.eqb_neq; intros ->; apply Hc;
    unfold special; set_solver.
Qed.

Lemma tokens_plain c :
  c ∉ special →
  tokens (RegexTokenizer__init__ [c]) = Ok [TOK_CLASS (LitteralCharacterClass c)].
Proof.
  intros Hc. apply not_special in Hc
    as (H1 & H2 & H3 & H4 & H5 & H6 & H7 & H8 & H9 & H10 & H11).
  unfold tokens. simpl. unfold _state0, in_chars. simpl.
  by rewrite H1, H2, H3, H4, H5, H6, H7, H8, H9, H10, H11.
Qed.

Lemma tokens_escape c :
  tokens (RegexTokenizer__init__ ["\"%char; c]) =
    if in_chars c ["d"; "s"; "w"; "D"; "S"; "W"]%char then
      if re_compile ["\"%char; c]
      then Ok [TOK_CLASS (RegexCharacterClass ["\"%char; c])]
      else Raise InvalidClassError
    else Ok [TOK_CLASS (escaped c)].
Proof.
  destruct (in_chars c _) eqn:Hin;
    unfold tokens; cbn -[_state1];
    unfold _state1, RegexCharacterClass__init__, escaped; rewrite Hin.
  - destruct (re_compile _); reflexivity.
  - destruct (Ascii.eqb c "n"), (Ascii.eqb c "t"); reflexivity.
Qed.

(* the states 2 and 3: inside a character class *)
Lemma class_loop body : ∀ stack buf toks,
  class_text body →
  tokens_loop (body ++ ["]"%char]) (mkRegexTokenizer stack 2 (Some buf) 0 None) toks =
    if re_compile (buf ++ body ++ ["]"%char])
    then Ok (mkRegexTokenizer [] 0 None 0 None,
             toks ++ [TOK_CLASS (RegexCharacterClass (buf ++ body ++ ["]"%char]))])
    else Raise InvalidClassError.
Proof.
  intros stack buf toks Hbody. revert stack buf.
  induction Hbody as [|c body Hc1 Hc2 _ IH|c body _ IH]; intros stack buf.
  - simpl. unfold _state2, write_currentClass, RegexCharacterClass__init__. simpl.
    by destruct (re_compile _).
  - rewrite <- app_comm_cons, tokens_loop_cons. simpl.
    unfold _state2, write_currentClass. simpl.
    rewrite (proj2 (Ascii.eqb_neq _ _) Hc1), (proj2 (Ascii.eqb_neq _ _) Hc2).
    unfold set_state, set_currentClass, set_stack. simpl.
    rewrite IH. by rewrite <- !app_assoc.
  - rewrite <- !app_comm_cons, tokens_loop_cons. simpl.
    unfold _state3, write_currentClass. simpl.
    unfold set_state, set_currentClass, set_stack. simpl.
    rewrite IH. by rewrite <- !app_assoc.
Qed.

Lemma tokens_class body :
  class_text body →
  tokens (RegexTokenizer__init__ ("["%char :: body ++ ["]"%char])) =
    if re_compile ("["%char :: body ++ ["]"%char])
    then Ok [TOK_CLASS (RegexCharacterClass ("["%char :: body ++ ["]"%char]))]
    else Raise InvalidClassError.
Proof.
  intros Hbody. unfold tokens. simpl. unfold set_state, set_currentClass, set_stack.
  simpl. rewrite (class_loop body _ ["["%char] [] Hbody). simpl.
  by destruct (re_compile _).
Qed.

(* no closing bracket: the loop ends inside the class *)
Lemma open_class_loop body : ∀ stack st buf v se toks,
  "]"%char ∉ body → st = 2 ∨ st = 3 →
  ∃ self1, tokens_loop body (mkRegexTokenizer stack st (Some buf) v se) toks
             = Ok (self1, toks) ∧
           (_state self1 = 2 ∨ _state self1 = 3).
Proof.
  induction body as [|c body IH]; intros stack st buf v se toks Hn Hst.
  - eexists. split; [done|]. done.
  - rewrite tokens_loop_cons. simpl.
    assert (Ascii.eqb c "]" = false) as Hc.
    { apply Ascii.eqb_neq. intros ->. apply Hn. left. }
    assert ("]"%char ∉ body) as Hn' by (intros ?; apply Hn; by right).
    destruct Hst as [-> | ->]; simpl.
    + unfold _state2, write_currentClass. simpl. rewrite Hc.
      destruct (Ascii.eqb c "\"); simpl.
      * apply IH; [done|by right].
      * apply IH; [done|by left].
    + unfold _state3, write_currentClass. simpl. apply IH; [done|by left].
Qed.

Lemma tokens_open_class body :
  "]"%char ∉ body →
  tokens (RegexTokenizer__init__ ("["%char :: body)) = Raise UnterminatedClassError.
Proof.
  intros Hn. unfold tokens. simpl. unfold set_state, set_currentClass, set_stack.
  simpl.
  destruct (open_class_loop body body 2 ["["%char] 0 None [] Hn) as (self1 & -> & Hst);
    [by left|].
  by destruct Hst as [-> | ->].
Qed.

(* no closing brace: the exponent is invalid or does not end *)
Lemma open_exponent_loop body : ∀ stack st cc v se toks,
  "}"%char ∉ body → st = 9 ∨ st = 10 ∨ st = 11 ∨ st = 12 →
  tokens_loop body (mkRegexTokenizer stack st cc v se) toks
    = Raise InvalidExponentError ∨
  ∃ self1, tokens_loop body (mkRegexTokenizer stack st cc v se) toks
             = Ok (self1, toks) ∧
           (_state self1 = 9 ∨ _state self1 = 10 ∨ _state self1 = 11 ∨
            _state self1 = 12).
Proof.
  induction body as [|c body IH]; intros stack st cc v se toks Hn Hst.
  - right. eexists. split; [done|]. done.
  - rewrite tokens_loop_cons. simpl.
    assert (Ascii.eqb c "}" = false) as Hc.
    { apply Ascii.eqb_neq. intros ->. apply Hn. left. }
    assert ("}"%char ∉ body) as Hn' by (intros ?; apply Hn; by right).
    destruct Hst as [-> |[-> |[-> | ->]]]; simpl.
    + unfold _state9. destruct (isdigit c); simpl; [|by left].
      apply IH; [done|tauto].
    + unfold _state10. rewrite Hc.
      destruct (Ascii.eqb c "-"); simpl; [apply IH; [done|tauto]|].
      destruct (isdigit c); simpl; [|by left]. apply IH; [done|tauto].
    + unfold _state11. rewrite Hc.
      destruct (isdigit c); simpl; [|by left]. apply IH; [done|tauto].
    + unfold _state12. rewrite Hc.
      destruct (isdigit c); simpl; [|by left]. apply IH; [done|tauto].
Qed.

Lemma tokens_open_exponent body :
  "}"%char ∉ body →
  tokens (RegexTokenizer__init__ ("{"%char :: body)) = Raise InvalidExponentError.
Proof.
  intros Hn. unfold tokens. simpl. unfold set_state, set_stack. simpl.
  destruct (open_exponent_loop body body 9 None 0 None [] Hn) as [-> | (self1 & -> & Hst)];
    [tauto|done|].
  by destruct Hst as [-> |[-> |[-> | ->]]].
Qed.

End Tokenizer.

(** X4. Tokenization composes: when the text r1 is the text of an
    expression (tokens() returns for it), the tokens of r1 followed by
    r2 are the tokens of r1 followed by the tokens of r2, and when
    tokens() raises an exception for r2 it raises the same for r1
    followed by r2. *)
Theorem tokens_of_two_parts `{HostRegex} (r1 r2 : list ascii) (toks1 : list Token) :
  tokens (RegexTokenizer__init__ r1) = Ok toks1 →
  tokens (RegexTokenizer__init__ (r1 ++ r2)) =
    match tokens (RegexTokenizer__init__ r2) with
    | Ok toks2 => Ok (toks1 ++ toks2)
    | Raise e => Raise e
    | OutOfFuel => OutOfFuel
    end.
Proof. apply tokens_app. Qed.

Lemma tokens_of_two_parts_witness :
  @tokens example_host (RegexTokenizer__init__ (chars "a*" ++ chars "(b"))
    = Ok ([TOK_CLASS (LitteralCharacterClass "a"); TOK_EXPONENT 0 None]
          ++ [TOK_LPAREN; TOK_CLASS (LitteralCharacterClass "b")]).
Proof.
  apply (@tokens_of_two_parts example_host (chars "a*") (chars "(b")).
  reflexivity.
Defined.

(** X5. A text without any of the characters * + . ( ) | [ ] { } and
    backslash is tokenized character by character: its tokens are the
    literal classes of its characters, in order. *)
Theorem tokens_of_plain_text `{HostRegex} (r : list ascii) :
  (∀ c, c ∈ r → c ∉ special) →
  tokens (RegexTokenizer__init__ r) = Ok (litteral_tokens r).
Proof.
  induction r as [|c r IH]; intros Hplain; [done|].
  change (c :: r) with ([c] ++ r).
  rewrite (tokens_app [c] r [TOK_CLASS (LitteralCharacterClass c)]).
  - rewrite IH; [done|]. intros c' Hc'. apply Hplain. by right.
  - apply tokens_plain, Hplain. by left.
Qed.

Lemma tokens_of_plain_text_witness :
  @tokens example_host (RegexTokenizer__init__ (chars "if"))
    = Ok (litteral_tokens (chars "if")).
Proof.
  apply (@tokens_of_plain_text example_host (chars "if")).
  intros c Hc. apply (bool_decide_unpack _).
  revert c Hc. apply Forall_forall. repeat constructor.
Defined.

(** X6. After the text of an expression, a backslash followed by a
    character c other than d, s, w, D, S and W gives one token, the
    literal class of c itself, or of the newline for n and of the tab
    for t, whatever c means unescaped; the rest of the text is
    tokenized as on its own. *)
Theorem tokens_of_escaped_character `{HostRegex} (r1 r2 : list ascii)
    (toks1 : list Token) (c : ascii) :
  tokens (RegexTokenizer__init__ r1) = Ok toks1 →
  in_chars c ["d"; "s"; "w"; "D"; "S"; "W"]%char = false →
  tokens (RegexTokenizer__init__ (r1 ++ "\"%char :: c :: r2)) =
    match tokens (RegexTokenizer__init__ r2) with
    | Ok toks2 => Ok (toks1 ++ TOK_CLASS (escaped c) :: toks2)
    | Raise e => Raise e
    | OutOfFuel => OutOfFuel
    end.
Proof.
  intros Hr1 Hc.
  rewrite (tokens_app r1 _ toks1 Hr1).
  change ("\"%char :: c :: r2) with (["\"%char; c] ++ r2).
  rewrite (tokens_app ["\"%char; c] r2 [TOK_CLASS (escaped c)]).
  - by destruct (tokens (RegexTokenizer__init__ r2)).
  - by rewrite tokens_escape, Hc.
Qed.

Lemma tokens_of_escaped_character_witness :
  @tokens example_host (RegexTokenizer__init__ (chars "a" ++ "\"%char :: "*"%char :: chars "b"))
    = Ok ([TOK_CLASS (LitteralCharacterClass "a")]
          ++ TOK_CLASS (escaped "*") :: [TOK_CLASS (LitteralCharacterClass "b")]).
Proof.
  apply (@tokens_of_escaped_character example_host (chars "a") (chars "b")
           [TOK_CLASS (LitteralCharacterClass "a")] "*"); reflexivity.
Defined.

(** X7. After the text of an expression, a bracketed character class
    is one token: the text from the opening bracket to the first
    closing bracket that no backslash precedes is handed as it is,
    backslashes included, to the host regular expressions, and
    InvalidClassError is raised when the host does not compile it. *)
Theorem tokens_of_character_class `{HostRegex} (r1 r2 body : list ascii)
    (toks1 : list Token) :
  tokens (RegexTokenizer__init__ r1) = Ok toks1 →
  class_text body →
  let pattern := "["%char :: body ++ ["]"%char] in
  tokens (RegexTokenizer__init__ (r1 ++ pattern ++ r2)) =
    if re_compile pattern then
      match tokens (RegexTokenizer__init__ r2) with
      | Ok toks2 => Ok (toks1 ++ TOK_CLASS (RegexCharacterClass pattern) :: toks2)
      | Raise e => Raise e
      | OutOfFuel => OutOfFuel
      end
    else Raise InvalidClassError.
Proof.
  intros Hr1 Hbody pattern.
  rewrite (tokens_app r1 _ toks1 Hr1).
  pose proof (tokens_class body Hbody) as Hclass. fold pattern in Hclass.
  destruct (re_compile pattern).
  - rewrite (tokens_app pattern r2 _ Hclass).
    by destruct (tokens (RegexTokenizer__init__ r2)).
  - pose proof (tokens_loop_app r2 pattern (RegexTokenizer__init__ (pattern ++ r2))
                  (RegexTokenizer__init__ pattern) [] eq_refl) as Happ.
    unfold tokens. cbn [_stack RegexTokenizer__init__].
    destruct (tokens_loop pattern (RegexTokenizer__init__ pattern) [])
      as [[self1 t1]|e|] eqn:Hloop.
    + apply tokens_loop_state in Hloop as Hsome; [|by eexists].
      unfold tokens in Hclass. cbn [_stack RegexTokenizer__init__] in Hclass.
      rewrite Hloop in Hclass.
      destruct Hsome as [m Hm]. apply state_method_Some in Hm.
      destruct Hm as [Hs|[Hs|[Hs|[Hs|[Hs|[Hs|[Hs|Hs]]]]]]];
        rewrite Hs in Hclass; done.
    + unfold tokens in Hclass. cbn [_stack RegexTokenizer__init__] in Hclass.
      rewrite Hloop in Hclass. injection Hclass as ->. by rewrite Happ.
    + unfold tokens in Hclass. cbn [_stack RegexTokenizer__init__] in Hclass.
      by rewrite Hloop in Hclass.
Qed.

Lemma tokens_of_character_class_witness :
  @tokens example_host
     (RegexTokenizer__init__ (chars "a" ++ ("["%char :: chars "0-9" ++ ["]"%char]) ++ chars "+"))
    = Ok ([TOK_CLASS (LitteralCharacterClass "a")]
          ++ TOK_CLASS (RegexCharacterClass ("["%char :: chars "0-9" ++ ["]"%char]))
             :: [TOK_EXPONENT 1 None]).
Proof.
  apply (@tokens_of_character_class example_host (chars "a") (chars "+") (chars "0-9")
           [TOK_CLASS (LitteralCharacterClass "a")]); [reflexivity|].
  repeat (apply class_text_char; [discriminate|discriminate|]).
  apply class_text_nil.
Defined.



(** * The parser of regular expressions *)

Section Parser.

Context `{HostRegex}.

Implicit Types (h : Heap) (tokens : list Token) (pos len lo : nat).

Lemma startStates_ok_is_Some h e : startStates_ok h e → is_Some (objects h !! e).
Proof. intros (o & T & -> & _). eauto. Qed.

Lemma startStates_ok_stable h h1 e :
  startStates_ok h e → heap_ok h → unchanged h h1 → startStates_ok h1 e.
Proof.
  intros (o & T & Ho & HT & Hs) Hok [_ Hun].
  destruct (proj1 Hok _ _ Ho) as (He & Hl & _).
  exists o, T. destruct (Hun e He) as [_ ->]. destruct (Hun _ Hl) as [-> _]. done.
Qed.

Lemma parsed_weaken h h1 len pos pos1 lo lo1 (strict strict1 : bool) res :
  parsed h1 len pos1 lo1 strict1 res →
  unchanged h h1 → lo ≤ lo1 →
  (if strict then pos < pos1 ∨ (strict1 = true ∧ pos ≤ pos1) else pos ≤ pos1) →
  parsed h len pos lo strict res.
Proof.
  intros (Hok & Hun & Hres) Hun1 Hlo Hpos. split; [done|].
  split; [by eapply unchanged_trans|].
  destruct res as [h2 [[e p]|e|]]; simpl in *; [|done..].
  destruct Hres as (He & Hle & Hp & Hlen). split; [done|]. split; [lia|].
  split; [|done]. destruct strict, strict1; naive_solver lia.
Qed.

(* a call and what follows it *)
Lemma parsed_bind h len pos lo lo1 (strict1 strict : bool)
    (m : M (Ref * nat)) (k : Ref * nat → M (Ref * nat)) :
  parsed h len pos lo1 strict1 (m h) →
  (∀ h1 e p, heap_ok h1 → unchanged h h1 → startStates_ok h1 e → lo1 ≤ e →
     (if strict1 then pos < p else pos ≤ p) → p ≤ len →
     parsed h len pos lo strict (k (e, p) h1)) →
  parsed h len pos lo strict (bind m k h).
Proof.
  intros (Hok & Hun & Hres) Hk. unfold bind.
  destruct (m h) as [h1 [[e p]|e|]]; simpl in *; [|done..].
  destruct Hres as (He & Hle & Hp & Hlen). by apply Hk.
Qed.

(* the result of a primitive, as the result of a parser method *)
Lemma parsed_primitive h len pos p lo (strict : bool) (m : M Ref) :
  (∃ h1 c, m h = (h1, Ok c) ∧
           heap_ok h1 ∧ unchanged h h1 ∧ fresh_expression h h1 c) →
  (∀ h1 c, m h = (h1, Ok c) → startStates_ok h1 c) →
  lo ≤ next_id h →
  (if strict then pos < p else pos ≤ p) → p ≤ len →
  parsed h len pos lo strict ((let! e := m in ret (e, p)) h).
Proof.
  intros (h1 & c & Hrun & Hok1 & Hun1 & Hc & _) Hstart Hlo Hp Hlen.
  unfold bind, ret. rewrite Hrun. split; [done|]. split; [done|]. simpl.
  split; [by eapply Hstart|]. split; [lia|done].
Qed.

Lemma parse_R3_parsed tokens fuel : ∀ left pos h lo,
  heap_ok h → startStates_ok h left → lo ≤ left → lo ≤ next_id h →
  pos ≤ length tokens → length tokens - pos + 1 ≤ fuel →
  parsed h (length tokens) pos lo false (_parse_R3 fuel left tokens pos h).
Proof.
  induction fuel as [|fuel IH]; intros left pos h lo Hok Hleft Hlo Hlo' Hpos Hfuel;
    [lia|].
  cbn [_parse_R3].
  destruct (negb (pos =? length tokens) && is_exponent (tokens !! pos)) eqn:Hcond.
  - apply andb_true_iff in Hcond as [Hne Hexp].
    apply negb_true_iff, Nat.eqb_neq in Hne.
    destruct (tokens !! pos) as [[| minCount maxCount | | |]|]; try done.
    destruct (exponent_post left minCount maxCount h Hok)
      as (h1 & c & Hrun & Hok1 & Hun1 & Hc); [by apply startStates_ok_is_Some|].
    unfold bind. rewrite Hrun.
    eapply parsed_weaken; [apply IH| |reflexivity|simpl; lia]; try done.
    + by eapply exponent_startStates.
    + destruct Hc as [Hc _]. lia.
    + destruct Hun1. lia.
    + lia.
    + lia.
  - split; [done|]. split; [apply unchanged_refl|]. simpl. done.
Qed.

Lemma parsed_raise h len pos lo (strict : bool) :
  heap_ok h → parsed h len pos lo strict (h, Raise RegexParseError).
Proof. intros Hok. split; [done|]. split; [apply unchanged_refl|done]. Qed.

Lemma parsed_ret h len pos lo (strict : bool) e p :
  heap_ok h → startStates_ok h e → lo ≤ e →
  (if strict then pos < p else pos ≤ p) → p ≤ len →
  parsed h len pos lo strict (h, Ok (e, p)).
Proof. intros Hok. split; [done|]. split; [apply unchanged_refl|done]. Qed.

(* the depth each method needs at a position, and what it leaves *)
Lemma parse_methods_parsed tokens fuel :
  let len := length tokens in
  (∀ pos h lo, heap_ok h → pos ≤ len → lo ≤ next_id h →
     4 * (len - pos) + 1 ≤ fuel →
     parsed h len pos lo true (_parse_E fuel tokens pos h)) ∧
  (∀ pos h lo, heap_ok h → pos ≤ len → lo ≤ next_id h →
     4 * (len - pos) + 2 ≤ fuel →
     parsed h len pos lo true (_parse_E3 fuel tokens pos h)) ∧
  (∀ pos h lo, heap_ok h → pos ≤ len → lo ≤ next_id h →
     4 * (len - pos) + 3 ≤ fuel →
     parsed h len pos lo true (_parse_E2 fuel tokens pos h)) ∧
  (∀ pos h lo, heap_ok h → pos ≤ len → lo ≤ next_id h →
     4 * (len - pos) + 4 ≤ fuel →
     parsed h len pos lo true (_parse_E1 fuel tokens pos h)) ∧
  (∀ pos h lo left, heap_ok h → pos ≤ len → lo ≤ next_id h →
     startStates_ok h left → lo ≤ left →
     4 * (len - pos) + 3 ≤ fuel →
     parsed h len pos lo false (_parse_R2 fuel left tokens pos h)) ∧
  (∀ pos h lo left, heap_ok h → pos ≤ len → lo ≤ next_id h →
     startStates_ok h left → lo ≤ left →
     4 * (len - pos) + 1 ≤ fuel →
     parsed h len pos lo false (_parse_R1 fuel left tokens pos h)).
Proof.
  intros len. unfold len. clear len.
  induction fuel as [|fuel (IHE & IHE3 & IHE2 & IHE1 & IHR2 & IHR1)].
  { split; [|split; [|split; [|split; [|split]]]]; intros; lia. }
  split; [|split; [|split; [|split; [|split]]]].
  - (* _parse_E *)
    intros pos h lo Hok Hpos Hlo Hfuel. cbn [_parse_E].
    destruct (pos =? length tokens) eqn:Hend; [by apply parsed_raise|].
    apply Nat.eqb_neq in Hend.
    destruct (lookup_lt_is_Some_2 tokens pos) as [t Ht]; [lia|].
    rewrite Ht. destruct t as [value| | | |]; try by apply parsed_raise.
    + apply parsed_primitive; [by apply fromClass_post| |done|lia|lia].
      intros h1 c. apply fromClass_startStates.
    + eapply parsed_bind.
      * eapply (parsed_weaken h h (length tokens) pos (pos + 1) lo lo true true);
          [apply IHE1; try done; lia|apply unchanged_refl|done|lia].
      * intros h1 e p Hok1 Hun1 He Hle Hp Hlen. simpl. simpl in Hp.
        destruct ((p =? length tokens) || negb (is_rparen (tokens !! p))) eqn:Hc.
        -- split; [done|]. split; [done|]. done.
        -- apply orb_false_iff in Hc as [Hne%Nat.eqb_neq _].
           split; [done|]. split; [done|]. simpl.
           repeat split; [done|done|lia|lia].
  - (* _parse_E3 *)
    intros pos h lo Hok Hpos Hlo Hfuel. cbn [_parse_E3].
    eapply parsed_bind; [apply (IHE pos h lo); try done; lia|].
    intros h1 e p Hok1 Hun1 He Hle Hp Hlen. simpl. simpl in Hp.
    eapply (parsed_weaken h h1 (length tokens) pos p lo lo true false);
      [apply parse_R3_parsed; try done|done|done|lia].
    + destruct Hun1. lia.
    + lia.
  - (* _parse_E2 *)
    intros pos h lo Hok Hpos Hlo Hfuel. cbn [_parse_E2].
    eapply parsed_bind; [apply (IHE3 pos h lo); try done; lia|].
    intros h1 e p Hok1 Hun1 He Hle Hp Hlen. simpl. simpl in Hp.
    eapply (parsed_weaken h h1 (length tokens) pos p lo lo true false);
      [apply IHR2; try done|done|done|lia].
    + destruct Hun1. lia.
    + lia.
  - (* _parse_E1 *)
    intros pos h lo Hok Hpos Hlo Hfuel. cbn [_parse_E1].
    eapply parsed_bind; [apply (IHE2 pos h lo); try done; lia|].
    intros h1 e p Hok1 Hun1 He Hle Hp Hlen. simpl. simpl in Hp.
    eapply (parsed_weaken h h1 (length tokens) pos p lo lo true false);
      [apply IHR1; try done|done|done|lia].
    + destruct Hun1. lia.
    + lia.
  - (* _parse_R2 *)
    intros pos h lo left Hok Hpos Hlo Hleft Hle Hfuel. cbn [_parse_R2].
    assert (parsed h (length tokens) pos lo true
              ((let! (tempExpr, tempPos) := _parse_E3 fuel tokens pos in
                _parse_R2 fuel tempExpr tokens tempPos) h)) as Hlook.
    { eapply parsed_bind; [apply (IHE3 pos h lo); try done; lia|].
      intros h1 e p Hok1 Hun1 He Hle1 Hp Hlen. simpl. simpl in Hp.
      eapply (parsed_weaken h h1 (length tokens) pos p lo lo true false);
        [apply IHR2; try done|done|done|lia].
      + destruct Hun1. lia.
      + lia. }
    destruct ((let! (tempExpr, tempPos) := _parse_E3 fuel tokens pos in
               _parse_R2 fuel tempExpr tokens tempPos) h)
      as [h1 [[e p]|e|]]; destruct Hlook as (Hok1 & Hun1 & Hres); simpl in *;
      [|subst e|done].
    + assert (startStates_ok h1 left) as Hleft1
        by (by eapply startStates_ok_stable).
      assert (lo ≤ next_id h1) as Hlo1 by (destruct Hun1; lia).
      eapply (parsed_weaken h h1 (length tokens) pos pos lo lo false false);
        [|done|done|lia].
      eapply (parsed_bind h1 (length tokens) pos lo lo true false);
        [apply (IHE3 pos h1 lo); try done; lia|].
      intros h2 e2 p2 Hok2 Hun2 He2 Hle2 Hp2 Hlen2. simpl. simpl in Hp2.
      destruct (concat_post [left; e2] h2 Hok2) as (h3 & c & Hrun & Hok3 & Hun3 & Hc).
      { intros r [->|[->|Hr]%elem_of_cons]%elem_of_cons.
        - apply startStates_ok_is_Some. by eapply startStates_ok_stable.
        - by apply startStates_ok_is_Some.
        - by apply elem_of_nil in Hr. }
      unfold bind at 1. rewrite Hrun.
      eapply (parsed_weaken h1 h3 (length tokens) pos p2 lo lo false false);
        [apply IHR2; try done| |done|lia].
      * destruct Hun2, Hun3. lia.
      * by eapply concat_startStates.
      * destruct Hc as [Hc _]. destruct Hun2. lia.
      * lia.
      * by eapply unchanged_trans.
    + split; [done|]. split; [done|]. simpl.
      split; [by eapply startStates_ok_stable|]. split; [done|]. split; [done|].
      done.
  - (* _parse_R1 *)
    intros pos h lo left Hok Hpos Hlo Hleft Hle Hfuel. cbn [_parse_R1].
    destruct (negb (pos =? length tokens) && is_union (tokens !! pos)) eqn:Hcond;
      [|by apply parsed_ret].
    apply andb_true_iff in Hcond as [Hne%negb_true_iff%Nat.eqb_neq _].
   
    eapply (parsed_bind h (length tokens) pos lo lo true false).
    + eapply (parsed_weaken h h (length tokens) pos (pos + 1) lo lo true true);
        [apply IHE2; try done; lia|apply unchanged_refl|done|lia].
    + intros h1 e p Hok1 Hun1 He Hle1 Hp Hlen. simpl. simpl in Hp.
      destruct (union_post [left; e] h1 Hok1) as (h2 & c & Hrun & Hok2 & Hun2 & Hc).
      { intros r [->|[->|Hr]%elem_of_cons]%elem_of_cons.
        - apply startStates_ok_is_Some. by eapply startStates_ok_stable.
        - by apply startStates_ok_is_Some.
        - by apply elem_of_nil in Hr. }
      unfold bind at 1. rewrite Hrun.
      eapply (parsed_weaken h h2 (length tokens) pos p lo lo false false);
        [apply IHR1; try done|by eapply unchanged_trans|done|lia].
      * destruct Hun1, Hun2. lia.
      * by eapply union_startStates.
      * destruct Hc as [Hc _]. destruct Hun1. lia.
      * lia.
Qed.

(** ** The tokenizer raises its own exceptions only *)

Lemma tokenizer_ok_state self :
  tokenizer_ok self → ∃ m, state_method (_state self) = Some m.
Proof.
  intros [Hst _]. repeat (apply elem_of_cons in Hst as [->|Hst]; [by eexists|]).
  by apply elem_of_nil in Hst.
Qed.

Lemma state_method_ok (self : RegexTokenizer) stack c toks m :
  tokenizer_ok self →
  state_method (_state self) = Some m →
  match m (set_stack self stack) c toks with
  | Ok (s1, t1, st1) => tokenizer_ok (set_state s1 (default (_state s1) st1))
  | Raise e => tokenize_error e
  | OutOfFuel => False
  end.
Proof.
  destruct self as [st0 st cc v se]. unfold tokenizer_ok. simpl.
  intros (_ & Hcc & Hse) Hm.
  pose proof (state_method_Some _ _ Hm) as Hst.
  destruct Hst as [->|[->|[->|[->|[->|[->|[->| ->]]]]]]];
    injection Hm as <-;
    unfold _state0, _state1, _state2, _state3, _state9, _state10, _state11,
      _state12, write_currentClass, RegexCharacterClass__init__; simpl.
  all: try (assert (is_Some cc) as [buf ->] by (apply Hcc; auto)).
  all: try (assert (is_Some se) as [start ->] by (apply Hse; auto)).
  all: repeat (match goal with
               | |- context [if ?b then _ else _] => destruct b eqn:?
               | |- context [match ?x with Some _ => _ | None => _ end] =>
                   destruct x eqn:?
               end; simpl).
  all: try (unfold tokenize_error; tauto).
  all: unfold tokenizer_ok; simpl;
    (split; [set_solver|split; [intros [?|?]; by eauto|intros [?|?]; by eauto]]).
Qed.

Lemma tokens_loop_ok stack : ∀ self toks,
  tokenizer_ok self →
  match tokens_loop stack self toks with
  | Ok (self1, _) => tokenizer_ok self1
  | Raise e => tokenize_error e
  | OutOfFuel => False
  end.
Proof.
  induction stack as [|c stack IH]; intros self toks Hok.
  - simpl. revert Hok. unfold tokenizer_ok. by destruct self.
  - rewrite tokens_loop_cons.
    destruct (tokenizer_ok_state self Hok) as [m Hm]. rewrite Hm.
    pose proof (state_method_ok self stack c toks m Hok Hm) as Hstep.
    destruct (m (set_stack self stack) c toks) as [[[s1 t1] st1]|e|];
      [|done..].
    by apply IH.
Qed.

Lemma tokens_result r :
  match tokens (RegexTokenizer__init__ r) with
  | Ok _ => True
  | Raise e => tokenize_error e
  | OutOfFuel => False
  end.
Proof.
  unfold tokens. cbn [_stack RegexTokenizer__init__].
  pose proof (tokens_loop_ok r (RegexTokenizer__init__ r) []) as Hloop.
  destruct (tokens_loop r (RegexTokenizer__init__ r) []) as [[self1 toks]|e|].
  - unfold tokenize_error. repeat case_match; simplify_eq; auto 10.
  - apply Hloop. split; [set_solver|]. split; intros [[=]|[=]].
  - apply Hloop. split; [set_solver|]. split; intros [[=]|[=]].
Qed.

End Parser.

(* what parse leaves *)
Lemma parse_result (tokens : list Token) (h : Heap) :
  heap_ok h →
  ∃ h1 r, parse tokens h = (h1, r) ∧ heap_ok h1 ∧ unchanged h h1 ∧
    (r = Raise RegexParseError ∨
     ∃ e, r = Ok e ∧ next_id h ≤ e ∧ startStates_ok h1 e).
Proof.
  intros Hok. unfold parse.
  destruct (parse_methods_parsed tokens (parse_fuel tokens))
    as (_ & _ & _ & HE1 & _).
  specialize (HE1 0 h (next_id h) Hok).
  destruct HE1 as (Hok1 & Hun1 & Hres); [lia|done|unfold parse_fuel; lia|].
  unfold bind.
  destruct (_parse_E1 (parse_fuel tokens) tokens 0 h) as [h1 [[e p]|e|]];
    simpl in *; [|subst e; eauto 10|done].
  destruct Hres as (He & Hle & _ & _).
  destruct (negb (length tokens =? p)); [eauto 10|].
  exists h1, (Ok e). eauto 10.
Qed.






(** * The expression of one class *)

Section Atoms.

Context `{HostRegex}.

Lemma path_one_class s klass f w :
  s ≠ f →
  path [(s, Some klass, f)] s w f ↔ ∃ c, w = [c] ∧ contains klass c = true.
Proof.
  intros Hne. split.
  - intros Hpath.
    inversion Hpath as [|? ? ? ? Hin|? ? ? ? ? ? Hin Hc Hrest]; subst; [done| |].
    + by apply list_elem_of_singleton in Hin.
    + apply list_elem_of_singleton in Hin. injection Hin as <- <-.
      exists c. split; [|done]. f_equal.
      inversion Hrest as [|? ? ? ? Hin|? ? ? ? ? ? Hin]; subst; [done|..];
        apply list_elem_of_singleton in Hin; by simplify_eq.
  - intros (c & -> & Hc). eapply path_char; [by left|done|constructor].
Qed.

(* the methods of the parser at the end of the tokens *)
Lemma parse_E_end fuel tokens h :
  _parse_E (S fuel) tokens (length tokens) h = (h, Raise RegexParseError).
Proof. cbn [_parse_E]. by rewrite Nat.eqb_refl. Qed.

Lemma parse_R3_end fuel left tokens h :
  _parse_R3 (S fuel) left tokens (length tokens) h = (h, Ok (left, length tokens)).
Proof. cbn [_parse_R3]. by rewrite Nat.eqb_refl. Qed.

Lemma parse_E3_end fuel tokens h :
  _parse_E3 (S (S fuel)) tokens (length tokens) h = (h, Raise RegexParseError).
Proof.
  change (_parse_E3 (S (S fuel)) tokens (length tokens) h)
    with ((let! (expr, pos) := _parse_E (S fuel) tokens (length tokens) in
           _parse_R3 (S fuel) expr tokens pos) h).
  unfold bind. by rewrite parse_E_end.
Qed.

Lemma parse_R2_end fuel left tokens h :
  _parse_R2 (S (S (S fuel))) left tokens (length tokens) h
    = (h, Ok (left, length tokens)).
Proof.
  change (_parse_R2 (S (S (S fuel))) left tokens (length tokens) h)
    with (match (let! (tempExpr, tempPos) :=
                   _parse_E3 (S (S fuel)) tokens (length tokens) in
                 _parse_R2 (S (S fuel)) tempExpr tokens tempPos) h with
          | (h1, Raise RegexParseError) => (h1, Ok (left, length tokens))
          | (h1, Ok _) =>
              (let! (expr, pos) := _parse_E3 (S (S fuel)) tokens (length tokens) in
               let! left' := concat [left; expr] in
               _parse_R2 (S (S fuel)) left' tokens pos) h1
          | (h1, Raise e) => (h1, Raise e)
          | (h1, OutOfFuel) => (h1, OutOfFuel)
          end).
  unfold bind at 1. by rewrite parse_E3_end.
Qed.

Lemma parse_R1_end fuel left tokens h :
  _parse_R1 (S fuel) left tokens (length tokens) h = (h, Ok (left, length tokens)).
Proof. cbn [_parse_R1]. by rewrite Nat.eqb_refl. Qed.

(* fromClass, run *)
Lemma fromClass_run klass h :
  ∃ h1, fromClass klass h = (h1, Ok (next_id h)) ∧
    objects h1 !! next_id h
      = Some (mkRegularExpression (4 + next_id h) (2 + next_id h) (3 + next_id h)
                None {[2 + next_id h]}) ∧
    lists h1 !! (4 + next_id h)
      = Some [(2 + next_id h, Some klass, 3 + next_id h)].
Proof.
  eexists. split; [run_heap; reflexivity|].
  run_heap. split; [|reflexivity]. do 2 f_equal. set_solver.
Qed.

(* parse on the one token of a class *)
Lemma parse_one_class klass h :
  ∃ h1, parse [TOK_CLASS klass] h = (h1, Ok (next_id h)) ∧
    objects h1 !! next_id h
      = Some (mkRegularExpression (4 + next_id h) (2 + next_id h) (3 + next_id h)
                None {[2 + next_id h]}) ∧
    lists h1 !! (4 + next_id h)
      = Some [(2 + next_id h, Some klass, 3 + next_id h)].
Proof.
  destruct (fromClass_run klass h) as (h1 & Hrun & Ho & Hl).
  exists h1. split; [|done].
  unfold parse. change (parse_fuel [TOK_CLASS klass]) with 12.
  set (tokens := [TOK_CLASS klass]).
  assert (∀ fuel, _parse_E (S fuel) tokens 0 h = (h1, Ok (next_id h, 1))) as HE.
  { intros fuel. cbn [_parse_E]. simpl. unfold bind. by rewrite Hrun. }
  assert (∀ fuel, _parse_E3 (S (S fuel)) tokens 0 h = (h1, Ok (next_id h, 1)))
    as HE3.
  { intros fuel.
    change (_parse_E3 (S (S fuel)) tokens 0 h)
      with ((let! (expr, pos) := _parse_E (S fuel) tokens 0 in
             _parse_R3 (S fuel) expr tokens pos) h).
    unfold bind. rewrite HE. apply (parse_R3_end fuel (next_id h) tokens). }
  assert (∀ fuel, _parse_E2 (S (S (S (S fuel)))) tokens 0 h
                  = (h1, Ok (next_id h, 1))) as HE2.
  { intros fuel.
    change (_parse_E2 (S (S (S (S fuel)))) tokens 0 h)
      with ((let! (expr, pos) := _parse_E3 (S (S (S fuel))) tokens 0 in
             _parse_R2 (S (S (S fuel))) expr tokens pos) h).
    unfold bind. rewrite HE3. apply (parse_R2_end fuel (next_id h) tokens). }
  change (_parse_E1 12 tokens 0)
    with (let! (expr, pos) := _parse_E2 11 tokens 0 in
          _parse_R1 11 expr tokens pos).
  unfold bind. rewrite (HE2 7).
  rewrite (parse_R1_end 10 (next_id h) tokens h1 : _parse_R1 11 _ tokens 1 h1 = _).
  done.
Qed.

End Atoms.

(** X12. A text whose tokens are the one token of a class (a plain
    character, an escaped character, the dot, a bracketed class or a
    host class) builds, on any heap, an expression that matches
    exactly the strings of one character of the class. *)
Theorem one_class_matches_one_character `{HostRegex} (rx : list ascii)
    (klass : CharacterClass) (h : Heap) :
  tokens (RegexTokenizer__init__ rx) = Ok [TOK_CLASS klass] →
  ∃ h1 e, buildRegex rx h = (h1, Ok e) ∧
    ∀ w, ∃ h2 b, match_ e w h1 = (h2, Ok b) ∧
                 (b = true ↔ ∃ c, w = [c] ∧ contains klass c = true).
Proof.
  intros Htokens. destruct (parse_one_class klass h) as (h1 & Hparse & Ho & Hl).
  exists h1, (next_id h). split.
  { unfold buildRegex, bind, lift. by rewrite Htokens. }
  intros w. destruct (match_ok h1 (next_id h) _ _ w Ho Hl) as (h2 & Hmatch).
  eexists h2, _. split; [exact Hmatch|]. simpl.
  rewrite accepts_path. apply path_one_class. lia.
Qed.

Lemma one_class_matches_one_character_witness :
  ∃ h1 e, @buildRegex example_host ["\"%char; "*"%char] empty_heap = (h1, Ok e) ∧
    ∀ w, ∃ h2 b, @match_ example_host e w h1 = (h2, Ok b) ∧
                 (b = true ↔
                  ∃ c, w = [c] ∧
                       @contains example_host (LitteralCharacterClass "*") c = true).
Proof.
  apply (@one_class_matches_one_character example_host ["\"%char; "*"%char]
           (LitteralCharacterClass "*") empty_heap).
  reflexivity.
Defined.

(** * The FIRST table of prepare *)

Section FirstTable.

Import Grammar.

Implicit Types (G : Grammar) (t : gmap Symbol (gset Symbol)) (k nt X : Symbol)
  (prod : Production) (right : list Symbol).

(** ** The duplicate check *)

Lemma check_duplicates_spec prods : ∀ seen,
  (check_duplicates prods seen = Ok tt ∧
   NoDup prods ∧ ∀ p, p ∈ prods → p ∉ seen) ∨
  (check_duplicates prods seen = Raise GrammarError ∧
   ¬ (NoDup prods ∧ ∀ p, p ∈ prods → p ∉ seen)).
Proof.
  induction prods as [|prod prods IH]; intros seen.
  - left. split; [done|]. split; [constructor|]. intros p Hp.
    by apply elem_of_nil in Hp.
  - cbn [check_duplicates]. case_bool_decide as Hseen.
    + right. split; [done|]. intros [_ Hnot]. apply (Hnot prod); [left|done].
    + destruct (IH (prod :: seen)) as [(-> & Hnd & Hnot)|(-> & Hbad)].
      * left. split; [done|]. split.
        -- constructor; [|done]. intros Hin. apply (Hnot prod Hin). left.
        -- intros p [->|Hp]%elem_of_cons; [done|].
           intros Hin. apply (Hnot p Hp). by right.
      * right. split; [done|]. intros [Hnd Hnot]. apply Hbad.
        apply NoDup_cons in Hnd as [Hnotin Hnd]. split; [done|].
        intros p Hp [->|Hin]%elem_of_cons; [done|].
        apply (Hnot p); [by right|done].
Qed.

(** ** The table grows *)

Lemma table_le_refl t : table_le t t.
Proof. intros k S HS. by exists S. Qed.

Lemma table_le_trans t1 t2 t3 : table_le t1 t2 → table_le t2 t3 → table_le t1 t3.
Proof.
  intros H12 H23 k S HS. destruct (H12 k S HS) as (S2 & HS2 & Hsub).
  destruct (H23 k S2 HS2) as (S3 & HS3 & Hsub'). exists S3. split; [done|].
  set_solver.
Qed.

Lemma table_le_antisym t1 t2 : table_le t1 t2 → table_le t2 t1 → t1 = t2.
Proof.
  intros H12 H21. unfold FirstTable in *. apply map_eq. intros k.
  destruct (t1 !! k) as [S1|] eqn:Hk1; destruct (t2 !! k) as [S2|] eqn:Hk2.
  - destruct (H12 k S1 Hk1) as (S2' & HS2 & Hsub).
    destruct (H21 k S2 Hk2) as (S1' & HS1 & Hsub').
    simplify_eq. f_equal. set_solver.
  - destruct (H12 k S1 Hk1) as (S2' & HS2 & _). congruence.
  - destruct (H21 k S2 Hk2) as (S1' & HS1 & _). congruence.
  - done.
Qed.

Lemma table_le_get_first t t' k : table_le t t' → get_first t k ⊆ get_first t' k.
Proof.
  intros Hle. unfold get_first, FirstTable. destruct (t !! k) as [S|] eqn:HS; simpl.
  - by destruct (Hle k S HS) as (S' & -> & Hsub).
  - set_solver.
Qed.

Lemma update_first_le t nt first : table_le t (update_first t nt first).
Proof.
  intros k S HS. unfold update_first, get_first, FirstTable.
  destruct (decide (k = nt)) as [->|Hne].
  - rewrite lookup_insert_eq. eexists. split; [done|].
    rewrite HS. simpl. set_solver.
  - rewrite lookup_insert_ne by done. by exists S.
Qed.

Lemma first_of_right_le right : ∀ t nt, table_le t (first_of_right right nt t).
Proof.
  induction right as [|X right IH]; intros t nt; cbn [first_of_right].
  - apply update_first_le.
  - case_bool_decide.
    + eapply table_le_trans; [apply update_first_le|apply IH].
    + apply update_first_le.
Qed.

Lemma first_of_production_le nt t prod : table_le t (first_of_production nt t prod).
Proof.
  unfold first_of_production. case_bool_decide; [|apply table_le_refl].
  destruct (right prod); [apply update_first_le|apply first_of_right_le].
Qed.

Lemma foldl_le {A} (f : gmap Symbol (gset Symbol) → A → gmap Symbol (gset Symbol))
    (l : list A) :
  (∀ t x, table_le t (f t x)) → ∀ t, table_le t (foldl f t l).
Proof.
  intros Hf. induction l as [|x l IH]; intros t; [apply table_le_refl|].
  simpl. eapply table_le_trans; [apply Hf|apply IH].
Qed.

Lemma first_pass_le G t : table_le t (first_pass G t).
Proof.
  unfold first_pass. apply foldl_le. intros t' nt.
  apply foldl_le. intros t'' prod. apply first_of_production_le.
Qed.

(* a run of steps that grow the table and leave it as it was: each step
   leaves it as it was *)
Lemma foldl_fixed {A} (f : gmap Symbol (gset Symbol) → A → gmap Symbol (gset Symbol))
    (l : list A) t :
  (∀ t x, table_le t (f t x)) →
  foldl f t l = t → ∀ x, x ∈ l → f t x = t.
Proof.
  intros Hf. induction l as [|y l IH]; intros Hfix x Hx.
  - by apply elem_of_nil in Hx.
  - simpl in Hfix.
    assert (f t y = t) as Hy.
    { apply table_le_antisym; [|apply Hf].
      rewrite <- Hfix at 2. by apply foldl_le. }
    rewrite Hy in Hfix. apply elem_of_cons in Hx as [->|Hx]; [done|].
    by apply IH.
Qed.

(** ** The nonterminals *)

Lemma elem_of_nonterminals_right G right : ∀ (acc : gset Symbol) X,
  X ∈ foldl (λ (result : gset Symbol) symbol,
               if is_token G symbol then result else result ∪ {[symbol]})
            acc right
  ↔ X ∈ acc ∨ (X ∈ right ∧ is_token G X = false).
Proof.
  induction right as [|Y right IH]; intros acc X; simpl.
  - split; [by left|]. intros [?|[Hin _]]; [done|]. by apply elem_of_nil in Hin.
  - rewrite IH. destruct (is_token G Y) eqn:HY.
    + split; [intros [?|[? ?]]; [by left|right; split; [by right|done]]|].
      intros [?|[ [-> |?]%elem_of_cons ?]]; [by left|congruence|by right].
    + rewrite elem_of_union, elem_of_singleton.
      split; [intros [ [?| ->] |[? ?]]|intros [?|[ [-> |?]%elem_of_cons ?]]].
      * by left.
      * right. split; [left|done].
      * right. split; [by right|done].
      * left. by left.
      * left. by right.
      * by right.
Qed.

Lemma elem_of_nonterminals_fold G prods : ∀ (acc : gset Symbol) X,
  X ∈ foldl (λ (result : gset Symbol) prod,
               foldl (λ (result : gset Symbol) symbol,
                        if is_token G symbol then result else result ∪ {[symbol]})
                     (result ∪ {[Name (name prod)]}) (right prod))
            acc prods
  ↔ X ∈ acc ∨
    ∃ prod, prod ∈ prods ∧
            (X = Name (name prod) ∨ (X ∈ right prod ∧ is_token G X = false)).
Proof.
  induction prods as [|p prods IH]; intros acc X; simpl.
  - split; [by left|]. intros [?|(prod & Hin & _)]; [done|].
    by apply elem_of_nil in Hin.
  - rewrite IH, elem_of_nonterminals_right, elem_of_union, elem_of_singleton.
    split.
    + intros [ [[?| ->] |?]|(prod & Hin & Hprod)].
      * by left.
      * right. exists p. split; [left|by left].
      * right. exists p. split; [left|by right].
      * right. exists prod. split; [by right|done].
    + intros [?|(prod & [-> |Hin]%elem_of_cons & Hprod)].
      * left. left. by left.
      * destruct Hprod as [-> |?]; left; [left; by right|by right].
      * right. by exists prod.
Qed.

(* nonterminals(): the names of the productions, and the symbols of
   the right sides that are not token types *)
Lemma elem_of_nonterminals G X :
  X ∈ nonterminals G ↔
  ∃ prod, prod ∈ productions G ∧
          (X = Name (name prod) ∨ (X ∈ right prod ∧ is_token G X = false)).
Proof.
  unfold nonterminals. rewrite elem_of_nonterminals_fold. split.
  - intros [Hin|?]; [|done]. by apply not_elem_of_empty in Hin.
  - by right.
Qed.

(** ** A table that a run of the loop leaves as it was *)

Lemma update_first_fixed t nt first :
  update_first t nt first = t → first ⊆ get_first t nt.
Proof.
  intros Hfix. pose proof (f_equal (λ m : gmap Symbol (gset Symbol), m !! nt) Hfix)
    as Hnt.
  unfold update_first, get_first, FirstTable in *. simpl in Hnt.
  rewrite lookup_insert_eq in Hnt. rewrite <- Hnt. simpl. set_solver.
Qed.

Lemma first_of_right_fixed right : ∀ t nt,
  first_of_right right nt t = t →
  (∀ pre X post, right = pre ++ X :: post → Forall (nullable t) pre →
     get_first t X ⊆ get_first t nt) ∧
  (Forall (nullable t) right → Epsilon ∈ get_first t nt).
Proof.
  induction right as [|Y right IH]; intros t nt; cbn [first_of_right]; intros Hfix.
  - split; [intros [|? ?] ? ? [=]|]. intros _.
    apply update_first_fixed in Hfix. set_solver.
  - assert (update_first t nt (get_first t Y) = t) as Hstep.
    { apply table_le_antisym; [|apply update_first_le].
      case_bool_decide; [|rewrite Hfix; apply table_le_refl].
      pose proof (first_of_right_le right (update_first t nt (get_first t Y)) nt)
        as Hle.
      by rewrite Hfix in Hle. }
    rewrite Hstep in Hfix. apply update_first_fixed in Hstep.
    case_bool_decide as Heps.
    + apply IH in Hfix as [Hsym Hnull]. split.
      * intros [|Z pre] X post [= -> ->] Hpre; [done|].
        apply (Hsym pre X post); [done|]. by apply Forall_cons_1 in Hpre as [_ ?].
      * intros [_ Hright]%Forall_cons_1. by apply Hnull.
    + split.
      * intros [|Z pre] X post [= -> ->] Hpre; [done|].
        by apply Forall_cons_1 in Hpre as [? _].
      * by intros [? _]%Forall_cons_1.
Qed.

Lemma first_pass_fixed G t prod :
  first_pass G t = t → prod ∈ productions G →
  first_of_right (right prod) (Name (name prod)) t = t.
Proof.
  intros Hfix Hprod. unfold first_pass in Hfix.
  pose proof (foldl_fixed _ _ _
    (λ t' nt, foldl_le (first_of_production nt) (productions G)
                (λ t'' p, first_of_production_le nt t'' p) t')
    Hfix (Name (name prod))) as Hnt.
  simpl in Hnt.
  pose proof (foldl_fixed _ _ _
    (λ t'' p, first_of_production_le (Name (name prod)) t'' p)
    (Hnt ltac:(apply elem_of_elements, elem_of_nonterminals; eauto)) prod Hprod)
    as Hp.
  unfold first_of_production in Hp. rewrite bool_decide_eq_true_2 in Hp by done.
  by destruct (right prod).
Qed.

(** ** The loop *)

Lemma first_loop_Ok fuel G : ∀ t tbl,
  first_loop fuel G t = Ok tbl →
  first_pass G tbl = tbl ∧ table_le t tbl.
Proof.
  induction fuel as [|fuel IH]; intros t tbl; [done|]. cbn [first_loop].
  case_bool_decide as Heq.
  - intros [= <-]. rewrite <- Heq. split; [by rewrite <- Heq|apply table_le_refl].
  - intros Hloop. apply IH in Hloop as [Hfix Hle]. split; [done|].
    eapply table_le_trans; [apply first_pass_le|done].
Qed.

Lemma first_loop_not_Raise fuel G : ∀ t e, first_loop fuel G t ≠ Raise e.
Proof.
  induction fuel as [|fuel IH]; intros t e; [done|]. cbn [first_loop].
  case_bool_decide; [done|apply IH].
Qed.

Lemma prepare_Ok G tbl :
  prepare G = Ok tbl →
  NoDup (productions G) ∧ first_pass G tbl = tbl ∧ table_le (initial_firsts G) tbl.
Proof.
  unfold prepare.
  destruct (check_duplicates_spec (productions G) []) as [(-> & Hnd & _)|(-> & _)];
    [|done].
  intros Hloop. split; [done|]. by apply first_loop_Ok in Hloop.
Qed.

(** ** The initial table *)

Lemma initial_firsts_lookup G k S :
  initial_firsts G !! k = Some S ↔
  S = {[k]} ∧ (k = EOF ∨ ∃ n, k = Name n ∧ n ∈ tokenTypes G).
Proof.
  unfold initial_firsts, FirstTable.
  rewrite lookup_set_to_map by (by intros ? ? _ _ [= ->]).
  split.
  - intros (j & Hj & [= -> <-]). split; [done|].
    apply elem_of_union in Hj as [Hj|Hj].
    + apply elem_of_map in Hj as (n & -> & Hn). right. eauto.
    + left. by apply elem_of_singleton in Hj.
  - intros [-> Hk]. exists k. split; [|done].
    destruct Hk as [->|(n & -> & Hn)]; [set_solver|].
    apply elem_of_union. left. apply elem_of_map. eauto.
Qed.

(** ** What a run of the loop leaves unchanged *)

Lemma update_first_other t nt first k :
  k ≠ nt → update_first t nt first !! k = t !! k.
Proof.
  intros Hne. unfold update_first, FirstTable. by rewrite lookup_insert_ne.
Qed.

Lemma first_of_right_other right : ∀ t nt k,
  k ≠ nt → first_of_right right nt t !! k = t !! k.
Proof.
  induction right as [|Y right IH]; intros t nt k Hne; cbn [first_of_right].
  - by apply update_first_other.
  - case_bool_decide; [rewrite IH by done|]; by apply update_first_other.
Qed.

Lemma first_pass_other G t k :
  ¬ names_production G k → first_pass G t !! k = t !! k.
Proof.
  intros Hk. unfold first_pass.
  generalize (elements (nonterminals G)). intros nts. revert t.
  induction nts as [|nt nts IH]; intros t; [done|]. simpl. rewrite IH.
  assert (∀ prods t', (∀ p, p ∈ prods → p ∈ productions G) →
            foldl (first_of_production nt) t' prods !! k = t' !! k) as Hinner.
  { induction prods as [|p prods IHp]; intros t' Hsub; [done|]. simpl.
    rewrite IHp by (intros q Hq; apply Hsub; by right).
    unfold first_of_production. case_bool_decide as Hname; [|done].
    assert (k ≠ nt) as Hne.
    { intros ->. apply Hk. exists p. split; [apply Hsub; left|done]. }
    destruct (right p); [by apply update_first_other|].
    by apply first_of_right_other. }
  by apply Hinner.
Qed.

Lemma first_loop_other fuel G k : ∀ t tbl,
  ¬ names_production G k → first_loop fuel G t = Ok tbl → tbl !! k = t !! k.
Proof.
  induction fuel as [|fuel IH]; intros t tbl Hk; [done|]. cbn [first_loop].
  case_bool_decide.
  - intros [= <-]. by apply first_pass_other.
  - intros Hloop. rewrite (IH _ _ Hk Hloop). by apply first_pass_other.
Qed.

(** ** The recurrence of the FIRST sets, by induction *)

Lemma first_of_induction G (P : Symbol → Symbol → Prop) :
  (∀ x, is_token G x = true ∨ x = EOF → P x x) →
  (∀ prod pre X post a,
     prod ∈ productions G → right prod = pre ++ X :: post →
     Forall (λ Y, first_of G Y Epsilon) pre → Forall (λ Y, P Y Epsilon) pre →
     first_of G X a → P X a → a ≠ Epsilon → P (Name (name prod)) a) →
  (∀ prod,
     prod ∈ productions G →
     Forall (λ Y, first_of G Y Epsilon) (right prod) →
     Forall (λ Y, P Y Epsilon) (right prod) →
     P (Name (name prod)) Epsilon) →
  ∀ X a, first_of G X a → P X a.
Proof.
  intros Hterminal Hsymbol Hepsilon.
  fix IH 3. intros X a [x Hx|prod pre Y post b Hin Hright Hpre HY Hne|prod Hin Hright].
  - by apply Hterminal.
  - apply (Hsymbol prod pre Y post b); try done; [|by apply IH].
    clear Hright. induction Hpre as [|Z pre HZ Hpre IHpre]; constructor; [|done].
    by apply IH.
  - apply Hepsilon; try done.
    induction Hright as [|Z rest HZ Hrest IHrest]; constructor; [|done].
    by apply IH.
Qed.

(* the table of prepare holds the FIRST sets of the recurrence *)
Lemma prepare_complete G tbl X a :
  prepare G = Ok tbl → first_of G X a → a ∈ get_first tbl X.
Proof.
  intros (_ & Hfix & Hinit)%prepare_Ok. revert X a.
  apply first_of_induction.
  - intros x Hx.
    assert (initial_firsts G !! x = Some {[x]}) as Hlookup.
    { apply initial_firsts_lookup. split; [done|].
      destruct Hx as [Hx| ->]; [|by left]. right.
      destruct x as [n| |]; try done. exists n. split; [done|].
      by apply bool_decide_eq_true in Hx. }
    destruct (Hinit _ _ Hlookup) as (S' & HS' & Hsub).
    unfold get_first, FirstTable. rewrite HS'. simpl. set_solver.
  - intros prod pre X post a Hin Hright _ Hpre _ Ha _.
    destruct (first_of_right_fixed _ _ _ (first_pass_fixed G tbl prod Hfix Hin))
      as [Hsym _].
    by apply (Hsym pre X post Hright Hpre).
  - intros prod Hin _ Hright.
    destruct (first_of_right_fixed _ _ _ (first_pass_fixed G tbl prod Hfix Hin))
      as [_ Hnull].
    by apply Hnull.
Qed.

Lemma prepare_loop G tbl :
  prepare G = Ok tbl → first_loop (first_fuel G) G (initial_firsts G) = Ok tbl.
Proof. unfold prepare. by destruct (check_duplicates (productions G) []). Qed.

(** ** Grammar.first *)

Lemma first_Ok t symbols : ∀ S,
  first t symbols = Ok S →
  ∀ a, a ∈ S ↔
    (a = Epsilon ∧ Forall (nullable t) symbols) ∨
    (a ≠ Epsilon ∧ ∃ pre X post, symbols = pre ++ X :: post ∧
                                 Forall (nullable t) pre ∧ a ∈ get_first t X).
Proof.
  induction symbols as [|Y symbols IH]; intros S; cbn [first].
  - intros [= <-] a. rewrite elem_of_singleton. split.
    + intros ->. left. split; [done|constructor].
    + intros [[-> _]|(_ & [|? ?] & ? & ? & [=] & _)]. done.
  - unfold nullable, get_first, FirstTable in *.
    destruct (t !! Y) as [rfirst|] eqn:HY; [|done].
    case_bool_decide as Heps.
    + destruct (first t symbols) as [rest| |]; [|done..]. intros [= <-] a.
      rewrite elem_of_union, elem_of_difference, elem_of_singleton, (IH rest eq_refl).
      split.
      * intros [[Ha Hne]|[[-> Hall]|(Hne & pre & X & post & -> & Hpre & Ha)]].
        -- right. split; [done|]. exists [], Y, symbols. rewrite HY. done.
        -- left. split; [done|]. constructor; [by rewrite HY|done].
        -- right. split; [done|]. exists (Y :: pre), X, post. split; [done|].
           split; [|done]. constructor; [by rewrite HY|done].
      * intros [[-> Hall]|(Hne & pre & X & post & Heq & Hpre & Ha)].
        -- right. left. split; [done|]. by apply Forall_cons_1 in Hall as [_ ?].
        -- destruct pre as [|Z pre]; injection Heq as <- ->.
           ++ left. rewrite HY in Ha. done.
           ++ right. right. split; [done|]. exists pre, X, post.
              split; [done|]. split; [|done]. by apply Forall_cons_1 in Hpre as [_ ?].
    + intros [= <-] a. rewrite elem_of_difference, elem_of_singleton. split.
      * intros [Ha Hne]. right. split; [done|]. exists [], Y, symbols.
        rewrite HY. done.
      * intros [[-> Hall]|(Hne & pre & X & post & Heq & Hpre & Ha)].
        -- apply Forall_cons_1 in Hall as [HnY _]. by rewrite HY in HnY.
        -- destruct pre as [|Z pre]; injection Heq as <- ->.
           ++ rewrite HY in Ha. done.
           ++ apply Forall_cons_1 in Hpre as [HnY _]. by rewrite HY in HnY.
Qed.

Lemma first_result t symbols :
  ((∀ X, X ∈ symbols → is_Some (t !! X)) → ∃ S, first t symbols = Ok S) ∧
  (∀ e, first t symbols = Raise e →
        e = KeyError ∧ ∃ X, X ∈ symbols ∧ t !! X = None) ∧
  first t symbols ≠ OutOfFuel.
Proof.
  induction symbols as [|Y symbols (IHOk & IHRaise & IHFuel)]; cbn [first].
  - split; [eauto|]. split; [done|done].
  - unfold FirstTable in *. destruct (t !! Y) as [rfirst|] eqn:HY.
    + case_bool_decide.
      * destruct (first t symbols) as [rest|e|] eqn:Hrest.
        -- split; [eauto|]. split; [done|done].
        -- split; [|split; [|done]].
           ++ intros Hall. destruct IHOk as [? [=]].
              intros X HX. apply Hall. by right.
           ++ intros ? [= <-]. destruct (IHRaise e eq_refl) as (-> & X & HX & HN).
              split; [done|]. exists X. split; [by right|done].
        -- done.
      * split; [eauto|]. split; [done|done].
    + split; [|split; [|done]].
      * intros Hall. destruct (Hall Y) as [? HS]; [left|]. congruence.
      * intros ? [= <-]. split; [done|]. exists Y. split; [left|done].
Qed.

(** ** The loop ends *)

Lemma names_production_dec G k : Decision (names_production G k).
Proof.
  destruct (decide (Exists (λ p, k = Name (name p)) (productions G))) as [Hex|Hnex].
  - left. apply Exists_exists in Hex as (p & Hp & ->). by exists p.
  - right. intros (p & Hp & ->). apply Hnex, Exists_exists. by exists p.
Defined.

Lemma entry_size_le t t' k : table_le t t' → entry_size t k ≤ entry_size t' k.
Proof.
  intros Hle. unfold entry_size. destruct (t !! k) as [S|] eqn:HS; [|lia].
  destruct (Hle k S HS) as (S' & -> & Hsub). apply subseteq_size in Hsub. lia.
Qed.

Lemma entry_size_lt t t' k :
  table_le t t' → t !! k ≠ t' !! k → entry_size t k < entry_size t' k.
Proof.
  intros Hle Hne. unfold entry_size. destruct (t !! k) as [S|] eqn:HS.
  - destruct (Hle k S HS) as (S' & HS' & Hsub). rewrite HS' in Hne |- *.
    assert (S ⊂ S') as Hstrict.
    { split; [done|]. intros Hsub'. apply Hne. f_equal. set_solver. }
    apply subset_size in Hstrict. lia.
  - destruct (t' !! k); [lia|done].
Qed.

Lemma entries_size_le t t' keys :
  table_le t t' → entries_size t keys ≤ entries_size t' keys.
Proof.
  intros Hle. induction keys as [|k keys IH]; simpl; [lia|].
  pose proof (entry_size_le t t' k Hle). lia.
Qed.

Lemma entries_size_lt t t' keys k :
  table_le t t' → k ∈ keys → t !! k ≠ t' !! k →
  entries_size t keys < entries_size t' keys.
Proof.
  intros Hle Hk Hne. induction keys as [|j keys IH]; [by apply elem_of_nil in Hk|].
  simpl. apply elem_of_cons in Hk as [<-|Hk].
  - pose proof (entry_size_lt t t' k Hle Hne).
    pose proof (entries_size_le t t' keys Hle). lia.
  - pose proof (entry_size_le t t' j Hle). specialize (IH Hk). lia.
Qed.

Lemma size_list_to_set_symbols (l : list Symbol) :
  size (list_to_set l : gset Symbol) ≤ length l.
Proof.
  induction l as [|x l IH].
  - rewrite list_to_set_nil, size_empty. done.
  - rewrite list_to_set_cons, size_union_alt, size_singleton. simpl.
    apply le_n_S. etrans; [|apply IH]. apply subseteq_size. set_solver.
Qed.

Lemma size_first_universe G : size (first_universe G) ≤ size (tokenTypes G) + 1.
Proof.
  unfold first_universe. rewrite size_union_alt.
  assert (size (set_map (D := gset Symbol) Name (tokenTypes G)) ≤ size (tokenTypes G)).
  { unfold set_map. etrans; [apply size_list_to_set_symbols|].
    by rewrite length_fmap. }
  assert (size (({[Epsilon]} : gset Symbol) ∖ set_map Name (tokenTypes G)) ≤ 1).
  { rewrite <- (size_singleton (C := gset Symbol) Epsilon).
    apply subseteq_size. set_solver. }
  lia.
Qed.

Lemma get_first_bounded G t X :
  table_bounded G t → X ≠ EOF → get_first t X ⊆ first_universe G.
Proof.
  intros Hb HX. unfold get_first, FirstTable. destruct (t !! X) as [S|] eqn:HS; simpl.
  - by eapply Hb.
  - set_solver.
Qed.

Lemma update_first_bounded G t nt first :
  table_bounded G t → nt ≠ EOF → first ⊆ first_universe G →
  table_bounded G (update_first t nt first).
Proof.
  intros Hb Hnt Hfirst k S. unfold update_first, FirstTable.
  destruct (decide (k = nt)) as [->|Hne].
  - rewrite lookup_insert_eq. intros [= <-] _.
    pose proof (get_first_bounded G t nt Hb Hnt). set_solver.
  - rewrite lookup_insert_ne by done. apply Hb.
Qed.

Lemma first_of_right_bounded G nt right : ∀ t,
  table_bounded G t → nt ≠ EOF → EOF ∉ right →
  table_bounded G (first_of_right right nt t).
Proof.
  induction right as [|Y right IH]; intros t Hb Hnt Hright; cbn [first_of_right].
  - apply update_first_bounded; [done..|]. unfold first_universe. set_solver.
  - assert (Y ≠ EOF) as HY by (intros ->; apply Hright; left).
    assert (table_bounded G (update_first t nt (get_first t Y))) as Hb1.
    { apply update_first_bounded; [done..|]. by apply get_first_bounded. }
    case_bool_decide; [|done]. apply IH; [done..|].
    intros Hin. apply Hright. by right.
Qed.

Lemma first_pass_bounded G t :
  (∀ prod, prod ∈ productions G → EOF ∉ right prod) →
  table_bounded G t → table_bounded G (first_pass G t).
Proof.
  intros Hright. unfold first_pass.
  generalize (elements (nonterminals G)). intros nts. revert t.
  induction nts as [|nt nts IH]; intros t Hb; [done|]. simpl. apply IH.
  assert (∀ prods t', (∀ p, p ∈ prods → p ∈ productions G) → table_bounded G t' →
            table_bounded G (foldl (first_of_production nt) t' prods)) as Hinner.
  { induction prods as [|p prods IHp]; intros t' Hsub Hb'; [done|]. simpl.
    apply IHp; [intros q Hq; apply Hsub; by right|].
    unfold first_of_production. case_bool_decide as Hname; [|done].
    assert (nt ≠ EOF) as Hnt by (by rewrite <- Hname).
    destruct (right p) as [|Y rest] eqn:Hp.
    - apply update_first_bounded; [done..|]. unfold first_universe. set_solver.
    - apply first_of_right_bounded; [done..|]. rewrite <- Hp.
      apply Hright, Hsub. left. }
  by apply Hinner.
Qed.

Lemma initial_firsts_bounded G : table_bounded G (initial_firsts G).
Proof.
  intros k S HS Hk. apply initial_firsts_lookup in HS as [-> [->|(n & -> & Hn)]];
    [done|].
  unfold first_universe. apply singleton_subseteq_l, elem_of_union. left.
  apply elem_of_map. eauto.
Qed.

Lemma entries_size_bound G t keys :
  table_bounded G t → EOF ∉ keys →
  entries_size t keys ≤ length keys * (size (tokenTypes G) + 2).
Proof.
  intros Hb. induction keys as [|k keys IH]; intros Hkeys; simpl; [lia|].
  assert (entry_size t k ≤ size (tokenTypes G) + 2) as Hk.
  { unfold entry_size. destruct (t !! k) as [S|] eqn:HS; [|lia].
    assert (S ⊆ first_universe G) as Hsub.
    { eapply Hb; [done|]. intros ->. apply Hkeys. left. }
    apply subseteq_size in Hsub. pose proof (size_first_universe G). lia. }
  assert (EOF ∉ keys) as Hkeys' by (intros ?; apply Hkeys; by right).
  specialize (IH Hkeys'). lia.
Qed.

Lemma entries_size_same t t' keys k :
  table_le t t' → entries_size t' keys ≤ entries_size t keys →
  k ∈ keys → t !! k = t' !! k.
Proof.
  intros Hle Hsize Hk. destruct (decide (t !! k = t' !! k)) as [|Hne]; [done|].
  pose proof (entries_size_lt t t' keys k Hle Hk Hne). lia.
Qed.

(* a run of the body of the loop that does not grow the entries leaves
   the table as it was *)
Lemma first_pass_same G t :
  entries_size (first_pass G t) (elements (nonterminals G))
    ≤ entries_size t (elements (nonterminals G)) →
  first_pass G t = t.
Proof.
  intros Hsize. apply map_eq. intros k.
  destruct (names_production_dec G k) as [(p & Hp & ->)|Hk].
  - symmetry. eapply entries_size_same; [apply first_pass_le|done|].
    apply elem_of_elements, elem_of_nonterminals. eauto.
  - by apply first_pass_other.
Qed.

Lemma first_loop_total G fuel : ∀ t,
  (∀ prod, prod ∈ productions G → EOF ∉ right prod) →
  table_bounded G t →
  size (nonterminals G) * (size (tokenTypes G) + 2) + 1
    ≤ fuel + entries_size t (elements (nonterminals G)) →
  ∃ tbl, first_loop fuel G t = Ok tbl.
Proof.
  assert (∀ t, (∀ prod, prod ∈ productions G → EOF ∉ right prod) →
               table_bounded G t →
               entries_size t (elements (nonterminals G))
                 ≤ size (nonterminals G) * (size (tokenTypes G) + 2)) as Hbound.
  { intros t Hright Hb. apply (entries_size_bound G t _ Hb).
    rewrite elem_of_elements, elem_of_nonterminals.
    intros (p & Hp & [[=]|[Hin _]]). by apply (Hright p). }
  induction fuel as [|fuel IH]; intros t Hright Hb Hfuel.
  - specialize (Hbound t Hright Hb). lia.
  - cbn [first_loop]. case_bool_decide as Heq; [eauto|].
    apply IH; [done|by apply first_pass_bounded|].
    destruct (decide (entries_size (first_pass G t) (elements (nonterminals G))
                        ≤ entries_size t (elements (nonterminals G)))) as [Hle|Hgt].
    + apply first_pass_same in Hle. congruence.
    + lia.
Qed.

End FirstTable.



(** * Grammar.prepare *)

Section Prepare.

Import GrammarClass.

Lemma prepare_Ok_table cls start tbl :
  prepare cls = Ok (start, tbl) →
  Grammar.prepare (grammar cls) = Ok tbl ∧ Grammar.productions (grammar cls) ≠ [].
Proof.
  unfold prepare.
  destruct (match startSymbol cls with
            | None => _defaultStartSymbol (grammar cls)
            | Some s => Ok s
            end) as [s|e|]; [|done..].
  destruct (Grammar.prepare (grammar cls)) as [t|e|]; [|done..].
  destruct (Grammar.productions (grammar cls)); [done|]. by intros [= _ ->].
Qed.

Lemma Grammar_prepare_Raise G e :
  Grammar.prepare G = Raise e ↔ e = GrammarError ∧ ¬ NoDup (Grammar.productions G).
Proof.
  unfold Grammar.prepare.
  destruct (check_duplicates_spec (Grammar.productions G) [])
    as [(-> & Hnd & _)|(-> & Hbad)].
  - split; [|by intros [_ ?]]. intros Hloop. by apply first_loop_not_Raise in Hloop.
  - split; [intros [= <-]; split; [done|]|by intros [-> _]].
    intros Hnd. apply Hbad. split; [done|]. intros p _ Hp.
    by apply elem_of_nil in Hp.
Qed.

Lemma Grammar_prepare_no_production G :
  Grammar.productions G = [] → Grammar.prepare G = Ok (Grammar.initial_firsts G).
Proof.
  intros Hprods. unfold Grammar.prepare, Grammar.first_fuel. rewrite Hprods.
  cbn [Grammar.check_duplicates Grammar.first_loop].
  assert (Grammar.first_pass G (Grammar.initial_firsts G) = Grammar.initial_firsts G)
    as ->; [|by rewrite bool_decide_eq_true_2].
  unfold Grammar.first_pass, Grammar.nonterminals. rewrite Hprods. simpl.
  by rewrite elements_empty.
Qed.

End Prepare.

(** X14. What Grammar.prepare raises. For a class without
    productions it raises IndexError when startSymbol is None (from
    _defaultStartSymbol) and ValueError otherwise (from max() on the
    empty list of names); it raises GrammarError exactly when two
    productions have the same name and the same right side; and it
    raises nothing else. *)
Theorem prepare_raises (cls : GrammarClass.Class_) (e : exn) :
  GrammarClass.prepare cls = Raise e ↔
  (e = IndexError ∧ GrammarClass.startSymbol cls = None ∧
   Grammar.productions (GrammarClass.grammar cls) = []) ∨
  (e = ValueError ∧ GrammarClass.startSymbol cls ≠ None ∧
   Grammar.productions (GrammarClass.grammar cls) = []) ∨
  (e = GrammarError ∧ ¬ NoDup (Grammar.productions (GrammarClass.grammar cls))).
Proof.
  unfold GrammarClass.prepare, GrammarClass._defaultStartSymbol.
  destruct cls as [G start]. simpl.
  destruct (Grammar.productions G) as [|p prods] eqn:Hprods.
  - rewrite (Grammar_prepare_no_production G Hprods).
    assert (NoDup (@nil Grammar.Production)) as Hnil by constructor.
    destruct start as [s|]; (split; [intros [= <-]|]); naive_solver.
  - assert (∀ s : string,
              match Grammar.prepare G with
              | Ok allFirsts => Ok (s, allFirsts)
              | Raise e0 => Raise e0
              | OutOfFuel => OutOfFuel
              end = Raise e ↔ Grammar.prepare G = Raise e) as Hs.
    { intros s. destruct (Grammar.prepare G); split; intros [=]; by subst. }
    assert ((match start with
             | Some s => Ok s
             | None => Ok (Grammar.name p)
             end : Res string) = Ok (default (Grammar.name p) start)) as ->
      by (by destruct start).
    rewrite Hs, Grammar_prepare_Raise, Hprods. naive_solver.
Qed.

(** X15. When Grammar.prepare returns, startSymbol is the one the
    class gave or, when it gave none, the name of the first
    production, and the table is a fixed point of the loop: one more
    run of its body gives the same table. In it the set of the end of
    input is the end of input alone, and the set of a token type that
    names no production is that token type alone. *)
Theorem prepare_leaves_a_fixed_point (cls : GrammarClass.Class_)
    (start : string) (tbl : Grammar.FirstTable) :
  let G := GrammarClass.grammar cls in
  GrammarClass.prepare cls = Ok (start, tbl) →
  Some start = match GrammarClass.startSymbol cls with
               | Some s => Some s
               | None => Grammar.name <$> head (Grammar.productions G)
               end ∧
  Grammar.first_pass G tbl = tbl ∧
  tbl !! Grammar.EOF = Some {[Grammar.EOF]} ∧
  ∀ n, n ∈ Grammar.tokenTypes G → ¬ names_production G (Grammar.Name n) →
       tbl !! Grammar.Name n = Some {[Grammar.Name n]}.
Proof.
  intros G Hprepare.
  destruct (prepare_Ok_table cls start tbl Hprepare) as [HG Hprods].
  fold G in HG, Hprods. split.
  { revert Hprepare. unfold GrammarClass.prepare, GrammarClass._defaultStartSymbol.
    fold G. rewrite HG. destruct (Grammar.productions G) as [|p prods]; [done|].
    destruct (GrammarClass.startSymbol cls); intros [=]; by subst. }
  pose proof (prepare_Ok G tbl HG) as (_ & Hfix & _).
  apply prepare_loop in HG. split; [done|]. split.
  - rewrite (first_loop_other _ G Grammar.EOF _ _ ltac:(by intros (? & _ & [=])) HG).
    apply initial_firsts_lookup. split; [done|by left].
  - intros n Hn Hname. rewrite (first_loop_other _ G _ _ _ Hname HG).
    apply initial_firsts_lookup. split; [done|]. right. eauto.
Qed.

Lemma prepare_leaves_a_fixed_point_witness :
  let tbl : Grammar.FirstTable :=
    {[Grammar.Name "c" := {[Grammar.Name "c"]};
      Grammar.EOF := {[Grammar.EOF]};
      Grammar.Name "A" := {[Grammar.Epsilon; Grammar.Name "c"]};
      Grammar.Name "B" := {[Grammar.Epsilon]}]} in
  Some "A"%string = Some "A"%string ∧
  Grammar.first_pass nullable_prefix_grammar tbl = tbl ∧
  tbl !! Grammar.EOF = Some {[Grammar.EOF]} ∧
  ∀ n, n ∈ Grammar.tokenTypes nullable_prefix_grammar →
       ¬ names_production nullable_prefix_grammar (Grammar.Name n) →
       tbl !! Grammar.Name n = Some {[Grammar.Name n]}.
Proof.
  intros tbl.
  apply (prepare_leaves_a_fixed_point
           (GrammarClass.mkClass nullable_prefix_grammar None) "A" tbl).
  vm_compute. reflexivity.
Defined.

(** X16. The table that Grammar.prepare leaves holds the FIRST sets of
    the standard recurrence: every symbol that the recurrence puts in
    FIRST(X) is in the set of X in the table. (The table may hold
    more, see C8.) *)
Theorem prepare_holds_the_first_sets (cls : GrammarClass.Class_)
    (start : string) (tbl : Grammar.FirstTable) (X a : Grammar.Symbol) :
  GrammarClass.prepare cls = Ok (start, tbl) →
  first_of (GrammarClass.grammar cls) X a →
  a ∈ Grammar.get_first tbl X.
Proof.
  intros [HG _]%prepare_Ok_table. by apply prepare_complete.
Qed.

Lemma prepare_holds_the_first_sets_witness :
  Grammar.Name "c" ∈
    Grammar.get_first
      ({[Grammar.Name "c" := {[Grammar.Name "c"]};
         Grammar.EOF := {[Grammar.EOF]};
         Grammar.Name "A" := {[Grammar.Epsilon; Grammar.Name "c"]};
         Grammar.Name "B" := {[Grammar.Epsilon]}]} : Grammar.FirstTable)
      (Grammar.Name "c").
Proof.
  apply (prepare_holds_the_first_sets
           (GrammarClass.mkClass nullable_prefix_grammar None) "A").
  - vm_compute. reflexivity.
  - apply first_terminal. left. reflexivity.
Defined.

(** X17. Grammar.prepare terminates and returns for a class that has
    productions, no two of them equal (and whose right sides do not
    hold the end of input, which no production of a grammar class
    does): the loop ends within one run more than the number of
    nonterminals times the number of token types plus two. *)
Theorem prepare_returns (cls : GrammarClass.Class_) :
  let G := GrammarClass.grammar cls in
  Grammar.productions G ≠ [] →
  NoDup (Grammar.productions G) →
  (∀ prod, prod ∈ Grammar.productions G → Grammar.EOF ∉ Grammar.right prod) →
  ∃ start tbl, GrammarClass.prepare cls = Ok (start, tbl).
Proof.
  intros G Hprods Hnd Hright.
  assert (∃ tbl, Grammar.prepare G = Ok tbl) as [tbl Htbl].
  { unfold Grammar.prepare.
    destruct (check_duplicates_spec (Grammar.productions G) [])
      as [(-> & _)|(_ & Hbad)].
    - apply first_loop_total; [done|apply initial_firsts_bounded|].
      unfold Grammar.first_fuel. lia.
    - destruct Hbad. split; [done|]. intros p _ Hp. by apply elem_of_nil in Hp. }
  unfold GrammarClass.prepare, GrammarClass._defaultStartSymbol. fold G.
  rewrite Htbl. destruct (Grammar.productions G) as [|p prods]; [done|].
  destruct (GrammarClass.startSymbol cls); eauto.
Qed.

Lemma prepare_returns_witness :
  ∃ start tbl,
    GrammarClass.prepare (GrammarClass.mkClass nullable_prefix_grammar None)
      = Ok (start, tbl).
Proof.
  apply (prepare_returns (GrammarClass.mkClass nullable_prefix_grammar None)).
  - discriminate.
  - apply (bool_decide_unpack _). vm_compute. exact I.
  - intros prod Hprod. apply (bool_decide_unpack _).
    revert prod Hprod. apply Forall_forall. repeat constructor.
Defined.
(** * grammar.py: the Production objects *)

Section Productions.
Import GrammarClass.

Lemma dict_set_fresh {V} (d : list (nat * V)) key value :
  key ∉ map fst d → dict_set d key value = d ++ [(key, value)].
Proof.
  induction d as [|[k v] d IH]; [done|]. simpl. intros Hkey.
  apply not_elem_of_cons in Hkey as [Hne Hkey].
  destruct (Nat.eqb_spec k key) as [->|_]; [done|]. by rewrite IH.
Qed.

Lemma addSymbol_Returns self identifier name_ p :
  ids_ok self →
  addSymbol self identifier name_ = Returns p →
  name p = name self ∧ priority p = priority self ∧
  right p = right self ++ [identifier] ∧
  ids p = ids self ++ match name_ with
                      | Some n => [(length (right self), n)]
                      | None => []
                      end ∧
  ids_ok p.
Proof.
  intros (Hkeys & Hfst & Hsnd). unfold addSymbol.
  assert (length (right self) ∉ map fst (ids self)) as Hfresh.
  { intros (item & Hlen & Hitem)%list_elem_of_fmap.
    rewrite Forall_forall in Hkeys. apply Hkeys in Hitem. lia. }
  assert (Forall (λ item : nat * string,
            item.1 < length (right self ++ [identifier])) (ids self)) as Hkeys'.
  { eapply Forall_impl; [done|]. intros item. rewrite length_app. simpl. lia. }
  destruct name_ as [n|].
  - case_bool_decide as Hn; [done|]. intros [= <-]. simpl.
    rewrite dict_set_fresh by done. repeat (split; [done|]).
    unfold ids_ok. simpl. rewrite !map_app. simpl. split; [|split].
    + apply Forall_app. split; [done|]. constructor; [|done].
      rewrite length_app. simpl. lia.
    + apply NoDup_app. split; [done|]. split; [|apply NoDup_singleton].
      intros k Hk ->%list_elem_of_singleton. done.
    + apply NoDup_app. split; [done|]. split; [|apply NoDup_singleton].
      intros m Hm ->%list_elem_of_singleton. done.
  - intros [= <-]. simpl. rewrite app_nil_r. repeat (split; [done|]).
    unfold ids_ok. simpl. done.
Qed.

Lemma built_ids_ok p : built p → ids_ok p.
Proof.
  induction 1 as [|self identifier name_ p _ IH Hadd].
  - unfold ids_ok. simpl. split; [constructor|]. split; constructor.
  - by apply (addSymbol_Returns self identifier name_ p IH) in Hadd as (_ & _ & _ & _ & ?).
Qed.

Lemma apply_items_Returns {V} (items : list (nat * string)) (args : list V) :
  Forall (λ item, item.1 < length args) items →
  ∃ l, apply_items items args = Returns l ∧
       map fst l = map snd items ∧
       ∀ n v, (n, v) ∈ l ↔ ∃ k, (k, n) ∈ items ∧ args !! k = Some v.
Proof.
  induction 1 as [|[k n] items Hk _ (l & IH & Hfst & Hl)]; simpl in *.
  - exists []. split; [done|]. split; [done|]. intros n v. split.
    + by intros ?%elem_of_nil.
    + by intros (? & ?%elem_of_nil & _).
  - destruct (lookup_lt_is_Some_2 args k Hk) as [arg Harg]. rewrite Harg, IH.
    eexists. split; [done|]. simpl. split; [by rewrite Hfst|]. intros m v.
    rewrite elem_of_cons, Hl. split.
    + intros [[= -> ->]|(k' & ? & ?)].
      * exists k. split; [left|done].
      * exists k'. split; [by right|done].
    + intros (k' & [[= -> ->]|?]%elem_of_cons & Hv).
      * left. congruence.
      * right. eauto.
Qed.

Lemma apply_items_Raises {V} (items : list (nat * string)) (args : list V) e :
  apply_items items args = Raises e ↔
  e = Builtin IndexError ∧ ∃ k n, (k, n) ∈ items ∧ length args ≤ k.
Proof.
  revert e. induction items as [|[k n] items IH]; intros e; simpl.
  - split; [done|]. by intros (_ & ? & ? & ?%elem_of_nil & _).
  - destruct (args !! k) as [arg|] eqn:Harg.
    + destruct (apply_items items args) as [l|e'] eqn:Hrest.
      * split; [done|]. intros (He & k' & n' & [[= -> ->]|Hin]%elem_of_cons & Hlen).
        -- apply lookup_lt_Some in Harg. lia.
        -- assert (Returns l = Raises e) as [=]. apply IH. eauto.
      * split.
        -- intros [= ->]. destruct (proj1 (IH _) eq_refl) as (-> & k' & n' & ? & ?).
           split; [done|]. exists k', n'. split; [by right|done].
        -- intros (-> & _). f_equal. by destruct (proj1 (IH _) eq_refl) as (-> & _).
    + apply lookup_ge_None in Harg. split.
      * intros [= <-]. split; [done|]. exists k, n. split; [left|done].
      * by intros (-> & _).
Qed.

Lemma dict_of_snoc {V} (items : list (string * V)) n v :
  dict_of (items ++ [(n, v)]) = <[n := v]> (dict_of items).
Proof. unfold dict_of. by rewrite foldl_app. Qed.

Lemma dict_of_lookup {V} (items : list (string * V)) n v :
  NoDup (map fst items) →
  dict_of items !! n = Some v ↔ (n, v) ∈ items.
Proof.
  induction items as [|[m w] items IH] using rev_ind.
  - intros _. unfold dict_of. simpl. rewrite lookup_empty. split; [done|].
    by intros ?%elem_of_nil.
  - rewrite map_app. simpl. intros [Hnd [Hm _]]%NoDup_app.
    rewrite dict_of_snoc, elem_of_app, list_elem_of_singleton.
    destruct (decide (n = m)) as [->|Hne].
    + rewrite lookup_insert_eq. split.
      * intros [= ->]. by right.
      * intros [Hin|[= ->]]; [|done]. destruct (Hm m).
        -- apply list_elem_of_fmap. by exists (m, v).
        -- by apply list_elem_of_singleton.
    + rewrite lookup_insert_ne by done. rewrite IH by done. split; [by left|].
      intros [?|[= ? ?]]; done.
Qed.

Lemma find_Some_split {A} (f : A → bool) (l : list A) x :
  find f l = Some x ↔
  ∃ l1 l2, l = l1 ++ x :: l2 ∧ f x = true ∧ Forall (λ y, f y = false) l1.
Proof.
  induction l as [|y l IH]; simpl.
  - split; [done|]. intros (l1 & l2 & Hl & _). by destruct l1.
  - destruct (f y) eqn:Hy.
    + split.
      * intros [= ->]. exists [], l. done.
      * intros ([|z l1] & l2 & [= -> ->] & Hx & Hl1); [done|].
        apply Forall_cons in Hl1 as [? _]. congruence.
    + rewrite IH. split.
      * intros (l1 & l2 & -> & Hx & Hl1). exists (y :: l1), l2.
        split; [done|]. split; [done|]. by constructor.
      * intros ([|z l1] & l2 & [= -> ->] & Hx & Hl1); [congruence|].
        apply Forall_cons in Hl1 as [_ ?]. eauto.
Qed.

Lemma find_None_all {A} (f : A → bool) (l : list A) :
  find f l = None ↔ Forall (λ y, f y = false) l.
Proof.
  induction l as [|y l IH]; simpl; [done|]. destruct (f y) eqn:Hy.
  - split; [done|]. intros [? _]%Forall_cons. congruence.
  - rewrite IH. split; [by constructor|]. by intros [_ ?]%Forall_cons.
Qed.

Lemma terminalPrecedence_from_Some index precedences symbol associativity i :
  terminalPrecedence_from index precedences symbol = Some (associativity, i) ↔
  ∃ j terminals,
    i = index + j ∧ precedences !! j = Some (associativity, terminals) ∧
    symbol ∈ terminals ∧
    ∀ j' item, j' < j → precedences !! j' = Some item → symbol ∉ item.2.
Proof.
  revert index. induction precedences as [|[a ts] precedences IH]; intros index; simpl.
  - split; [done|]. by intros (j & ? & _ & ? & _).
  - case_bool_decide as Hin.
    + split.
      * intros [= -> ->]. exists 0, ts. split; [lia|]. split; [done|].
        split; [done|]. intros; lia.
      * intros ([|j] & ts' & -> & Hj & Hs & Hfirst).
        -- simplify_eq/=. f_equal. f_equal. lia.
        -- destruct (Hfirst 0 (a, ts)); [lia|done|done].
    + rewrite IH. split.
      * intros (j & ts' & -> & Hj & Hs & Hfirst). exists (S j), ts'.
        split; [lia|]. split; [done|]. split; [done|].
        intros [|j'] item Hlt; simpl; [by intros [= <-]|].
        apply Hfirst. lia.
      * intros ([|j] & ts' & -> & Hj & Hs & Hfirst); simplify_eq/=; [done|].
        exists j, ts'. split; [lia|]. split; [done|]. split; [done|].
        intros j' item Hlt Hitem. apply (Hfirst (S j') item); [lia|done].
Qed.

Lemma terminalPrecedence_from_None index precedences symbol :
  terminalPrecedence_from index precedences symbol = None ↔
  Forall (λ item : Precedence, symbol ∉ item.2) precedences.
Proof.
  revert index. induction precedences as [|[a ts] precedences IH]; intros index; simpl.
  - done.
  - case_bool_decide as Hin.
    + split; [done|]. by intros [? _]%Forall_cons.
    + rewrite IH. split; [by constructor|]. by intros [_ ?]%Forall_cons.
Qed.

End Productions.

(** X18. For a Production built by the code (a new object, then calls
    of addSymbol that returned), addSymbol raises GrammarParseError
    exactly when a name is given that an earlier symbol of the right
    side has; otherwise it appends the symbol to right and records the
    name, if one is given, under the position of the new symbol, as a
    new item of __ids: no earlier name is replaced. *)
Theorem addSymbol_records_the_name_once (self : GrammarClass.Production)
    (identifier : string) (name_ : option string) :
  built self →
  (∀ e, GrammarClass.addSymbol self identifier name_ = GrammarClass.Raises e ↔
        e = GrammarClass.GrammarParseError ∧
        ∃ n k, name_ = Some n ∧ (k, n) ∈ GrammarClass.ids self) ∧
  (∀ p, GrammarClass.addSymbol self identifier name_ = GrammarClass.Returns p →
        GrammarClass.right p = GrammarClass.right self ++ [identifier] ∧
        GrammarClass.ids p =
          GrammarClass.ids self ++
          match name_ with
          | Some n => [(length (GrammarClass.right self), n)]
          | None => []
          end ∧
        built p).
Proof.
  intros Hbuilt. split.
  - intros e. unfold GrammarClass.addSymbol. destruct name_ as [n|].
    + case_bool_decide as Hn.
      * split.
        -- intros [= <-]. split; [done|].
           apply list_elem_of_fmap in Hn as ([k m] & -> & Hin). eauto.
        -- by intros (-> & _).
      * split; [done|]. intros (_ & m & k & [= <-] & Hin). destruct Hn.
        apply list_elem_of_fmap. by exists (k, n).
    + split; [done|]. by intros (_ & ? & ? & [=] & _).
  - intros p Hp.
    destruct (addSymbol_Returns self identifier name_ p (built_ids_ok _ Hbuilt) Hp)
      as (_ & _ & Hright & Hids & _).
    split; [done|]. split; [done|]. by eapply built_add.
Qed.

Lemma addSymbol_records_the_name_once_witness :
  let self := GrammarClass.Production__init__ "E" None in
  (∀ e, GrammarClass.addSymbol self "E" (Some "left"%string) = GrammarClass.Raises e ↔
        e = GrammarClass.GrammarParseError ∧
        ∃ n k, Some "left"%string = Some n ∧ (k, n) ∈ GrammarClass.ids self) ∧
  (∀ p, GrammarClass.addSymbol self "E" (Some "left"%string) = GrammarClass.Returns p →
        GrammarClass.right p = GrammarClass.right self ++ ["E"%string] ∧
        GrammarClass.ids p =
          GrammarClass.ids self ++ [(length (GrammarClass.right self), "left"%string)] ∧
        built p).
Proof.
  intros self.
  apply (addSymbol_records_the_name_once self "E" (Some "left"%string)).
  apply built_init.
Defined.

(** X19. Production.apply, for a Production built by the code and a
    list args that has an item for each symbol of the right side,
    builds the keyword arguments without an error: their keys are the
    names given to addSymbol, and the value of a name is the item of
    args at the position of the symbol added with that name. *)
Theorem apply_passes_the_named_arguments {V} (self : GrammarClass.Production)
    (args : list V) :
  built self →
  length (GrammarClass.right self) ≤ length args →
  ∃ kwargs,
    GrammarClass.apply self args = GrammarClass.Returns kwargs ∧
    ∀ n v, kwargs !! n = Some v ↔
           ∃ k, (k, n) ∈ GrammarClass.ids self ∧ args !! k = Some v.
Proof.
  intros (Hkeys & _ & Hsnd)%built_ids_ok Hlen. unfold GrammarClass.apply.
  destruct (apply_items_Returns (GrammarClass.ids self) args) as (l & -> & Hfst & Hl).
  { eapply Forall_impl; [done|]. intros item. simpl. lia. }
  eexists. split; [done|]. intros n v. rewrite <- Hl. apply dict_of_lookup.
  by rewrite Hfst.
Qed.

Lemma apply_passes_the_named_arguments_witness :
  ∃ kwargs,
    GrammarClass.apply example_production [1; 2; 3] = GrammarClass.Returns kwargs ∧
    ∀ n v, kwargs !! n = Some v ↔
           ∃ k, (k, n) ∈ GrammarClass.ids example_production ∧
                [1; 2; 3] !! k = Some v.
Proof.
  apply (apply_passes_the_named_arguments example_production [1; 2; 3]).
  - apply (built_add _ "E" (Some "right"%string) _
             (built_add _ "plus" None _
                (built_add _ "E" (Some "left"%string) _
                   (built_init "E" None) eq_refl) eq_refl)).
    vm_compute. reflexivity.
  - vm_compute. lia.
Defined.

(** X20. Production.apply raises before the callback is called exactly
    when a recorded position is not a position of args, and the error
    is then IndexError. *)
Theorem apply_raises_IndexError {V} (self : GrammarClass.Production)
    (args : list V) (e : GrammarClass.error) :
  GrammarClass.apply self args = GrammarClass.Raises e ↔
  e = GrammarClass.Builtin IndexError ∧
  ∃ k n, (k, n) ∈ GrammarClass.ids self ∧ length args ≤ k.
Proof.
  rewrite <- apply_items_Raises. unfold GrammarClass.apply.
  destruct (GrammarClass.apply_items _ _); split; congruence.
Qed.

(** X21. Production.rightmostTerminal returns a symbol exactly when it
    is a token type at a position of the right side after which no
    symbol is a token type, and None exactly when no symbol of the
    right side is a token type. *)
Theorem rightmostTerminal_is_the_last_token_type (self : GrammarClass.Production)
    (tokenTypes : gset string) :
  (∀ symbol,
     GrammarClass.rightmostTerminal self tokenTypes = Some symbol ↔
     ∃ before after,
       GrammarClass.right self = before ++ symbol :: after ∧
       symbol ∈ tokenTypes ∧ ∀ s, s ∈ after → s ∉ tokenTypes) ∧
  (GrammarClass.rightmostTerminal self tokenTypes = None ↔
   ∀ s, s ∈ GrammarClass.right self → s ∉ tokenTypes).
Proof.
  unfold GrammarClass.rightmostTerminal. split.
  - intros symbol. rewrite find_Some_split. split.
    + intros (l1 & l2 & Hrev & Hs & Hl1). exists (rev l2), (rev l1).
      split; [|split].
      * rewrite <- (rev_involutive (GrammarClass.right self)), Hrev.
        rewrite rev_app_distr. simpl. by rewrite <- app_assoc.
      * by apply bool_decide_eq_true in Hs.
      * intros s Hin. rewrite Forall_forall in Hl1.
        assert (s ∈ l1) as Hin'.
        { apply list_elem_of_In, in_rev, list_elem_of_In. done. }
        apply Hl1, bool_decide_eq_false in Hin'. done.
    + intros (before & after & Hright & Hs & Hafter).
      exists (rev after), (rev before). split; [|split].
      * rewrite Hright, rev_app_distr. simpl. by rewrite <- app_assoc.
      * by apply bool_decide_eq_true.
      * apply Forall_forall. intros s Hin. apply bool_decide_eq_false, Hafter.
        apply list_elem_of_In, in_rev, list_elem_of_In. done.
  - rewrite find_None_all, Forall_forall. split.
    + intros Hall s Hin. eapply bool_decide_eq_false, Hall.
      apply list_elem_of_In. rewrite <- in_rev. by apply list_elem_of_In.
    + intros Hall s Hin. apply bool_decide_eq_false, Hall.
      apply list_elem_of_In, in_rev, list_elem_of_In. done.
Qed.

(** X22. Grammar.terminalPrecedence returns the associativity and the
    index of the first declaration of precedences() that holds the
    symbol, and None exactly when no declaration holds it.
    Production.precedence is that of the priority given to the
    production, without a look at the right side, and else that of
    the rightmost token type. *)
Theorem terminalPrecedence_is_the_first_declaration
    (precedences : list GrammarClass.Precedence) (symbol : string) :
  (∀ associativity index,
     GrammarClass.terminalPrecedence precedences symbol = Some (associativity, index) ↔
     ∃ terminals,
       precedences !! index = Some (associativity, terminals) ∧
       symbol ∈ terminals ∧
       ∀ j item, j < index → precedences !! j = Some item → symbol ∉ item.2) ∧
  (GrammarClass.terminalPrecedence precedences symbol = None ↔
   ∀ item, item ∈ precedences → symbol ∉ item.2) ∧
  (∀ self tokenTypes,
     GrammarClass.precedence self tokenTypes precedences =
     match GrammarClass.priority self with
     | Some p => GrammarClass.terminalPrecedence precedences p
     | None =>
         GrammarClass.rightmostTerminal self tokenTypes ≫=
         GrammarClass.terminalPrecedence precedences
     end).
Proof.
  unfold GrammarClass.terminalPrecedence. split; [|split].
  - intros associativity index. rewrite terminalPrecedence_from_Some. split.
    + intros (j & ts & -> & ?). exists ts. done.
    + intros (ts & ?). exists index, ts. done.
  - rewrite terminalPrecedence_from_None. apply Forall_forall.
  - intros self tokenTypes. unfold GrammarClass.precedence.
    destruct (GrammarClass.priority self); [done|].
    by destruct (GrammarClass.rightmostTerminal self tokenTypes).
Qed.
(** * lexer.py: ReLexer *)

Section ReLexerFacts.
Import Lexer ReLexer.
Context `{HostSearch} `{LexerClass}.

Lemma best_match_app (l1 l2 : list Rule) text match_ matchlen :
  best_match (l1 ++ l2) text match_ matchlen =
  best_match l2 text (best_match l1 text match_ matchlen).1
                     (best_match l1 text match_ matchlen).2.
Proof.
  revert match_ matchlen.
  induction l1 as [|[[rx callback] defaultType] l1 IH]; intros match_ matchlen; simpl.
  - done.
  - destruct (re_search rx text) as [value|]; [|apply IH].
    destruct (matchlen <? length value); apply IH.
Qed.

Lemma lookup_snoc_inv {A} (l : list A) x j y :
  (l ++ [x]) !! j = Some y →
  (j < length l ∧ l !! j = Some y) ∨ (j = length l ∧ y = x).
Proof.
  intros Hj. destruct (decide (j < length l)) as [Hlt|Hge].
  - left. by rewrite lookup_app_l in Hj.
  - right. rewrite lookup_app_r in Hj by lia.
    destruct (j - length l) as [|?] eqn:Hsub; [|done].
    simpl in Hj. injection Hj as <-. split; [lia|done].
Qed.

Lemma best_match_best regexes text :
  best_of regexes text (best_match regexes text None 0).
Proof.
  induction regexes as [|[[rx callback] defaultType] regexes IH] using rev_ind.
  - simpl. split; [done|]. by intros ? ? ?%elem_of_nil.
  - rewrite best_match_app.
    destruct (best_match regexes text None 0) as [[[[value cb] ty]|] matchlen]; simpl in *.
    + destruct IH as (-> & Hpos & i & rx0 & Hi & Hrx0 & Hbest).
      assert (i < length regexes) as Hlt by (by eapply lookup_lt_Some).
      destruct (re_search rx text) as [v'|] eqn:Hrx.
      * destruct (Nat.ltb_spec (length value) (length v')) as [Hlen|Hlen]; simpl.
        -- split; [done|]. split; [lia|]. exists (length regexes), rx. split; [|split].
           ++ by apply list_lookup_middle.
           ++ done.
           ++ intros j rule v [[Hjl Hj]|[-> ->]]%lookup_snoc_inv Hv.
              ** destruct (Hbest j rule v Hj Hv). lia.
              ** simpl in Hv. rewrite Hrx in Hv. injection Hv as <-. split; [lia|]. intros Hji. exfalso.
                 first [by apply Nat.lt_irrefl in Hji|by apply (Nat.lt_asymm _ _ Hji)].
        -- split; [done|]. split; [done|]. exists i, rx0. split; [|split].
           ++ by rewrite lookup_app_l.
           ++ done.
           ++ intros j rule v [[Hjl Hj]|[-> ->]]%lookup_snoc_inv Hv.
              ** by apply (Hbest j rule v).
              ** simpl in Hv. rewrite Hrx in Hv. injection Hv as <-. split; [lia|]. intros Hji. exfalso.
                 first [by apply Nat.lt_irrefl in Hji|by apply (Nat.lt_asymm _ _ Hji)].
      * simpl. split; [done|]. split; [done|]. exists i, rx0. split; [|split].
        -- by rewrite lookup_app_l.
        -- done.
        -- intros j rule v [[Hjl Hj]|[-> ->]]%lookup_snoc_inv Hv.
           ++ by apply (Hbest j rule v).
           ++ simpl in Hv. congruence.
    + destruct IH as (-> & Hnone).
      destruct (re_search rx text) as [v'|] eqn:Hrx.
      * destruct (Nat.ltb_spec 0 (length v')) as [Hlen|Hlen]; simpl.
        -- split; [done|]. split; [done|]. exists (length regexes), rx. split; [|split].
           ++ by apply list_lookup_middle.
           ++ done.
           ++ intros j rule v [[Hjl Hj]|[-> ->]]%lookup_snoc_inv Hv.
              ** rewrite (Hnone rule v); [simpl; lia| |done].
                 by eapply list_elem_of_lookup_2.
              ** simpl in Hv. rewrite Hrx in Hv. injection Hv as <-. split; [lia|]. intros Hji. exfalso.
                 first [by apply Nat.lt_irrefl in Hji|by apply (Nat.lt_asymm _ _ Hji)].
        -- split; [done|]. intros rule v [Hin|Hin]%elem_of_app Hv; [by eapply Hnone|].
           apply list_elem_of_singleton in Hin as ->. simpl in Hv.
           assert (v = v') as -> by congruence. destruct v'; [done|simpl in Hlen; lia].
      * simpl. split; [done|]. intros rule v [Hin|Hin]%elem_of_app Hv; [by eapply Hnone|].
        apply list_elem_of_singleton in Hin as ->. simpl in Hv. congruence.
Qed.

(* the body of the loop of parse ends in one of its two ways, with the
   position advanced once and tokens added after those emitted; it
   goes forward, or no rule matches a text that is not empty *)
Lemma parse_step_spec string p char lx :
  ∃ lx' st toks,
    parse_step string p char lx = (lx', Ok st) ∧
    pos lx' = advanced char (pos lx) ∧
    emitted lx' = emitted lx ++ toks ∧
    match st with
    | Next p' => p < p'
    | Error text colno lineno =>
        consumer lx = None ∧ ignore char = false ∧
        best_match _allTokens (drop p string) None 0 = (None, 0) ∧
        text = take 10 (drop p string) ∧ (colno, lineno) = pos lx'
    end.
Proof.
  unfold parse_step, advanced.
  destruct lx as [h [col row] cons cs cm ms mp st em cl].
  assert (∀ l : list Token, l = l ++ []) as Hnil by (intros; by rewrite app_nil_r).
  destruct cons as [c|].
  - destruct (Ascii.eqb char newline); cbn;
      destruct (c [Char char]) as [[[]]|]; cbn;
      (eexists _, _, _; split; [done|]; split; [done|]; split; [eauto|lia]).
  - pose proof (best_match_best _allTokens (drop p string)) as Hbest.
    destruct (Ascii.eqb char newline); cbn -[ignore];
      destruct (ignore char) eqn:Hignore; cbn -[ignore];
      try (eexists _, _, _; split; [done|]; split; [done|]; split; [eauto|lia]);
      destruct (best_match _allTokens (drop p string) None 0)
        as [[[[value callback] defaultType]|] matchlen]; cbn;
      try (destruct Hbest as (-> & _);
           eexists _, _, _; split; [done|]; split; [done|]; split; [eauto|done]);
      destruct Hbest as (-> & Hpos & _);
      destruct (call callback _) as [tok [c|]]; cbn;
      destruct (type tok); cbn;
      (eexists _, _, _; split; [done|]; split; [done|]; split; [eauto|lia]).
Qed.

Lemma parse_loop_spec fuel string : ∀ p lx,
  length string - p < fuel →
  ∃ lx' toks,
    emitted lx' = emitted lx ++ toks ∧
    (parse_loop fuel string p lx = (lx', Returns) ∨
     ∃ p' text colno lineno,
       parse_loop fuel string p lx = (lx', Raises_LexerError text colno lineno) ∧
       p' < length string ∧ text = take 10 (drop p' string) ∧
       (colno, lineno) = pos lx' ∧
       best_match _allTokens (drop p' string) None 0 = (None, 0)).
Proof.
  induction fuel as [|fuel IH]; intros p lx Hfuel; [lia|]. simpl.
  destruct (string !! p) as [char|] eqn:Hchar.
  - apply lookup_lt_Some in Hchar as Hp.
    destruct (parse_step_spec string p char lx)
      as (lx1 & st & toks & -> & _ & Hem & Hst).
    destruct st as [p'|text colno lineno].
    + destruct (IH p' lx1 ltac:(lia)) as (lx' & toks' & Hem' & Hres).
      exists lx', (toks ++ toks'). split; [|done].
      by rewrite Hem', Hem, app_assoc.
    + destruct Hst as (_ & _ & Hbest & -> & Hpos).
      exists lx1, toks. split; [done|]. right. exists p. eauto 10.
  - exists lx, []. split; [by rewrite app_nil_r|]. by left.
Qed.

Lemma parse_step_match string p char lx value callback defaultType matchlen :
  consumer lx = None → ignore char = false →
  best_match _allTokens (drop p string) None 0
    = (Some (value, callback, defaultType), matchlen) →
  ∃ lx',
    parse_step string p char lx = (lx', Ok (Next (p + matchlen))) ∧
    pos lx' = advanced char (pos lx) ∧
    called lx' =
      called lx ++ [(callback, mkMutableToken (type_of_default defaultType) value)].
Proof.
  unfold parse_step, advanced.
  destruct lx as [h [col row] cons cs cm ms mp st em cl]. simpl.
  intros -> Hignore Hbest.
  destruct (Ascii.eqb char newline); cbn -[ignore];
    rewrite Hignore, Hbest; cbn;
    destruct (call callback _) as [tok [c|]]; cbn;
    destruct (type tok); cbn; eauto.
Qed.

End ReLexerFacts.

(** X23. ReLexer.parse ends for every string, every rule list and
    every host: it returns or raises LexerError. When it returns, the
    tokens given to newToken are those given before, then the tokens
    of the string, then EOF. When it raises LexerError, the error
    holds the position of the lexer and at most ten characters of the
    string from a position at which no rule matches a text of one
    character or more. *)
Theorem ReLexer_parse_returns_or_raises_LexerError
    `{ReLexer.HostSearch} `{Lexer.LexerClass}
    (string : list ascii) (lx : Lexer.ProgressiveLexer) :
  ∃ lx' toks,
    (ReLexer.parse string lx = (lx', ReLexer.Returns) ∧
     Lexer.emitted lx' = Lexer.emitted lx ++ toks ++ [Lexer.EOFToken]) ∨
    (∃ p text colno lineno,
       ReLexer.parse string lx = (lx', ReLexer.Raises_LexerError text colno lineno) ∧
       Lexer.emitted lx' = Lexer.emitted lx ++ toks ∧
       p < length string ∧ text = take 10 (drop p string) ∧ text ≠ [] ∧
       (colno, lineno) = Lexer.pos lx' ∧
       ∀ rule v, rule ∈ Lexer._allTokens →
                 ReLexer.re_search rule.1.1 (drop p string) = Some v → v = []).
Proof.
  unfold ReLexer.parse.
  destruct (parse_loop_spec (S (length string)) string 0 lx ltac:(lia))
    as (lx' & toks & Hem & [->|(p & text & colno & lineno & -> & Hp & -> & Hpos & Hbest)]).
  - eexists _, toks. left. split; [done|]. simpl. by rewrite Hem, app_assoc.
  - exists lx', toks. right. exists p, (take 10 (drop p string)), colno, lineno.
    split; [done|]. split; [done|]. split; [done|]. split; [done|]. split.
    + intros Hnil%(f_equal length). rewrite length_take, length_drop in Hnil. cbn [length] in Hnil. lia.
    + split; [done|].
      pose proof (best_match_best Lexer._allTokens (drop p string)) as Hspec.
      rewrite Hbest in Hspec. by destruct Hspec.
Qed.

(** X24. The rule that ReLexer.parse applies at a position is the one
    that matches the longest text, and of the rules that match a text
    of that length, the first in the order of _allTokens; a rule that
    matches the empty text is never applied, and no rule is applied
    exactly when every rule that matches at all matches the empty
    text. *)
Theorem parse_applies_the_first_longest_match `{ReLexer.HostSearch}
    (regexes : list Lexer.Rule) (text : list ascii) :
  match ReLexer.best_match regexes text None 0 with
  | (Some (value, callback, defaultType), matchlen) =>
      matchlen = length value ∧ 0 < matchlen ∧
      ∃ i rx,
        regexes !! i = Some (rx, callback, defaultType) ∧
        ReLexer.re_search rx text = Some value ∧
        ∀ j rule v,
          regexes !! j = Some rule → ReLexer.re_search rule.1.1 text = Some v →
          length v ≤ matchlen ∧ (j < i → length v < matchlen)
  | (None, matchlen) =>
      matchlen = 0 ∧
      ∀ rule v, rule ∈ regexes → ReLexer.re_search rule.1.1 text = Some v → v = []
  end.
Proof.
  pose proof (best_match_best regexes text) as Hbest.
  unfold best_of in Hbest.
  by destruct (ReLexer.best_match regexes text None 0) as [[[[value cb] ty]|] matchlen].
Qed.

(** X25. ReLexer.parse advances the position once for each run of its
    loop, not once for each character: when a rule matches the whole
    of a string that starts with neither a newline nor an ignored
    character, parse calls the callback of the rule once and returns
    with the column one more than before, whatever the length of the
    string. *)
Theorem ReLexer_parse_counts_a_token_as_one_column
    `{ReLexer.HostSearch} `{Lexer.LexerClass}
    (char : ascii) (rest : list ascii) (lx : Lexer.ProgressiveLexer)
    (value : list ascii) (callback : nat) (defaultType : option string)
    (matchlen : nat) :
  Lexer.consumer lx = None →
  char ≠ Regex.newline → Lexer.ignore char = false →
  ReLexer.best_match Lexer._allTokens (char :: rest) None 0
    = (Some (value, callback, defaultType), matchlen) →
  length (char :: rest) ≤ matchlen →
  ∃ lx',
    ReLexer.parse (char :: rest) lx = (lx', ReLexer.Returns) ∧
    Lexer.pos lx' = ((Lexer.pos lx).1 + 1, (Lexer.pos lx).2) ∧
    Lexer.called lx' =
      Lexer.called lx ++
      [(callback, Lexer.mkMutableToken (Lexer.type_of_default defaultType) value)].
Proof.
  intros Hconsumer Hchar Hignore Hbest Hlen.
  destruct (parse_step_match (char :: rest) 0 char lx value callback defaultType
              matchlen Hconsumer Hignore Hbest) as (lx1 & Hstep & Hpos & Hcalled).
  unfold ReLexer.parse.
  change (ReLexer.parse_loop (S (length (char :: rest))) (char :: rest) 0 lx)
    with (match ReLexer.parse_step (char :: rest) 0 char lx with
          | (lx, Ok (ReLexer.Next p)) =>
              ReLexer.parse_loop (length (char :: rest)) (char :: rest) p lx
          | (lx, Ok (ReLexer.Error text colno lineno)) =>
              (lx, ReLexer.Raises_LexerError text colno lineno)
          | (lx, _) => (lx, ReLexer.NoFuel)
          end).
  rewrite Hstep.
  change (length (char :: rest)) with (S (length rest)) in *.
  cbn [ReLexer.parse_loop]. rewrite (lookup_ge_None_2 (char :: rest) (0 + matchlen)).
  - eexists. split; [done|]. split; [|done].
    cbn. rewrite Hpos. unfold advanced.
    by rewrite (proj2 (Ascii.eqb_neq char Regex.newline) Hchar).
  - simpl. lia.
Qed.

Lemma ReLexer_parse_counts_a_token_as_one_column_witness :
  ∃ lx',
    @ReLexer.parse literal_search abc_lexer (Regex.chars "abc") ReLexer.ReLexer__new
      = (lx', ReLexer.Returns) ∧
    Lexer.pos lx' = ((Lexer.pos ReLexer.ReLexer__new).1 + 1,
                     (Lexer.pos ReLexer.ReLexer__new).2) ∧
    Lexer.called lx' =
      Lexer.called ReLexer.ReLexer__new ++
      [(0, Lexer.mkMutableToken (Lexer.type_of_default (Some "ABC"%string))
             (Regex.chars "abc"))].
Proof.
  apply (@ReLexer_parse_counts_a_token_as_one_column literal_search abc_lexer
           "a"%char (Regex.chars "bc") ReLexer.ReLexer__new
           (Regex.chars "abc") 0 (Some "ABC"%string) 3).
  - reflexivity.
  - discriminate.
  - reflexivity.
  - vm_compute. reflexivity.
  - simpl. lia.
Defined.
